(** * dom-cue signals (src/src/signals.py): a shallow embedding

    The Python module keeps a graph of [Signal] and [Computed] objects that
    point at each other through the list each of them inherits from [Set],
    plus four module-level globals ([batched], [synchronous], [tracked],
    [computing]).  Objects are modelled as cells of a heap indexed by their
    identity ([ref]); every method becomes a function of a state-and-exception
    monad over that heap and the globals.

    User callbacks (the lambdas handed to [computed], [effect], [batch],
    [untracked]) are the inputs of the library.  They are given as terms of a
    small language [prog] whose evaluator calls back into the library; since an
    effect that writes a signal it has read is run again by its own write,
    without end, the evaluator carries fuel. *)

From Stdlib Require Import ZArith Lia Bool.
From stdpp Require Import base list.

(** ** Values and callbacks *)

(** Identity of a [Signal] / [Computed] object: its index in the heap. *)
Abbreviation ref := nat (only parsing).

(** Bodies of the lambdas the library receives. *)
Inductive prog : Type :=
| None_                                   (* None *)
| Int (z : Z)                             (* an int literal *)
| Obj (addr : nat) (payload : Z)          (* a reference to the object at [addr] *)
| Fun (addr : nat) (body : prog)          (* a reference to a function object *)
| Get (n : ref)                           (* n.value *)
| Peek (n : ref)                          (* n.peek() *)
| Put (n : ref) (e : prog)                (* n.value = e *)
| Mul (a b : prog)                        (* a * b *)
| Add (a b : prog)                        (* a + b *)
| Cond (c t e : prog)                     (* t if c else e *)
| Seq (a b : prog)                        (* a; b *)
| Print (k : Z)                           (* print(k) *)
| Raise                                   (* raise Exception *)
| Batch (body : prog)                     (* batch(lambda: body) *)
| Untracked (body : prog)                 (* untracked(lambda: body) *)
| Dispose (fx : ref).                     (* call the disposer of effect fx *)

(** Python values.  Integers are taken as interned (identity is equality of
    the number); an [VObj] or [VFun] is a reference to a heap object and its
    identity is the address, whatever it holds. *)
Inductive value : Type :=
| VNone
| VInt (z : Z)
| VObj (addr : nat) (payload : Z)
| VFun (addr : nat) (body : prog).

(** [a is b] *)
Definition is_ (a b : value) : bool :=
  match a, b with
  | VNone, VNone => true
  | VInt x, VInt y => Z.eqb x y
  | VObj p _, VObj q _ => Nat.eqb p q
  | VFun p _, VFun q _ => Nat.eqb p q
  | _, _ => false
  end.


Definition callable (v : value) : bool :=
  match v with VFun _ _ => true | _ => false end.

Definition truthy (v : value) : bool :=
  match v with
  | VNone => false
  | VInt z => negb (Z.eqb z 0)
  | _ => true
  end.

(** ** class Set(list) *)

(** [Set.add]: scan for an identical item, append when there is none. *)
Fixpoint Set_add (self : list ref) (value : ref) : list ref :=
  match self with
  | [] => [value]
  | item :: rest =>
      if Nat.eqb item value then self else item :: Set_add rest value
  end.

(** The loop of [Set.discard]: [i] is incremented at every item and the loop
    breaks at the first identical one. *)
Fixpoint discard_loop (self : list ref) (value : ref) (i : Z) : Z :=
  match self with
  | [] => i
  | item :: rest =>
      let i := (i + 1)%Z in
      if Nat.eqb item value then i else discard_loop rest value i
  end.

(** [list.pop(i)] for an index in range. *)
Fixpoint pop (self : list ref) (i : nat) : list ref :=
  match self, i with
  | [], _ => []
  | _ :: rest, O => rest
  | item :: rest, S j => item :: pop rest j
  end.

(** [Set.discard] *)
Definition Set_discard (self : list ref) (value : ref) : list ref :=
  let i := discard_loop self value (-1) in
  if Z.eqb i (-1) then self else pop self (Z.to_nat i).

(** ** Objects, globals, and the monad *)

(** What [Computed._value] holds: a user lambda, or the inner function
    [effect] of [effect(callback)], which closes over [callback] and over the
    local [value] (the cleanup returned by the last run). *)
Inductive closure : Type :=
| Lambda (body : prog)
| EffectFn (value : value) (callback : prog).

Inductive object : Type :=
| Signal (items : list ref) (_value : value)
| Computed (items : list ref) (_value : closure)
           (_compute : bool) (_computed : value) (_subscribe : bool).

(** Observable happenings, in order: [Ran n] is recorded each time the
    producer of the computed [n] is invoked (instrumentation, never read by
    the code), [Printed k] by a callback's [print(k)]. *)
Inductive event : Type :=
| Ran (n : ref)
| Printed (k : Z).

Record state : Type := mkState {
  heap : list object;
  batched : list ref;
  synchronous : bool;
  tracked : bool;
  computing : option ref;
  trace : list event
}.

Definition initial : state := mkState [] [] true true None [].

Definition set_heap (h : list object) (st : state) : state :=
  mkState h (batched st) (synchronous st) (tracked st) (computing st) (trace st).
Definition set_batched (b : list ref) (st : state) : state :=
  mkState (heap st) b (synchronous st) (tracked st) (computing st) (trace st).
Definition set_synchronous (b : bool) (st : state) : state :=
  mkState (heap st) (batched st) b (tracked st) (computing st) (trace st).
Definition set_tracked (b : bool) (st : state) : state :=
  mkState (heap st) (batched st) (synchronous st) b (computing st) (trace st).
Definition set_computing (c : option ref) (st : state) : state :=
  mkState (heap st) (batched st) (synchronous st) (tracked st) c (trace st).
Definition set_trace (t : list event) (st : state) : state :=
  mkState (heap st) (batched st) (synchronous st) (tracked st) (computing st) t.

Inductive exn : Type :=
| Exception        (* raised by a callback *)
| AttributeError
| TypeError.

(** Outcome of a call: normal return, a Python exception (with the state it
    leaves behind), a reference to no object (cannot happen in Python), or
    fuel exhausted. *)
Inductive result (A : Type) : Type :=
| Ok (a : A) (st : state)
| Exn (e : exn) (st : state)
| Dangling
| OutOfFuel.
Arguments Ok {A} a st.
Arguments Exn {A} e st.
Arguments Dangling {A}.
Arguments OutOfFuel {A}.

Definition M (A : Type) : Type := state -> result A.

Definition ret {A} (a : A) : M A := fun st => Ok a st.

Definition bind {A B} (m : M A) (k : A -> M B) : M B := fun st =>
  match m st with
  | Ok a st' => k a st'
  | Exn e st' => Exn e st'
  | Dangling => Dangling
  | OutOfFuel => OutOfFuel
  end.

Declare Scope py_scope.
Delimit Scope py_scope with py.
Notation "x <- m ;; k" := (bind m (fun x => k))
  (at level 100, m at next level, right associativity) : py_scope.
Notation "m ;; k" := (bind m (fun _ => k))
  (at level 100, right associativity) : py_scope.
Open Scope py_scope.

Definition raise {A} (e : exn) : M A := fun st => Exn e st.
Definition gets {A} (f : state -> A) : M A := fun st => Ok (f st) st.
Definition modify (f : state -> state) : M unit := fun st => Ok tt (f st).

(** [try: body finally: fin], for a [finally] block that only assigns a
    global. *)
Definition try_finally {A} (body : M A) (fin : state -> state) : M A := fun st =>
  match body st with
  | Ok a st' => Ok a (fin st')
  | Exn e st' => Exn e (fin st')
  | Dangling => Dangling
  | OutOfFuel => OutOfFuel
  end.

(** [for x in l: body(x)] over a list that is not mutated meanwhile. *)
Fixpoint for_each {A} (l : list A) (body : A -> M unit) : M unit :=
  match l with
  | [] => ret tt
  | x :: rest => body x ;; for_each rest body
  end.

(** *** Heap access *)

Definition load (n : ref) : M object := fun st =>
  match heap st !! n with
  | Some o => Ok o st
  | None => Dangling
  end.

Definition store (n : ref) (o : object) : M unit :=
  modify (fun st => set_heap (<[n := o]> (heap st)) st).

Definition alloc (o : object) : M ref := fun st =>
  Ok (length (heap st)) (set_heap (heap st ++ [o]) st).

Definition items (o : object) : list ref :=
  match o with
  | Signal l _ => l
  | Computed l _ _ _ _ => l
  end.

Definition with_items (l : list ref) (o : object) : object :=
  match o with
  | Signal _ v => Signal l v
  | Computed _ f c r s => Computed l f c r s
  end.

(** [n.add(x)], [n.discard(x)], [n.clear()] and [cleared(n)] on the list part
    of the object [n]. *)
Definition add (n x : ref) : M unit :=
  o <- load n ;; store n (with_items (Set_add (items o) x) o).

Definition discard (n x : ref) : M unit :=
  o <- load n ;; store n (with_items (Set_discard (items o) x) o).

Definition clear (n : ref) : M unit :=
  o <- load n ;; store n (with_items [] o).

Definition cleared (n : ref) : M (list ref) :=
  o <- load n ;;
  let computed := items o in
  store n (with_items [] o) ;;
  ret computed.

(** [cleared(batched)] *)
Definition cleared_batched : M (list ref) :=
  computed <- gets batched ;;
  modify (set_batched []) ;;
  ret computed.

(** Attribute access.  An attribute the object's class does not have raises
    [AttributeError], as in Python.  [_value] is read as a value only by the
    getter and [peek] of [Signal], which [Computed] overrides: on a computed,
    where it holds the producer, it is never read this way. *)
Definition get__value (n : ref) : M value :=
  o <- load n ;;
  match o with
  | Signal _ v => ret v
  | Computed _ _ _ _ _ => raise TypeError
  end.

Definition get__compute (n : ref) : M bool :=
  o <- load n ;;
  match o with
  | Computed _ _ c _ _ => ret c
  | Signal _ _ => raise AttributeError
  end.

Definition get__computed (n : ref) : M value :=
  o <- load n ;;
  match o with
  | Computed _ _ _ r _ => ret r
  | Signal _ _ => raise AttributeError
  end.

Definition get__subscribe (n : ref) : M bool :=
  o <- load n ;;
  match o with
  | Computed _ _ _ _ s => ret s
  | Signal _ _ => raise AttributeError
  end.

Definition set__compute (n : ref) (b : bool) : M unit :=
  o <- load n ;;
  match o with
  | Computed l f _ r s => store n (Computed l f b r s)
  | Signal _ _ => raise AttributeError
  end.

Definition set__computed (n : ref) (v : value) : M unit :=
  o <- load n ;;
  match o with
  | Computed l f c _ s => store n (Computed l f c v s)
  | Signal _ _ => raise AttributeError
  end.

(** The local [value] of the enclosing [effect(callback)] call, shared by the
    inner functions [effect] and [cleanup]. *)
Definition get_effect_value (fx : ref) : M value :=
  o <- load fx ;;
  match o with
  | Computed _ (EffectFn v _) _ _ _ => ret v
  | _ => raise AttributeError
  end.

Definition set_effect_value (fx : ref) (v : value) : M unit :=
  o <- load fx ;;
  match o with
  | Computed l (EffectFn _ cb) c r s => store fx (Computed l (EffectFn v cb) c r s)
  | _ => raise AttributeError
  end.

Definition emit (e : event) : M unit :=
  modify (fun st => set_trace (trace st ++ [e]) st).

(** ** The library, over an evaluator [run] for the bodies of callbacks *)

Section Library.

Variable run : prog -> M value.

(** [v()] *)
Definition call (v : value) : M value :=
  match v with
  | VFun _ body => run body
  | _ => raise TypeError
  end.

(** *** class Signal(Set) *)

(** [Signal.value], getter *)
Definition Signal_value (self : ref) : M value :=
  t <- gets tracked ;;
  c <- gets computing ;;
  (if t && bool_decide (c <> None) then
     c <- gets computing ;;
     match c with
     | Some computing => add computing self ;; add self computing
     | None => raise AttributeError
     end
   else ret tt) ;;
  get__value self.

(** [Signal.peek] *)
Definition Signal_peek (self : ref) : M value := get__value self.

(** *** class Computed(Signal) *)

(** The inner function [effect] of [effect(callback)]. *)
Definition effect_effect (fx : ref) (callback : prog) : M value :=
  value <- get_effect_value fx ;;
  (if callable value then call value ;; ret tt else ret tt) ;;
  value <- run callback ;;
  set_effect_value fx value ;;
  ret VNone.

(** [self._value()] *)
Definition call__value (self : ref) : M value :=
  o <- load self ;;
  match o with
  | Computed _ (Lambda body) _ _ _ => run body
  | Computed _ (EffectFn _ callback) _ _ _ => effect_effect self callback
  | Signal _ _ => raise AttributeError
  end.

(** [Computed._run] *)
Definition Computed__run (self : ref) : M unit :=
  c <- get__compute self ;;
  if c then
    previously <- gets computing ;;
    modify (set_computing (Some self)) ;;
    set__compute self false ;;
    clear self ;;
    try_finally
      (emit (Ran self) ;;
       r <- call__value self ;;
       set__computed self r)
      (set_computing previously)
  else ret tt.

(** [Computed._update] *)
Definition Computed__update (self : ref) : M unit :=
  set__compute self true ;;
  sync <- gets synchronous ;;
  if sync then
    s <- get__subscribe self ;;
    if s then ret tt else Computed__run self
  else
    b <- gets batched ;;
    modify (set_batched (Set_add b self)).

(** [Computed.value], getter *)
Definition Computed_value (self : ref) : M value :=
  Computed__run self ;;
  s <- get__subscribe self ;;
  t <- gets tracked ;;
  c <- gets computing ;;
  (if s && t && bool_decide (c <> None) then
     l <- cleared self ;;
     for_each l (fun signal =>
       c <- gets computing ;;
       match c with
       | Some computing => add computing signal ;; add signal computing
       | None => raise AttributeError
       end)
   else ret tt) ;;
  get__computed self.

(** [Computed.peek] *)
Definition Computed_peek (self : ref) : M value :=
  Computed__run self ;;
  get__computed self.

(** [Signal.value], setter.  [Computed] overrides the property without a
    setter, so assigning to a computed raises. *)
Definition Signal_value_set (self : ref) (value : value) : M unit :=
  o <- load self ;;
  match o with
  | Signal l _value =>
      if is_ _value value then ret tt
      else
        store self (Signal l value) ;;
        l <- cleared self ;;
        for_each l Computed__update
  | Computed _ _ _ _ _ => raise AttributeError
  end.

(** [n.value] and [n.peek()], dispatched on the class of [n]. *)
Definition get_value (n : ref) : M value :=
  o <- load n ;;
  match o with
  | Signal _ _ => Signal_value n
  | Computed _ _ _ _ _ => Computed_value n
  end.

Definition peek (n : ref) : M value :=
  o <- load n ;;
  match o with
  | Signal _ _ => Signal_peek n
  | Computed _ _ _ _ _ => Computed_peek n
  end.

(** *** Module functions *)

(** [signal(value)] *)
Definition signal (value : value) : M ref := alloc (Signal [] value).

(** [computed(lambda: body)] *)
Definition computed (body : prog) : M ref :=
  alloc (Computed [] (Lambda body) true VNone true).

(** The inner function [cleanup] of [effect(callback)]: the disposer. *)
Definition cleanup (fx : ref) : M unit :=
  l <- cleared fx ;;
  for_each l (fun signal => discard signal fx) ;;
  value <- get_effect_value fx ;;
  if callable value then call value ;; ret tt else ret tt.

(** [effect(callback)].  Python returns the closure [cleanup]; here the
    reference [fx] it closes over is returned and the disposer is
    [cleanup fx]. *)
Definition effect (callback : prog) : M ref :=
  fx <- alloc (Computed [] (EffectFn VNone callback) true VNone false) ;;
  Computed_value fx ;;
  ret fx.

(** [batch(callback)] *)
Definition batch (callback : M value) : M unit :=
  finalize <- gets synchronous ;;
  modify (set_synchronous false) ;;
  try_finally
    (callback ;;
     b <- gets batched ;;
     if finalize && negb (Nat.eqb (length b) 0) then
       modify (set_synchronous finalize) ;;
       l <- cleared_batched ;;
       for_each l (fun batch =>
         c <- get__compute batch ;;
         if c then Computed__update batch else ret tt)
     else ret tt)
    (set_synchronous finalize).

End Library.

(** [untracked(callback)] *)
Definition untracked {A} (callback : M A) : M A :=
  tracking <- gets tracked ;;
  modify (set_tracked false) ;;
  try_finally callback (set_tracked tracking).

(** ** Evaluation of callbacks *)

Definition arith (op : Z -> Z -> Z) (a b : value) : M value :=
  match a, b with
  | VInt x, VInt y => ret (VInt (op x y))
  | _, _ => raise TypeError
  end.

Fixpoint eval (fuel : nat) (p : prog) : M value :=
  match fuel with
  | O => fun _ => OutOfFuel
  | S fuel =>
      match p with
      | None_ => ret VNone
      | Int z => ret (VInt z)
      | Obj a x => ret (VObj a x)
      | Fun a body => ret (VFun a body)
      | Get n => get_value (eval fuel) n
      | Peek n => peek (eval fuel) n
      | Put n e => v <- eval fuel e ;; Signal_value_set (eval fuel) n v ;; ret VNone
      | Mul a b => x <- eval fuel a ;; y <- eval fuel b ;; arith Z.mul x y
      | Add a b => x <- eval fuel a ;; y <- eval fuel b ;; arith Z.add x y
      | Cond c t e =>
          v <- eval fuel c ;; if truthy v then eval fuel t else eval fuel e
      | Seq a b => eval fuel a ;; eval fuel b
      | Print k => emit (Printed k) ;; ret VNone
      | Raise => raise Exception
      | Batch body =>
          batch (eval fuel) (eval fuel body) ;; ret VNone
      | Untracked body => untracked (eval fuel body)
      | Dispose fx => cleanup (eval fuel) fx ;; ret VNone
      end
  end.


(** ** Observations on states *)

(** Number of times the producer of [n] has been invoked. *)
Fixpoint runs_of (n : ref) (t : list event) : nat :=
  match t with
  | [] => O
  | Ran m :: rest => if Nat.eqb m n then S (runs_of n rest) else runs_of n rest
  | Printed _ :: rest => runs_of n rest
  end.

(** The list part of the object [n] ([[]] for no object). *)
Definition items_in (h : list object) (n : ref) : list ref :=
  match h !! n with
  | Some o => items o
  | None => []
  end.

Definition items_at (n : ref) (st : state) : list ref := items_in (heap st) n.

(** [n._compute] as a boolean ([false] for anything but a computed). *)
Definition dirty (n : ref) (st : state) : bool :=
  match heap st !! n with
  | Some (Computed _ _ c _ _) => c
  | _ => false
  end.

Definition mem (x : ref) (l : list ref) : bool := existsb (Nat.eqb x) l.

(** What [_update] does to an object in synchronous mode when it is a
    value-exposing computed: the flag is set and nothing else happens. *)
Definition invalidated (o : object) : object :=
  match o with
  | Computed l f _ r s => Computed l f true r s
  | Signal l v => Signal l v
  end.

Definition invalidate (h : list object) (n : ref) : list object :=
  match h !! n with
  | Some o => <[n := invalidated o]> h
  | None => h
  end.

Definition exposing (h : list object) (n : ref) : bool :=
  match h !! n with
  | Some (Computed _ _ _ _ true) => true
  | _ => false
  end.


Definition snapshot : M state := gets (fun st => st).

(** ** Module-level scripts

    Top-level code of a client module: it creates objects, reads and writes
    them through the library, and records the states in between.  Each script
    is run from [initial] with the evaluator at some fuel. *)

Definition state_of {A} (r : result A) : state :=
  match r with
  | Ok _ st => st
  | Exn _ st => st
  | _ => initial
  end.

(** s = signal(o) for an object o at address 1 holding 5; effect(lambda: s.value) *)
Definition script_effect_on_object (run : prog -> M value) : M (ref * ref) :=
  s <- signal (VObj 1 5) ;;
  fx <- effect run (Get s) ;;
  ret (s, fx).

(** The state in which [_run] calls the producer of a dirty [self]: [self] is
    the node being computed, its flag is cleared, its list is emptied. *)
Definition entering (self : ref) (st : state) : state :=
  match heap st !! self with
  | Some (Computed _ f _ r s) =>
      set_trace (trace st ++ [Ran self])
        (set_heap (<[self := Computed [] f false r s]> (heap st))
           (set_computing (Some self) st))
  | _ => st
  end.


(** s = signal(1); c = computed(lambda: (s.value, raise)) *)
Definition script_raising : M (ref * ref) :=
  s <- signal (VInt 1) ;;
  c <- computed (Seq (Get s) Raise) ;;
  ret (s, c).

(** s = signal(1); effect(lambda: untracked(lambda: s.value)); s.value = 2 *)
Definition script_untracked (run : prog -> M value) : M (state * state) :=
  s <- signal (VInt 1) ;;
  fx <- effect run (Untracked (Get s)) ;;
  st1 <- snapshot ;;
  Signal_value_set run s (VInt 2) ;;
  st2 <- snapshot ;;
  ret (st1, st2).

(** ** An effect that nothing refers to

    [avoids fx p]: the callback body [p] does not read, peek or assign the
    object [fx].  An effect object is local to [effect(callback)] and only its
    disposer is handed out, so every body a client can write avoids it. *)
Fixpoint avoids (fx : ref) (p : prog) : bool :=
  match p with
  | None_ | Int _ | Obj _ _ | Print _ | Raise | Dispose _ => true
  | Fun _ body => avoids fx body
  | Get n | Peek n => negb (Nat.eqb n fx)
  | Put n e => negb (Nat.eqb n fx) && avoids fx e
  | Mul a b | Add a b | Seq a b => avoids fx a && avoids fx b
  | Cond c t e => avoids fx c && avoids fx t && avoids fx e
  | Batch body | Untracked body => avoids fx body
  end.

Definition value_avoids (fx : ref) (v : value) : bool :=
  match v with
  | VFun _ body => avoids fx body
  | _ => true
  end.

Definition closure_avoids (fx : ref) (f : closure) : bool :=
  match f with
  | Lambda body => avoids fx body
  | EffectFn v callback => value_avoids fx v && avoids fx callback
  end.

(** No callback or value held by the object touches [fx]. *)
Definition callbacks_avoid (fx : ref) (o : object) : bool :=
  match o with
  | Signal _ v => value_avoids fx v
  | Computed _ f _ r _ => closure_avoids fx f && value_avoids fx r
  end.

(** The object does not list [fx] and holds no callback that touches it. *)
Definition object_avoids (fx : ref) (o : object) : bool :=
  negb (mem fx (items o)) && callbacks_avoid fx o.

(** The effect object itself once disposed of: its list is empty and the
    cleanup it holds avoids it. *)
Definition disposed (fx : ref) (o : object) : bool :=
  match o with
  | Computed [] (EffectFn v _) _ _ _ => value_avoids fx v
  | _ => false
  end.

(** [fx] is detached: it is listed by no object and not by [batched], it is
    not the node being computed, and no stored callback touches it. *)
Record Detached (fx : ref) (ofx : object) (k : nat) (st : state) : Prop := {
  det_self : heap st !! fx = Some ofx;
  det_others : forall n o, heap st !! n = Some o -> n <> fx -> object_avoids fx o = true;
  det_batched : mem fx (batched st) = false;
  det_computing : computing st <> Some fx;
  det_runs : runs_of fx (trace st) = k
}.

(** The same as a check on a concrete state. *)
Fixpoint others_avoid (fx : ref) (n : nat) (h : list object) : bool :=
  match h with
  | [] => true
  | o :: rest => (Nat.eqb n fx || object_avoids fx o) && others_avoid fx (S n) rest
  end.

Definition is_computing (fx : ref) (st : state) : bool :=
  match computing st with
  | Some c => Nat.eqb c fx
  | None => false
  end.

Definition detached (fx : ref) (st : state) : bool :=
  match heap st !! fx with
  | Some o => disposed fx o
  | None => false
  end
  && others_avoid fx 0 (heap st)
  && negb (mem fx (batched st))
  && negb (is_computing fx st).

(** The state an effect is in when its disposer may be called: every object
    that lists [fx] lists it once and is in the list [l] of [fx] itself (no
    edge left over from an earlier run), [fx] is not pending in [batched] and
    is not the node being computed. *)
Fixpoint occurrences (x : ref) (l : list ref) : nat :=
  match l with
  | [] => 0
  | y :: rest => (if Nat.eqb x y then 1 else 0) + occurrences x rest
  end.

Fixpoint edges_recorded (fx : ref) (l : list ref) (n : nat) (h : list object) : bool :=
  match h with
  | [] => true
  | o :: rest =>
      (Nat.eqb n fx ||
       callbacks_avoid fx o && Nat.leb (occurrences fx (items o)) 1 &&
       (negb (mem fx (items o)) || mem n l))
      && edges_recorded fx l (S n) rest
  end.

Definition subscribed (fx : ref) (st : state) : bool :=
  match heap st !! fx with
  | Some (Computed l (EffectFn v _) _ _ _) =>
      value_avoids fx v && negb (mem fx l) &&
      forallb (fun s => Nat.ltb s (length (heap st))) l &&
      edges_recorded fx l 0 (heap st)
  | _ => false
  end
  && negb (mem fx (batched st))
  && negb (is_computing fx st).

(** The heap after [for signal in l: signal.discard(fx)]. *)
Definition sever (fx : ref) (h : list object) (signal : ref) : list object :=
  match h !! signal with
  | Some o => <[signal := with_items (Set_discard (items o) fx) o]> h
  | None => h
  end.

(** The state after the two loops of the disposer: the list of [fx] drained
    and [fx] discarded from every object that list held. *)
Definition severed (fx : ref) (st : state) : state :=
  match heap st !! fx with
  | Some o => set_heap (foldl (sever fx) (<[fx := with_items [] o]> (heap st)) (items o)) st
  | None => st
  end.

(** Every object that still lists [fx] lists it once and is among [rest]. *)
Definition edges_in (fx : ref) (rest : list ref) (h : list object) : Prop :=
  forall n o, h !! n = Some o -> n <> fx ->
    callbacks_avoid fx o = true /\ occurrences fx (items o) <= 1 /\
    (mem fx (items o) = true -> n ∈ rest).

(** A monadic computation keeps the invariant [I], on return (with [Q] of
    the result) and on exception. *)
Definition preserves {A} (I : state -> Prop) (Q : A -> Prop) (m : M A) : Prop :=
  forall st, I st ->
    match m st with
    | Ok a st' => I st' /\ Q a
    | Exn _ st' => I st'
    | Dangling => True
    | OutOfFuel => True
    end.

(** What holds of the state a call leaves, whether it returns or raises. *)
Definition after {A} (r : result A) (P : state -> Prop) : Prop :=
  match r with
  | Ok _ st => P st
  | Exn _ st => P st
  | Dangling => True
  | OutOfFuel => True
  end.

(** s = signal(1); dispose = effect(lambda: (s.value, print(7))[0] and cleanup);
    dispose(); s.value = 3.  The callback returns a cleanup that prints 9. *)
Definition script_dispose (run : prog -> M value) : M (state * state * state) :=
  s <- signal (VInt 1) ;;
  fx <- effect run (Seq (Get s) (Seq (Print 7) (Fun 0 (Print 9)))) ;;
  st0 <- snapshot ;;
  cleanup run fx ;;
  st1 <- snapshot ;;
  Signal_value_set run s (VInt 3) ;;
  st2 <- snapshot ;;
  ret (st0, st1, st2).




(** s = signal(1); dispose = effect(lambda: ...) as in [script_dispose],
    stopped before the disposer is called. *)
Definition script_effect_with_cleanup (run : prog -> M value) : M (ref * ref) :=
  s <- signal (VInt 1) ;;
  fx <- effect run (Seq (Get s) (Seq (Print 7) (Fun 0 (Print 9)))) ;;
  ret (s, fx).

(** No object of the state refers to the reference the next allocation
    returns. *)
Definition fresh (st : state) : bool :=
  let fx := length (heap st) in
  others_avoid fx 0 (heap st) && negb (mem fx (batched st)) && negb (is_computing fx st).

(** What the flush of [batch] does with one pending node. *)
Definition visit (run : prog -> M value) (batch : ref) : M unit :=
  c <- get__compute batch ;;
  if c then Computed__update run batch else ret tt.



(** Two effects made pending in the order e2, e1:
    s1 = signal(1); s2 = signal(1);
    e1 = effect(lambda: (s1.value, print(1))); e2 = effect(lambda: (s2.value, print(2)));
    batch(lambda: (s2.value = 5, s1.value = 5)) *)
Definition script_two_effects (run : prog -> M value) : M unit :=
  s1 <- signal (VInt 1) ;;
  s2 <- signal (VInt 1) ;;
  e1 <- effect run (Seq (Get s1) (Print 1)) ;;
  e2 <- effect run (Seq (Get s2) (Print 2)) ;;
  ret tt.

Definition flush_order_body : prog := Seq (Put 1 (Int 5)) (Put 0 (Int 5)).

(** A value-exposing computed made pending:
    s = signal(1); c = computed(lambda: s.value * 2); c.value;
    batch(lambda: s.value = 2); c.value *)
Definition script_flush_lazy (run : prog -> M value) : M (state * state * state) :=
  s <- signal (VInt 1) ;;
  c <- computed (Mul (Get s) (Int 2)) ;;
  get_value run c ;;
  st0 <- snapshot ;;
  batch run (run (Put s (Int 2))) ;;
  st1 <- snapshot ;;
  get_value run c ;;
  st2 <- snapshot ;;
  ret (st0, st1, st2).



(** ** Flattening *)

(** [n.add(x)] on the heap. *)
Definition bump (h : list object) (n x : ref) : list object :=
  match h !! n with
  | Some o => <[n := with_items (Set_add (items o) x) o]> h
  | None => h
  end.

(** [computing.add(signal); signal.add(computing)] on the heap. *)
Definition link (computing : ref) (h : list object) (signal : ref) : list object :=
  bump (bump h computing signal) signal computing.

(** S = signal(1); A = computed(lambda: S.value); B = computed(lambda: A.value + 1) *)
Definition script_chain : M unit :=
  S <- signal (VInt 1) ;;
  A <- computed (Get S) ;;
  B <- computed (Add (Get A) (Int 1)) ;;
  ret tt.

(** Two readers of one computed:
    S = signal(1); A = computed(lambda: S.value);
    B = computed(lambda: A.value + 1); C = computed(lambda: A.value + 2);
    B.value; C.value; S.value = 5; B.value; C.value *)
Definition script_second_reader (run : prog -> M value)
  : M (value * value * state * state * value * value) :=
  S <- signal (VInt 1) ;;
  A <- computed (Get S) ;;
  B <- computed (Add (Get A) (Int 1)) ;;
  C <- computed (Add (Get A) (Int 2)) ;;
  b1 <- get_value run B ;;
  c1 <- get_value run C ;;
  st1 <- snapshot ;;
  Signal_value_set run S (VInt 5) ;;
  st2 <- snapshot ;;
  b2 <- get_value run B ;;
  c2 <- get_value run C ;;
  ret (b1, c1, st1, st2, b2, c2).

(** Two effects reading one computed:
    S = signal(1); A = computed(lambda: S.value);
    effect(lambda: (A.value, print(1))); effect(lambda: (A.value, print(2)));
    S.value = 5 *)
Definition script_second_effect (run : prog -> M value) : M (state * ref * ref) :=
  S <- signal (VInt 1) ;;
  A <- computed (Get S) ;;
  e1 <- effect run (Seq (Get A) (Print 1)) ;;
  e2 <- effect run (Seq (Get A) (Print 2)) ;;
  st1 <- snapshot ;;
  Signal_value_set run S (VInt 5) ;;
  ret (st1, e1, e2).

(** The state in which [effect(callback)] calls [callback] for the first
    time: the new object is in the heap with its flag cleared, and is the node
    being computed. *)
Definition born (callback : prog) (st : state) : state :=
  set_trace (trace st ++ [Ran (length (heap st))])
    (set_heap (heap st ++ [Computed [] (EffectFn VNone callback) false VNone false])
       (set_computing (Some (length (heap st))) st)).

(** An effect that raises when the signal is truthy, and a second effect
    after it: s = signal(0); effect(lambda: raise if s.value else None);
    effect(lambda: (s.value, print(2))) *)
Definition script_raising_dependent (run : prog -> M value) : M unit :=
  s <- signal (VInt 0) ;;
  e1 <- effect run (Cond (Get s) Raise None_) ;;
  e2 <- effect run (Seq (Get s) (Print 2)) ;;
  ret tt.

(** ** Signals list computeds, computeds list signals *)

Definition is_comp (o : object) : bool :=
  match o with
  | Signal _ _ => false
  | Computed _ _ _ _ _ => true
  end.

(** The class of every object of the heap, in order. *)
Definition classes (h : list object) : list bool := map is_comp h.

(** Every list of a plain signal holds computeds only, every list of a
    computed holds plain signals only, [batched] holds computeds only and the
    node being computed is a computed. *)
Definition bipartite (st : state) : bool :=
  let K := classes (heap st) in
  forallb (fun o => forallb (fun x => bool_decide (K !! x = Some (negb (is_comp o))))
                      (items o)) (heap st)
  && forallb (fun x => bool_decide (K !! x = Some true)) (batched st)
  && match computing st with
     | Some c => bool_decide (K !! c = Some true)
     | None => true
     end.

Record Bipartite (K : list bool) (st : state) : Prop := {
  bp_classes : classes (heap st) = K;
  bp_items : forall n o x, heap st !! n = Some o -> x ∈ items o ->
             K !! x = Some (negb (is_comp o));
  bp_batched : forall x, x ∈ batched st -> K !! x = Some true;
  bp_computing : forall c, computing st = Some c -> K !! c = Some true
}.

(** What the invariant says of the object at [n]: it has the class recorded
    for [n], and the objects it lists have the other class. *)
Definition listed_ok (K : list bool) (n : ref) (o : object) : Prop :=
  K !! n = Some (is_comp o) /\ forall x, x ∈ items o -> K !! x = Some (negb (is_comp o)).

(** ** Nothing is registered while [tracked] is off *)

(** [tracked] is off and no list holds anything it did not hold in the heap
    [h0]. *)
Record Tracking_off (h0 : list object) (st : state) : Prop := {
  ut_tracked : tracked st = false;
  ut_items : forall n x, x ∈ items_at n st -> x ∈ items_in h0 n
}.

(** The disposer meeting a signal that no longer lists the effect:
    s = signal(1); c = computed(lambda: s.value * 2); c.value;
    dispose = effect(lambda: s.value);
    batch(lambda: (s.value = 2, c.value, dispose())); s.value = 3; c.value *)
Definition script_dispose_drops_other (run : prog -> M value)
  : M (state * state * state * value) :=
  s <- signal (VInt 1) ;;
  c <- computed (Mul (Get s) (Int 2)) ;;
  get_value run c ;;
  fx <- effect run (Get s) ;;
  st0 <- snapshot ;;
  batch run (run (Seq (Put s (Int 2)) (Seq (Get c) (Dispose fx)))) ;;
  st1 <- snapshot ;;
  Signal_value_set run s (VInt 3) ;;
  st2 <- snapshot ;;
  r <- get_value run c ;;
  ret (st0, st1, st2, r).

(** ** The lists are sets *)

(** No list of an object, nor [batched], holds an item twice. *)
Record No_repeats (st : state) : Prop := {
  nr_items : forall n, NoDup (items_at n st);
  nr_batched : NoDup (batched st)
}.

(** ** The mode globals *)

(** [synchronous], [tracked] and [computing]. *)
Definition modes (st : state) : bool * bool * option ref :=
  (synchronous st, tracked st, computing st).

(** A call leaves the three mode globals as it found them, whether it
    returns or raises. *)
Definition restores {A} (m : M A) : Prop :=
  forall st, after (m st) (fun st' => modes st' = modes st).

(** ** Fuel *)

(** [m'] agrees with [m] wherever [m] does not run out of fuel. *)
Definition refines {A} (m m' : M A) : Prop :=
  forall st, m st <> OutOfFuel -> m' st = m st.

(** * Properties *)

(** ** [Set]: add and discard *)

Lemma Set_add_elem (l : list ref) (x : ref) : x ∈ Set_add l x.
Proof.
  induction l as [|y l IH]; cbn.
  - apply list_elem_of_here.
  - destruct (Nat.eqb_spec y x) as [->|Hne].
    + apply list_elem_of_here.
    + apply list_elem_of_further, IH.
Qed.

Lemma Set_add_present (l : list ref) (x : ref) : x ∈ l -> Set_add l x = l.
Proof.
  induction l as [|y l IH]; intros Hin.
  - inversion Hin.
  - cbn. destruct (Nat.eqb_spec y x) as [->|Hne]; [reflexivity|].
    f_equal. apply IH. inversion Hin; subst; [congruence | assumption].
Qed.

Lemma Set_add_absent (l : list ref) (x : ref) : x ∉ l -> Set_add l x = l ++ [x].
Proof.
  induction l as [|y l IH]; intros Hin; [reflexivity|].
  cbn. destruct (Nat.eqb_spec y x) as [->|Hne].
  - exfalso. apply Hin, list_elem_of_here.
  - f_equal. apply IH. intros H. apply Hin, list_elem_of_further, H.
Qed.

Lemma Set_add_elem_inv (l : list ref) (x y : ref) :
  y ∈ Set_add l x -> y = x \/ y ∈ l.
Proof.
  destruct (decide (x ∈ l)) as [Hin|Hnin].
  - rewrite (Set_add_present _ _ Hin). auto.
  - rewrite (Set_add_absent _ _ Hnin), elem_of_app, list_elem_of_singleton. tauto.
Qed.

Lemma Set_add_mono (l : list ref) (x y : ref) : y ∈ l -> y ∈ Set_add l x.
Proof.
  destruct (decide (x ∈ l)) as [Hin|Hnin].
  - rewrite (Set_add_present _ _ Hin). auto.
  - rewrite (Set_add_absent _ _ Hnin), elem_of_app. auto.
Qed.

Lemma Set_add_idem (l : list ref) (x : ref) : Set_add (Set_add l x) x = Set_add l x.
Proof. apply Set_add_present, Set_add_elem. Qed.

Lemma Set_add_NoDup (l : list ref) (x : ref) : NoDup l -> NoDup (Set_add l x).
Proof.
  intros Hnd. destruct (decide (x ∈ l)) as [Hin|Hnin].
  - rewrite (Set_add_present _ _ Hin). exact Hnd.
  - rewrite (Set_add_absent _ _ Hnin). apply NoDup_app. repeat split.
    + exact Hnd.
    + intros y Hy Hy'. apply list_elem_of_singleton in Hy'. congruence.
    + apply NoDup_singleton.
Qed.

(** The loop of [discard] stops at the index of the first identical item. *)
Lemma discard_loop_present (l1 l2 : list ref) (x : ref) (i : Z) :
  x ∉ l1 -> discard_loop (l1 ++ x :: l2) x i = (i + 1 + Z.of_nat (length l1))%Z.
Proof.
  revert i. induction l1 as [|y l1 IH]; intros i Hnin; cbn [app discard_loop length].
  - rewrite Nat.eqb_refl. lia.
  - destruct (Nat.eqb_spec y x) as [->|Hne].
    + exfalso. apply Hnin, list_elem_of_here.
    + rewrite IH; [lia|]. intros H. apply Hnin, list_elem_of_further, H.
Qed.

(** When no item is identical the loop runs to the end and leaves [i] at the
    index of the last item. *)
Lemma discard_loop_absent (l : list ref) (x : ref) (i : Z) :
  x ∉ l -> discard_loop l x i = (i + Z.of_nat (length l))%Z.
Proof.
  revert i. induction l as [|y l IH]; intros i Hnin; cbn [discard_loop length].
  - lia.
  - destruct (Nat.eqb_spec y x) as [->|Hne].
    + exfalso. apply Hnin, list_elem_of_here.
    + rewrite IH; [lia|]. intros H. apply Hnin, list_elem_of_further, H.
Qed.

Lemma pop_app (l1 l2 : list ref) (x : ref) : pop (l1 ++ x :: l2) (length l1) = l1 ++ l2.
Proof. induction l1 as [|y l1 IH]; cbn; [reflexivity | now rewrite IH]. Qed.

Lemma pop_last (l : list ref) : l <> [] -> pop l (length l - 1) = removelast l.
Proof.
  induction l as [|y l IH]; intros Hne; [congruence|].
  destruct l as [|z l]; [reflexivity|].
  replace (length (y :: z :: l) - 1) with (S (length (z :: l) - 1))
    by (cbn [length]; lia).
  change (removelast (y :: z :: l)) with (y :: removelast (z :: l)).
  cbn [pop]. f_equal. apply IH. discriminate.
Qed.

Lemma pop_sublist (l : list ref) (i : nat) (y : ref) : y ∈ pop l i -> y ∈ l.
Proof.
  revert i. induction l as [|z l IH]; intros i Hy; [destruct i; exact Hy|].
  destruct i as [|i]; cbn in Hy.
  - apply list_elem_of_further, Hy.
  - inversion Hy; subst; [apply list_elem_of_here | apply list_elem_of_further, (IH i)]; assumption.
Qed.

(** [discard] of a present item removes its first occurrence. *)
Lemma Set_discard_present (l1 l2 : list ref) (x : ref) :
  x ∉ l1 -> Set_discard (l1 ++ x :: l2) x = l1 ++ l2.
Proof.
  intros Hnin. unfold Set_discard. rewrite discard_loop_present by assumption.
  destruct (Z.eqb_spec (-1 + 1 + Z.of_nat (length l1)) (-1)) as [E|_]; [lia|].
  replace (Z.to_nat (-1 + 1 + Z.of_nat (length l1))) with (length l1) by lia.
  apply pop_app.
Qed.

Lemma Set_discard_sublist (l : list ref) (x y : ref) : y ∈ Set_discard l x -> y ∈ l.
Proof.
  unfold Set_discard. destruct (Z.eqb _ _); [auto | apply pop_sublist].
Qed.

(** No item of the result is identical to [x] when [x] occurred at most once. *)
Lemma Set_discard_gone (l : list ref) (x : ref) : NoDup l -> x ∉ Set_discard l x.
Proof.
  intros Hnd. destruct (decide (x ∈ l)) as [Hin|Hnin].
  - apply list_elem_of_split_l in Hin as (l1 & l2 & -> & Hl1).
    rewrite Set_discard_present by assumption.
    apply NoDup_app in Hnd as (_ & Hdisj & Hnd2). apply NoDup_cons in Hnd2 as [Hx2 _].
    rewrite elem_of_app. tauto.
  - intros H. apply Hnin, (Set_discard_sublist _ _ _ H).
Qed.

(** C2: on a non-empty list holding no item identical to [value], the loop of
    [Set.discard] ends with [i] at the last index, the test [i != -1] passes,
    and [self.pop(i)] removes the last item; the claim (and the docstring,
    "Remove a value from the set if present") says the set is left unchanged. *)
Theorem Set_discard_absent (l : list ref) (x : ref) :
  x ∉ l -> Set_discard l x = removelast l.
Proof.
  intros Hnin. unfold Set_discard. rewrite discard_loop_absent by assumption.
  destruct l as [|y l]; [reflexivity|].
  destruct (Z.eqb_spec (-1 + Z.of_nat (length (y :: l))) (-1)) as [E|_].
  - cbn [length] in E. lia.
  - replace (Z.to_nat (-1 + Z.of_nat (length (y :: l)))) with (length (y :: l) - 1) by (cbn [length]; lia).
    apply pop_last. discriminate.
Qed.

Lemma Set_discard_absent_witness :
  (4 ∉ [1; 2; 3]) /\ Set_discard [1; 2; 3] 4 = [1; 2].
Proof.
  assert (H : 4 ∉ [1; 2; 3]) by (apply (bool_decide_unpack _); vm_compute; exact I).
  split; [exact H | exact (Set_discard_absent [1; 2; 3] 4 H)].
Defined.

(** ** Unfolding the monad at a known heap cell *)

Lemma load_eq (n : ref) (o : object) (st : state) :
  heap st !! n = Some o -> load n st = Ok o st.
Proof. unfold load. now intros ->. Qed.

Lemma set_heap_id (n : ref) (o : object) (st : state) :
  heap st !! n = Some o -> set_heap (<[n := o]> (heap st)) st = st.
Proof.
  intros H. destruct st as [h b s t c tr]. unfold set_heap.
  cbn [heap batched synchronous tracked computing trace] in *.
  f_equal. apply list_insert_id, H.
Qed.

Lemma lookup_insert_cell (h : list object) (n : ref) (o o' : object) :
  h !! n = Some o -> <[n := o']> h !! n = Some o'.
Proof. intros H. apply list_lookup_insert_eq. eapply lookup_lt_Some, H. Qed.

Lemma exposing_lookup (h : list object) (n : ref) :
  exposing h n = true ->
  exists l f c r, h !! n = Some (Computed l f c r true).
Proof.
  unfold exposing. destruct (h !! n) as [[|l f c r []]|]; try discriminate.
  intros _. now exists l, f, c, r.
Qed.

Lemma exposing_invalidate (h : list object) (n m : ref) :
  exposing (invalidate h n) m = exposing h m.
Proof.
  unfold invalidate. destruct (h !! n) as [o|] eqn:E; [|reflexivity].
  unfold exposing. destruct (decide (n = m)) as [->|Hne].
  - rewrite list_lookup_insert_eq by (eapply lookup_lt_Some; eassumption).
    rewrite E. now destruct o.
  - now rewrite list_lookup_insert_ne.
Qed.

(** [_update] of a value-exposing computed outside a batch only sets the
    flag: no callback is called, whatever evaluator is plugged in. *)
Lemma Computed__update_lazy run (self : ref) (st : state) :
  synchronous st = true -> exposing (heap st) self = true ->
  Computed__update run self st = Ok tt (set_heap (invalidate (heap st) self) st).
Proof.
  intros Hs He. destruct (exposing_lookup _ _ He) as (l & f & c & r & Ho).
  unfold Computed__update, set__compute, bind. rewrite (load_eq _ _ _ Ho). cbn.
  rewrite Hs. unfold get__subscribe, bind, load. cbn.
  rewrite (lookup_insert_cell _ _ _ _ Ho). unfold invalidate. now rewrite Ho.
Qed.

Lemma forallb_pointwise {A} (f g : A -> bool) (l : list A) :
  (forall x, f x = g x) -> forallb f l = forallb g l.
Proof. intros E. induction l as [|x l IH]; cbn; [reflexivity | now rewrite E, IH]. Qed.

Lemma for_each_update_lazy run (l : list ref) (st : state) :
  synchronous st = true -> forallb (exposing (heap st)) l = true ->
  for_each l (Computed__update run) st
  = Ok tt (set_heap (foldl invalidate (heap st) l) st).
Proof.
  revert st. induction l as [|n l IH]; intros st Hs Hl; cbn in *.
  - destruct st; reflexivity.
  - apply andb_true_iff in Hl as [Hn Hl].
    unfold bind. rewrite Computed__update_lazy by assumption.
    rewrite IH; cbn; try assumption.
    + reflexivity.
    + rewrite <- Hl. apply forallb_pointwise. intros m. apply exposing_invalidate.
Qed.

(** ** Writes compare by identity *)

Lemma exposing_insert_signal (h : list object) (n m : ref) (l l' : list ref) (v v' : value) :
  h !! n = Some (Signal l v) ->
  exposing (<[n := Signal l' v']> h) m = exposing h m.
Proof.
  intros H. unfold exposing. destruct (decide (n = m)) as [->|Hne].
  - now rewrite (lookup_insert_cell _ _ _ _ H), H.
  - now rewrite list_lookup_insert_ne.
Qed.


Lemma Signal_value_set_changed run (self : ref) (l : list ref) (cur v : value) (st : state) :
  heap st !! self = Some (Signal l cur) -> is_ cur v = false ->
  Signal_value_set run self v st
  = for_each l (Computed__update run) (set_heap (<[self := Signal [] v]> (heap st)) st).
Proof.
  intros Ho Hne. unfold Signal_value_set, bind. rewrite (load_eq _ _ _ Ho), Hne.
  unfold cleared, bind, load. cbn.
  rewrite (lookup_insert_cell _ _ _ _ Ho). cbn.
  now rewrite list_insert_insert_eq.
Qed.




(** ** [Computed._run] *)

Lemma Computed__run_clean run (self : ref) l f r s (st : state) :
  heap st !! self = Some (Computed l f false r s) ->
  Computed__run run self st = Ok tt st.
Proof.
  intros Ho. unfold Computed__run, get__compute, bind. now rewrite (load_eq _ _ _ Ho).
Qed.

Lemma Computed__run_dirty run (self : ref) l f r s (st : state) :
  heap st !! self = Some (Computed l f true r s) ->
  Computed__run run self st
  = try_finally (v <- call__value run self ;; set__computed self v)
      (set_computing (computing st)) (entering self st).
Proof.
  intros Ho. unfold Computed__run, get__compute, bind. rewrite (load_eq _ _ _ Ho).
  cbn. unfold set__compute, clear, bind, load. cbn. rewrite Ho. cbn.
  rewrite (lookup_insert_cell _ _ _ _ Ho). cbn.
  unfold try_finally, entering. rewrite Ho. cbn.
  now rewrite list_insert_insert_eq.
Qed.

Lemma Computed__run_raises run (self : ref) l f r s (st st' : state) (e : exn) :
  heap st !! self = Some (Computed l f true r s) ->
  call__value run self (entering self st) = Exn e st' ->
  Computed__run run self st = Exn e (set_computing (computing st) st').
Proof.
  intros Ho Hcall. rewrite (Computed__run_dirty _ _ _ _ _ _ _ Ho).
  unfold try_finally, bind. now rewrite Hcall.
Qed.

Lemma Computed__run_returns run (self : ref) l f r s (st st' : state) (v : value) l' f' c' r' s' :
  heap st !! self = Some (Computed l f true r s) ->
  call__value run self (entering self st) = Ok v st' ->
  heap st' !! self = Some (Computed l' f' c' r' s') ->
  Computed__run run self st
  = Ok tt (set_computing (computing st)
             (set_heap (<[self := Computed l' f' c' v s']> (heap st')) st')).
Proof.
  intros Ho Hcall Ho'. rewrite (Computed__run_dirty _ _ _ _ _ _ _ Ho).
  unfold try_finally, bind. rewrite Hcall.
  unfold set__computed, bind. now rewrite (load_eq _ _ _ Ho').
Qed.

(** Reading a clean computed where nothing is to be flattened returns the
    cache and leaves the state alone. *)
Lemma Computed_value_clean run (self : ref) l f r s (st : state) :
  heap st !! self = Some (Computed l f false r s) ->
  s && tracked st && bool_decide (computing st <> None) = false ->
  Computed_value run self st = Ok r st.
Proof.
  intros Ho Hflat. unfold Computed_value, bind.
  rewrite (Computed__run_clean _ _ _ _ _ _ _ Ho).
  unfold get__subscribe, get__computed, bind. rewrite (load_eq _ _ _ Ho). cbn.
  rewrite Hflat. cbn. now rewrite (load_eq _ _ _ Ho).
Qed.

Lemma Computed_peek_clean run (self : ref) l f r s (st : state) :
  heap st !! self = Some (Computed l f false r s) ->
  Computed_peek run self st = Ok r st.
Proof.
  intros Ho. unfold Computed_peek, bind.
  rewrite (Computed__run_clean _ _ _ _ _ _ _ Ho).
  unfold get__computed, bind. now rewrite (load_eq _ _ _ Ho).
Qed.

(** Whatever evaluator is plugged in, a read of a clean computed behaves the
    same: the producer is not called. *)
Lemma Computed_value_clean_any run run' (self : ref) l f r s (st : state) :
  heap st !! self = Some (Computed l f false r s) ->
  Computed_value run self st = Computed_value run' self st.
Proof.
  intros Ho. unfold Computed_value, bind.
  now rewrite !(Computed__run_clean _ _ _ _ _ _ _ Ho).
Qed.

(** Reading a dirty computed at a place where nothing is to be flattened:
    the value the producer returns is cached and returned. *)
Lemma Computed_value_dirty run (self : ref) l f r s (st st' : state) (v : value) l' f' c' r' :
  heap st !! self = Some (Computed l f true r s) ->
  call__value run self (entering self st) = Ok v st' ->
  heap st' !! self = Some (Computed l' f' c' r' s) ->
  s && tracked st' && bool_decide (computing st <> None) = false ->
  Computed_value run self st
  = Ok v (set_computing (computing st)
            (set_heap (<[self := Computed l' f' c' v s]> (heap st')) st')).
Proof.
  intros Ho Hcall Ho' Hflat. unfold Computed_value, bind.
  rewrite (Computed__run_returns _ _ _ _ _ _ _ _ _ _ _ _ _ _ Ho Hcall Ho').
  unfold get__subscribe, get__computed, bind, load. cbn.
  rewrite (lookup_insert_cell _ _ _ _ Ho'). cbn.
  rewrite Hflat. cbn. now rewrite (lookup_insert_cell _ _ _ _ Ho').
Qed.

Lemma call__value_lambda run (self : ref) l body c r s (st : state) :
  heap st !! self = Some (Computed l (Lambda body) c r s) ->
  call__value run self st = run body st.
Proof. intros Ho. unfold call__value, bind. now rewrite (load_eq _ _ _ Ho). Qed.

Lemma entering_lookup (self : ref) l f c r s (st : state) :
  heap st !! self = Some (Computed l f c r s) ->
  heap (entering self st) !! self = Some (Computed [] f false r s).
Proof.
  intros Ho. unfold entering. rewrite Ho. cbn. apply (lookup_insert_cell _ _ _ _ Ho).
Qed.

(** ** Invalidation of a list of value-exposing dependents *)

Lemma invalidated_idem (o : object) : invalidated (invalidated o) = invalidated o.
Proof. now destruct o. Qed.

Lemma invalidate_lookup (h : list object) (n m : ref) :
  invalidate h n !! m = if Nat.eqb n m then invalidated <$> h !! m else h !! m.
Proof.
  unfold invalidate. destruct (Nat.eqb_spec n m) as [->|Hne].
  - destruct (h !! m) as [o|] eqn:E; cbn.
    + apply (lookup_insert_cell _ _ _ _ E).
    + exact E.
  - destruct (h !! n); [now rewrite list_lookup_insert_ne | reflexivity].
Qed.

Lemma foldl_invalidate_lookup (l : list ref) (h : list object) (m : ref) :
  foldl invalidate h l !! m = if mem m l then invalidated <$> h !! m else h !! m.
Proof.
  revert h. induction l as [|n l IH]; intros h; [reflexivity|].
  cbn [foldl]. rewrite IH, invalidate_lookup. unfold mem. cbn [existsb].
  fold (mem m l). rewrite (Nat.eqb_sym m n).
  destruct (Nat.eqb n m), (mem m l), (h !! m) as [o|]; cbn; try reflexivity.
  now rewrite invalidated_idem.
Qed.

(** ** Invalidation inside a batch *)







(** ** More fuel changes no result *)

Lemma refines_refl {A} (m : M A) : refines m m.
Proof. intros st _. reflexivity. Qed.

Lemma refines_bind {A B} (m m' : M A) (k k' : A -> M B) :
  refines m m' -> (forall a, refines (k a) (k' a)) ->
  refines (x <- m ;; k x) (x <- m' ;; k' x).
Proof.
  intros Hm Hk st H. unfold bind in *.
  destruct (m st) as [a st1|e st1| |] eqn:E.
  - rewrite (Hm st) by (rewrite E; discriminate). rewrite E. now apply Hk.
  - rewrite (Hm st) by (rewrite E; discriminate). now rewrite E.
  - rewrite (Hm st) by (rewrite E; discriminate). now rewrite E.
  - contradiction.
Qed.

Lemma refines_try_finally {A} (m m' : M A) (fin : state -> state) :
  refines m m' -> refines (try_finally m fin) (try_finally m' fin).
Proof.
  intros Hm st H. unfold try_finally in *.
  destruct (m st) as [a st1|e st1| |] eqn:E; try contradiction;
    rewrite (Hm st) by (rewrite E; discriminate); now rewrite E.
Qed.

Lemma refines_for_each {A} (l : list A) (f f' : A -> M unit) :
  (forall x, refines (f x) (f' x)) -> refines (for_each l f) (for_each l f').
Proof.
  intros Hf. induction l as [|x l IH]; cbn [for_each]; [apply refines_refl|].
  apply refines_bind; [apply Hf | intros _; exact IH].
Qed.

Lemma refines_if {A} (b : bool) (m1 m1' m2 m2' : M A) :
  refines m1 m1' -> refines m2 m2' ->
  refines (if b then m1 else m2) (if b then m1' else m2').
Proof. now destruct b. Qed.

Ltac refines_step :=
  first
    [ apply refines_refl
    | solve [auto]
    | apply refines_bind; [|intros ?]
    | apply refines_try_finally
    | apply refines_for_each; intros ?
    | apply refines_if
    | match goal with
      | |- refines (match ?x with _ => _ end) _ => destruct x
      end ].

Section Refines.

Variables run run' : prog -> M value.
Hypothesis Hrun : forall p, refines (run p) (run' p).

Lemma refines_call (v : value) : refines (call run v) (call run' v).
Proof. destruct v; cbn [call]; [apply refines_refl ..|apply Hrun]. Qed.

Lemma refines_effect_effect (fx : ref) (cb : prog) :
  refines (effect_effect run fx cb) (effect_effect run' fx cb).
Proof.
  unfold effect_effect. pose proof refines_call. pose proof Hrun.
  repeat refines_step.
Qed.

Lemma refines_call__value (self : ref) :
  refines (call__value run self) (call__value run' self).
Proof.
  unfold call__value. pose proof refines_effect_effect. pose proof Hrun.
  repeat refines_step.
Qed.

Lemma refines_Computed__run (self : ref) :
  refines (Computed__run run self) (Computed__run run' self).
Proof.
  unfold Computed__run. pose proof refines_call__value. repeat refines_step.
Qed.

Lemma refines_Computed__update (self : ref) :
  refines (Computed__update run self) (Computed__update run' self).
Proof.
  unfold Computed__update. pose proof refines_Computed__run. repeat refines_step.
Qed.

Lemma refines_Computed_value (self : ref) :
  refines (Computed_value run self) (Computed_value run' self).
Proof.
  unfold Computed_value. pose proof refines_Computed__run. repeat refines_step.
Qed.

Lemma refines_Computed_peek (self : ref) :
  refines (Computed_peek run self) (Computed_peek run' self).
Proof.
  unfold Computed_peek. pose proof refines_Computed__run. repeat refines_step.
Qed.

Lemma refines_Signal_value_set (self : ref) (v : value) :
  refines (Signal_value_set run self v) (Signal_value_set run' self v).
Proof.
  unfold Signal_value_set. pose proof refines_Computed__update. repeat refines_step.
Qed.

Lemma refines_get_value (n : ref) : refines (get_value run n) (get_value run' n).
Proof.
  unfold get_value. pose proof refines_Computed_value. repeat refines_step.
Qed.

Lemma refines_peek (n : ref) : refines (peek run n) (peek run' n).
Proof.
  unfold peek. pose proof refines_Computed_peek. repeat refines_step.
Qed.

Lemma refines_cleanup (fx : ref) : refines (cleanup run fx) (cleanup run' fx).
Proof.
  unfold cleanup. pose proof refines_call. repeat refines_step.
Qed.

Lemma refines_effect (cb : prog) : refines (effect run cb) (effect run' cb).
Proof.
  unfold effect. pose proof refines_Computed_value. repeat refines_step.
Qed.

Lemma refines_batch (callback callback' : M value) :
  refines callback callback' -> refines (batch run callback) (batch run' callback').
Proof.
  intros Hcb. unfold batch. pose proof refines_Computed__update. repeat refines_step.
Qed.

End Refines.

Lemma refines_untracked {A} (callback callback' : M A) :
  refines callback callback' -> refines (untracked callback) (untracked callback').
Proof. intros Hcb. unfold untracked. repeat refines_step. Qed.

Lemma eval_fuel_succ (fuel : nat) : forall p, refines (eval fuel p) (eval (S fuel) p).
Proof.
  induction fuel as [|fuel IH]; intros p.
  - intros st H. now contradiction H.
  - pose proof (refines_get_value _ _ IH). pose proof (refines_peek _ _ IH).
    pose proof (refines_Signal_value_set _ _ IH). pose proof (refines_cleanup _ _ IH).
    pose proof (refines_batch _ _ IH). pose proof (@refines_untracked value).
    destruct p; cbn [eval]; repeat refines_step; auto.
Qed.

Lemma eval_fuel_le (fuel fuel' : nat) (p : prog) :
  fuel <= fuel' -> refines (eval fuel p) (eval fuel' p).
Proof.
  induction 1 as [|fuel' Hle IH]; [apply refines_refl|].
  intros st H. rewrite <- (IH st H). apply eval_fuel_succ. now rewrite (IH st H).
Qed.

(** A result obtained with some fuel is the result with any more fuel. *)
Lemma eval_enough_fuel (fuel fuel' : nat) (p : prog) (st : state) (r : result value) :
  eval fuel p st = r -> r <> OutOfFuel -> fuel <= fuel' -> eval fuel' p st = r.
Proof.
  intros E Hr Hle. rewrite <- E. apply eval_fuel_le; [exact Hle | now rewrite E].
Qed.

(** The same for the module-level scripts. *)
Lemma script_enough_fuel {A} (script : (prog -> M value) -> M A) :
  (forall run run', (forall p, refines (run p) (run' p)) ->
                    refines (script run) (script run')) ->
  forall fuel fuel' st r,
    script (eval fuel) st = r -> r <> OutOfFuel -> fuel <= fuel' ->
    script (eval fuel') st = r.
Proof.
  intros Hs fuel fuel' st r E Hr Hle. rewrite <- E.
  apply (Hs (eval fuel) (eval fuel')); [|now rewrite E].
  intros p. now apply eval_fuel_le.
Qed.

Ltac refines_script :=
  intros run run' Hrun;
  pose proof (refines_get_value _ _ Hrun);
  pose proof (refines_Signal_value_set _ _ Hrun);
  pose proof (refines_cleanup _ _ Hrun);
  pose proof (refines_effect _ _ Hrun);
  pose proof (refines_batch _ _ Hrun);
  repeat refines_step.


Lemma refines_script_second_reader run run' :
  (forall p, refines (run p) (run' p)) ->
  refines (script_second_reader run) (script_second_reader run').
Proof. revert run run'. unfold script_second_reader. refines_script. Qed.

Lemma refines_script_second_effect run run' :
  (forall p, refines (run p) (run' p)) ->
  refines (script_second_effect run) (script_second_effect run').
Proof. revert run run'. unfold script_second_effect. refines_script. Qed.



Lemma refines_script_dispose run run' :
  (forall p, refines (run p) (run' p)) -> refines (script_dispose run) (script_dispose run').
Proof. revert run run'. unfold script_dispose. refines_script. Qed.

Lemma refines_script_untracked run run' :
  (forall p, refines (run p) (run' p)) ->
  refines (script_untracked run) (script_untracked run').
Proof. revert run run'. unfold script_untracked. refines_script. Qed.




Lemma refines_script_flush_lazy run run' :
  (forall p, refines (run p) (run' p)) ->
  refines (script_flush_lazy run) (script_flush_lazy run').
Proof. revert run run'. unfold script_flush_lazy. refines_script. Qed.

(** ** Laziness of value-exposing computeds *)



(** ** A producer that raises *)

(** C10: when the producer of a dirty node raises, [_run] lets the exception
    through with [computing] put back and nothing else undone: the flag it
    cleared stays cleared.  So [value] and [peek] raise, and as long as no
    invalidation has set the flag again every later [peek] and [value] returns
    the old cache ([None] for a node that never completed) and calls no
    producer, whatever evaluator is plugged in. *)
Theorem Computed__run_producer_raises run (self : ref) l l' f f' r s
    (st st' : state) (e : exn) :
  heap st !! self = Some (Computed l f true r s) ->
  call__value run self (entering self st) = Exn e st' ->
  heap st' !! self = Some (Computed l' f' false r s) ->
  let st'' := set_computing (computing st) st' in
  Computed__run run self st = Exn e st'' /\
  Computed_value run self st = Exn e st'' /\
  Computed_peek run self st = Exn e st'' /\
  computing st'' = computing st /\
  dirty self st'' = false /\
  Computed_peek run self st'' = Ok r st'' /\
  (s && tracked st'' && bool_decide (computing st'' <> None) = false ->
   Computed_value run self st'' = Ok r st'') /\
  (forall run', Computed_peek run' self st'' = Ok r st'' /\
                Computed_value run' self st'' = Computed_value run self st'').
Proof.
  intros Ho Hcall Ho' st''.
  assert (Hrun : Computed__run run self st = Exn e st'')
    by (eapply Computed__run_raises; eassumption).
  assert (Ho'' : heap st'' !! self = Some (Computed l' f' false r s)) by exact Ho'.
  split; [exact Hrun|].
  split; [unfold Computed_value, bind; now rewrite Hrun|].
  split; [unfold Computed_peek, bind; now rewrite Hrun|].
  split; [reflexivity|].
  split; [unfold dirty; now rewrite Ho''|].
  split; [eapply Computed_peek_clean; exact Ho''|].
  split; [intros Hflat; eapply Computed_value_clean; eassumption|].
  intros run'. split.
  - eapply Computed_peek_clean; exact Ho''.
  - eapply Computed_value_clean_any; exact Ho''.
Qed.

Lemma Computed__run_producer_raises_witness :
  let st := state_of (script_raising initial) in
  exists st'',
    heap st !! 1 = Some (Computed [] (Lambda (Seq (Get 0) Raise)) true VNone true) /\
    Computed__run (eval 5) 1 st = Exn Exception st'' /\
    Computed_value (eval 5) 1 st = Exn Exception st'' /\
    Computed_peek (eval 5) 1 st = Exn Exception st'' /\
    computing st'' = computing st /\
    dirty 1 st'' = false /\
    Computed_peek (eval 5) 1 st'' = Ok VNone st'' /\
    (true && tracked st'' && bool_decide (computing st'' <> None) = false ->
     Computed_value (eval 5) 1 st'' = Ok VNone st'') /\
    (forall run', Computed_peek run' 1 st'' = Ok VNone st'' /\
                  Computed_value run' 1 st'' = Computed_value (eval 5) 1 st'').
Proof.
  intros st. eexists. split; [reflexivity|].
  eapply (Computed__run_producer_raises (eval 5) 1 [] [0]
            (Lambda (Seq (Get 0) Raise)) (Lambda (Seq (Get 0) Raise)) VNone true st).
  - reflexivity.
  - vm_compute. reflexivity.
  - reflexivity.
Defined.

(** ** [untracked] *)

Lemma set_tracked_restore (st : state) :
  set_tracked (tracked st) (set_tracked false st) = st.
Proof. now destruct st. Qed.

Lemma untracked_returns {A} (callback : M A) (st st' : state) (a : A) :
  callback (set_tracked false st) = Ok a st' ->
  untracked callback st = Ok a (set_tracked (tracked st) st').
Proof. intros H. unfold untracked, bind, try_finally. cbn. now rewrite H. Qed.

Lemma untracked_raises {A} (callback : M A) (st st' : state) (e : exn) :
  callback (set_tracked false st) = Exn e st' ->
  untracked callback st = Exn e (set_tracked (tracked st) st').
Proof. intros H. unfold untracked, bind, try_finally. cbn. now rewrite H. Qed.

Lemma Signal_value_untracked (self : ref) l v (st : state) :
  heap st !! self = Some (Signal l v) -> tracked st = false ->
  Signal_value self st = Ok v st.
Proof.
  intros Ho Ht. unfold Signal_value, bind. cbn. rewrite Ht. cbn.
  unfold get__value, bind. now rewrite (load_eq _ _ _ Ho).
Qed.

Lemma untracked_get_value run (self : ref) l v (st : state) :
  heap st !! self = Some (Signal l v) ->
  untracked (get_value run self) st = Ok v st.
Proof.
  intros Ho. erewrite untracked_returns.
  - now rewrite set_tracked_restore.
  - unfold get_value, bind.
    rewrite (load_eq self (Signal l v) (set_tracked false st) Ho).
    now apply Signal_value_untracked with (l := l).
Qed.

Lemma lookup_alloc (h : list object) (o : object) : (h ++ [o]) !! length h = Some o.
Proof. rewrite lookup_app_r by lia. now rewrite Nat.sub_diag. Qed.

Lemma insert_alloc (h : list object) (o o' : object) :
  <[length h := o']> (h ++ [o]) = h ++ [o'].
Proof. rewrite insert_app_r_alt by lia. now rewrite Nat.sub_diag. Qed.

(** An effect whose callback reads the signal [s] only inside [untracked]:
    its first run leaves every list of the heap as it was and its own list
    empty, so no signal lists the effect. *)
Lemma effect_untracked_read (fuel : nat) (s : ref) l v (st : state) :
  heap st !! s = Some (Signal l v) ->
  effect (eval (2 + fuel)) (Untracked (Get s)) st
  = Ok (length (heap st))
      (set_trace (trace st ++ [Ran (length (heap st))])
         (set_heap (heap st ++ [Computed [] (EffectFn v (Untracked (Get s))) false VNone false]) st)).
Proof.
  intros Ho.
  set (fx := length (heap st)).
  set (cb := Untracked (Get s)).
  set (st0 := set_heap (heap st ++ [Computed [] (EffectFn VNone cb) true VNone false]) st).
  assert (Hfx : heap st0 !! fx = Some (Computed [] (EffectFn VNone cb) true VNone false))
    by apply lookup_alloc.
  assert (Hen : entering fx st0
     = set_trace (trace st ++ [Ran fx])
         (set_heap (heap st ++ [Computed [] (EffectFn VNone cb) false VNone false])
            (set_computing (Some fx) st))).
  { unfold entering. rewrite Hfx. unfold st0. cbn. unfold fx. now rewrite insert_alloc. }
  assert (Hs : heap (entering fx st0) !! s = Some (Signal l v)).
  { rewrite Hen. cbn. rewrite lookup_app_l by (eapply lookup_lt_Some, Ho). exact Ho. }
  assert (Hcall : call__value (eval (2 + fuel)) fx (entering fx st0)
                  = Ok VNone
                      (set_heap (<[fx := Computed [] (EffectFn v cb) false VNone false]>
                                   (heap (entering fx st0))) (entering fx st0))).
  { unfold call__value, bind.
    rewrite (load_eq _ _ _ (entering_lookup _ _ _ _ _ _ _ Hfx)).
    unfold effect_effect, get_effect_value, bind.
    rewrite (load_eq _ _ _ (entering_lookup _ _ _ _ _ _ _ Hfx)). cbn [callable ret].
    change (eval (2 + fuel) cb) with (untracked (get_value (eval fuel) s)).
    rewrite (untracked_get_value _ _ _ _ _ Hs).
    unfold set_effect_value, bind.
    now rewrite (load_eq _ _ _ (entering_lookup _ _ _ _ _ _ _ Hfx)). }
  unfold effect, bind, alloc. fold fx. fold st0.
  erewrite Computed_value_dirty; [| exact Hfx | exact Hcall | | reflexivity].
  - cbn. rewrite Hen. cbn. unfold fx. rewrite !insert_alloc. now destruct st.
  - cbn. apply list_lookup_insert_eq. rewrite Hen. cbn. rewrite length_app. cbn. unfold fx. lia.
Qed.

(** ** Invariants through the monad *)

Section Preserves.

Variable I : state -> Prop.

Lemma preserves_ret {A} (Q : A -> Prop) (a : A) : Q a -> preserves I Q (ret a).
Proof. intros Ha st HI. cbn. auto. Qed.

Lemma preserves_raise {A} (Q : A -> Prop) (e : exn) : preserves I Q (raise e).
Proof. intros st HI. exact HI. Qed.

Lemma preserves_bind {A B} (Q : A -> Prop) (R : B -> Prop) (m : M A) (k : A -> M B) :
  preserves I Q m -> (forall a, Q a -> preserves I R (k a)) ->
  preserves I R (x <- m ;; k x).
Proof.
  intros Hm Hk st HI. unfold bind. specialize (Hm st HI).
  destruct (m st) as [a st'|e st'| |]; try exact Hm.
  destruct Hm as [HI' Ha]. exact (Hk a Ha st' HI').
Qed.

Lemma preserves_weaken {A} (Q Q' : A -> Prop) (m : M A) :
  preserves I Q m -> (forall a, Q a -> Q' a) -> preserves I Q' m.
Proof.
  intros Hm HQ st HI. specialize (Hm st HI).
  destruct (m st) as [a st'|e st'| |]; try exact Hm.
  destruct Hm. auto.
Qed.

Lemma preserves_gets {A} (Q : A -> Prop) (f : state -> A) :
  (forall st, I st -> Q (f st)) -> preserves I Q (gets f).
Proof. intros Hf st HI. cbn. auto. Qed.

Lemma preserves_modify (f : state -> state) :
  (forall st, I st -> I (f st)) -> preserves I (fun _ => True) (modify f).
Proof. intros Hf st HI. cbn. auto. Qed.

Lemma preserves_try_finally {A} (Q : A -> Prop) (body : M A) (fin : state -> state) :
  preserves I Q body -> (forall st, I st -> I (fin st)) ->
  preserves I Q (try_finally body fin).
Proof.
  intros Hb Hf st HI. unfold try_finally. specialize (Hb st HI).
  destruct (body st) as [a st'|e st'| |]; try exact Hb.
  - destruct Hb. auto.
  - auto.
Qed.

Lemma preserves_for_each {A} (l : list A) (body : A -> M unit) :
  (forall x, x ∈ l -> preserves I (fun _ => True) (body x)) ->
  preserves I (fun _ => True) (for_each l body).
Proof.
  induction l as [|x l IH]; intros Hb; cbn [for_each].
  - now apply preserves_ret.
  - eapply preserves_bind.
    + apply Hb, list_elem_of_here.
    + intros _ _. apply IH. intros y Hy. apply Hb, list_elem_of_further, Hy.
Qed.

Lemma preserves_if {A} (Q : A -> Prop) (b : bool) (m1 m2 : M A) :
  preserves I Q m1 -> preserves I Q m2 -> preserves I Q (if b then m1 else m2).
Proof. now destruct b. Qed.

End Preserves.

Lemma mem_false (x : ref) (l : list ref) : mem x l = false <-> x ∉ l.
Proof.
  unfold mem. induction l as [|y l IH]; cbn.
  - split; [intros _ H; inversion H | reflexivity].
  - rewrite orb_false_iff, IH, not_elem_of_cons, Nat.eqb_neq. tauto.
Qed.

Lemma mem_true (x : ref) (l : list ref) : mem x l = true <-> x ∈ l.
Proof.
  destruct (mem x l) eqn:E.
  - split; [intros _|reflexivity]. destruct (decide (x ∈ l)) as [H|H]; [exact H|].
    apply mem_false in H. congruence.
  - apply mem_false in E. split; [discriminate | contradiction].
Qed.

Lemma mem_Set_add (fx : ref) (l : list ref) (x : ref) :
  mem fx l = false -> x <> fx -> mem fx (Set_add l x) = false.
Proof.
  rewrite !mem_false. intros Hl Hx H. apply Set_add_elem_inv in H as [->|H]; auto.
Qed.

Lemma mem_Set_discard (fx : ref) (l : list ref) (x : ref) :
  mem fx l = false -> mem fx (Set_discard l x) = false.
Proof.
  rewrite !mem_false. intros Hl H. apply Hl, (Set_discard_sublist _ _ _ H).
Qed.

(** ** A detached effect stays detached and is never run *)

Lemma object_avoids_items (fx : ref) (o : object) :
  object_avoids fx o = true -> mem fx (items o) = false.
Proof. unfold object_avoids. intros H. apply andb_true_iff in H as [H _]. now apply negb_true_iff. Qed.

Lemma object_avoids_with_items (fx : ref) (o : object) (l : list ref) :
  object_avoids fx o = true -> mem fx l = false ->
  object_avoids fx (with_items l o) = true.
Proof.
  unfold object_avoids. intros H Hl. apply andb_true_iff in H as [_ H].
  destruct o as [l0 v0|l0 f0 c0 r0 s0]; cbn [with_items items callbacks_avoid] in *;
    now rewrite Hl.
Qed.

Lemma runs_of_app (n : ref) (t1 t2 : list event) :
  runs_of n (t1 ++ t2) = runs_of n t1 + runs_of n t2.
Proof.
  induction t1 as [|[m|k] t1 IH]; cbn; [reflexivity| |exact IH].
  destruct (Nat.eqb m n); cbn; now rewrite IH.
Qed.

Lemma disposed_items (fx : ref) (o : object) :
  disposed fx o = true -> items o = [] /\ with_items [] o = o.
Proof. destruct o as [l v|[|x l] [b|v cb] c r s]; try discriminate. now split. Qed.

Lemma disposed_effect_value (fx : ref) (o : object) (I : state -> Prop) :
  disposed fx o = true ->
  preserves I (fun v => value_avoids fx v = true)
    (match o with
     | Computed _ (EffectFn v _) _ _ _ => ret v
     | _ => raise AttributeError
     end).
Proof.
  destruct o as [l v|[|x l] [b|v cb] c r s]; try discriminate.
  intros Hv. now apply preserves_ret.
Qed.

Section Detached.

Variables (fx : ref) (ofx : object) (k : nat).
Hypothesis Hofx : disposed fx ofx = true.

Local Abbreviation I := (Detached fx ofx k).
Local Abbreviation any := (fun _ => True).

(** Changes of the state that keep [fx] detached. *)

Lemma detached_set_heap (st : state) (n : ref) (o : object) :
  I st -> n <> fx -> object_avoids fx o = true ->
  I (set_heap (<[n := o]> (heap st)) st).
Proof.
  intros [H1 H2 H3 H4 H5] Hn Ho. split; cbn; try assumption.
  - now rewrite list_lookup_insert_ne.
  - intros m o' Hm Hmfx. apply list_lookup_insert_Some in Hm as [(-> & <- & _)|(_ & Hm)].
    + exact Ho.
    + eapply H2; eassumption.
Qed.

Lemma detached_set_heap_self (st : state) :
  I st -> I (set_heap (<[fx := ofx]> (heap st)) st).
Proof.
  intros HI. rewrite set_heap_id; [exact HI | apply HI].
Qed.

Lemma detached_set_computing (st : state) (c : option ref) :
  I st -> c <> Some fx -> I (set_computing c st).
Proof. intros [H1 H2 H3 H4 H5] Hc. now split. Qed.

Lemma detached_set_batched (st : state) (b : list ref) :
  I st -> mem fx b = false -> I (set_batched b st).
Proof. intros [H1 H2 H3 H4 H5] Hb. now split. Qed.

Lemma detached_set_synchronous (st : state) (b : bool) : I st -> I (set_synchronous b st).
Proof. intros [H1 H2 H3 H4 H5]. now split. Qed.

Lemma detached_set_tracked (st : state) (b : bool) : I st -> I (set_tracked b st).
Proof. intros [H1 H2 H3 H4 H5]. now split. Qed.

Lemma detached_emit (st : state) (e : event) :
  I st -> e <> Ran fx -> I (set_trace (trace st ++ [e]) st).
Proof.
  intros [H1 H2 H3 H4 H5] He. split; cbn; try assumption.
  rewrite runs_of_app, H5. destruct e as [m|j]; cbn; [|lia].
  destruct (Nat.eqb_spec m fx) as [->|_]; [congruence | lia].
Qed.

(** Heap access. *)

Lemma detached_load (n : ref) :
  n <> fx -> preserves I (fun o => object_avoids fx o = true) (load n).
Proof.
  intros Hn st HI. unfold load. destruct (heap st !! n) as [o|] eqn:E; [|exact Logic.I].
  split; [exact HI|]. eapply (det_others _ _ _ _ HI); eassumption.
Qed.

Lemma detached_load_self : preserves I (fun o => o = ofx) (load fx).
Proof.
  intros st HI. unfold load. now rewrite (det_self _ _ _ _ HI).
Qed.

Lemma detached_store (n : ref) (o : object) :
  n <> fx -> object_avoids fx o = true -> preserves I any (store n o).
Proof.
  intros Hn Ho st HI. cbn. split; [|exact Logic.I]. now apply detached_set_heap.
Qed.

Lemma detached_emit_ok (e : event) : e <> Ran fx -> preserves I any (emit e).
Proof. intros He st HI. cbn. split; [|exact Logic.I]. now apply detached_emit. Qed.

Lemma detached_add (n x : ref) : n <> fx -> x <> fx -> preserves I any (add n x).
Proof.
  intros Hn Hx. eapply preserves_bind; [now apply detached_load|].
  intros o Ho. apply detached_store; [exact Hn|].
  apply object_avoids_with_items; [exact Ho|].
  apply mem_Set_add; [now apply object_avoids_items | exact Hx].
Qed.

Lemma detached_discard (n x : ref) : n <> fx -> preserves I any (discard n x).
Proof.
  intros Hn. eapply preserves_bind; [now apply detached_load|].
  intros o Ho. apply detached_store; [exact Hn|].
  apply object_avoids_with_items; [exact Ho|].
  apply mem_Set_discard. now apply object_avoids_items.
Qed.

Lemma detached_clear (n : ref) : n <> fx -> preserves I any (clear n).
Proof.
  intros Hn. eapply preserves_bind; [now apply detached_load|].
  intros o Ho. apply detached_store; [exact Hn|].
  now apply object_avoids_with_items.
Qed.

Lemma detached_cleared (n : ref) :
  n <> fx -> preserves I (fun l => mem fx l = false) (cleared n).
Proof.
  intros Hn. eapply preserves_bind; [now apply detached_load|].
  intros o Ho. eapply preserves_bind.
  - apply detached_store; [exact Hn|]. now apply object_avoids_with_items.
  - intros _ _. apply preserves_ret. now apply object_avoids_items.
Qed.

Lemma detached_cleared_batched :
  preserves I (fun l => mem fx l = false) cleared_batched.
Proof.
  eapply preserves_bind.
  - apply preserves_gets with (Q := fun l => mem fx l = false). intros st HI. apply HI.
  - intros l Hl. eapply preserves_bind.
    + apply preserves_modify. intros st HI. now apply detached_set_batched.
    + intros _ _. now apply preserves_ret.
Qed.

(** Attributes. *)

Lemma object_avoids_signal (l : list ref) (v : value) :
  object_avoids fx (Signal l v) = true -> mem fx l = false /\ value_avoids fx v = true.
Proof.
  unfold object_avoids. cbn [items callbacks_avoid]. intros H.
  apply andb_true_iff in H as [H1 H2]. now apply negb_true_iff in H1.
Qed.

Lemma object_avoids_computed (l : list ref) f c r s :
  object_avoids fx (Computed l f c r s) = true ->
  mem fx l = false /\ closure_avoids fx f = true /\ value_avoids fx r = true.
Proof.
  unfold object_avoids. cbn [items callbacks_avoid]. intros H.
  apply andb_true_iff in H as [H1 H2].
  apply andb_true_iff in H2 as [H2 H3]. now apply negb_true_iff in H1.
Qed.

Lemma object_avoids_make_computed (l : list ref) f c r s :
  mem fx l = false -> closure_avoids fx f = true -> value_avoids fx r = true ->
  object_avoids fx (Computed l f c r s) = true.
Proof. unfold object_avoids. cbn [items callbacks_avoid]. now intros -> -> ->. Qed.

Lemma detached_get__value (n : ref) :
  n <> fx -> preserves I (fun v => value_avoids fx v = true) (get__value n).
Proof.
  intros Hn. eapply preserves_bind; [now apply detached_load|].
  intros [l v|l f c r s] Ho; [|apply preserves_raise].
  apply preserves_ret. now apply object_avoids_signal in Ho.
Qed.

Lemma detached_get__compute (n : ref) : n <> fx -> preserves I any (get__compute n).
Proof.
  intros Hn. eapply preserves_bind; [now apply detached_load|].
  intros [l v|l f c r s] Ho; [apply preserves_raise | now apply preserves_ret].
Qed.

Lemma detached_get__subscribe (n : ref) : n <> fx -> preserves I any (get__subscribe n).
Proof.
  intros Hn. eapply preserves_bind; [now apply detached_load|].
  intros [l v|l f c r s] Ho; [apply preserves_raise | now apply preserves_ret].
Qed.

Lemma detached_get__computed (n : ref) :
  n <> fx -> preserves I (fun v => value_avoids fx v = true) (get__computed n).
Proof.
  intros Hn. eapply preserves_bind; [now apply detached_load|].
  intros [l v|l f c r s] Ho; [apply preserves_raise|].
  apply preserves_ret. now apply object_avoids_computed in Ho.
Qed.

Lemma detached_set__compute (n : ref) (b : bool) :
  n <> fx -> preserves I any (set__compute n b).
Proof.
  intros Hn. eapply preserves_bind; [now apply detached_load|].
  intros [l v|l f c r s] Ho; [apply preserves_raise|].
  apply detached_store; [exact Hn|].
  apply object_avoids_computed in Ho as (? & ? & ?). now apply object_avoids_make_computed.
Qed.

Lemma detached_set__computed (n : ref) (v : value) :
  n <> fx -> value_avoids fx v = true -> preserves I any (set__computed n v).
Proof.
  intros Hn Hv. eapply preserves_bind; [now apply detached_load|].
  intros [l w|l f c r s] Ho; [apply preserves_raise|].
  apply detached_store; [exact Hn|].
  apply object_avoids_computed in Ho as (? & ? & ?). now apply object_avoids_make_computed.
Qed.

Lemma detached_get_effect_value (n : ref) :
  n <> fx -> preserves I (fun v => value_avoids fx v = true) (get_effect_value n).
Proof.
  intros Hn. eapply preserves_bind; [now apply detached_load|].
  intros [l v|l [b|v cb] c r s] Ho; try apply preserves_raise.
  apply preserves_ret. apply object_avoids_computed in Ho as (_ & Hf & _).
  cbn in Hf. now apply andb_true_iff in Hf as [Hv _].
Qed.

Lemma detached_set_effect_value (n : ref) (v : value) :
  n <> fx -> value_avoids fx v = true -> preserves I any (set_effect_value n v).
Proof.
  intros Hn Hv. eapply preserves_bind; [now apply detached_load|].
  intros [l w|l [b|w cb] c r s] Ho; try apply preserves_raise.
  apply detached_store; [exact Hn|].
  apply object_avoids_computed in Ho as (? & Hf & ?).
  apply object_avoids_make_computed; try assumption.
  cbn in Hf |- *. apply andb_true_iff in Hf as [_ Hcb]. now rewrite Hv, Hcb.
Qed.

Lemma detached_gets_computing :
  preserves I (fun c => c <> Some fx) (gets computing).
Proof. apply preserves_gets. intros st HI. apply HI. Qed.

Lemma detached_tracking (self : ref) :
  self <> fx ->
  preserves I any
    (c <- gets computing ;;
     match c with
     | Some computing => add computing self ;; add self computing
     | None => raise AttributeError
     end).
Proof.
  intros Hself. eapply preserves_bind; [apply detached_gets_computing|].
  intros [c|] Hc; [|apply preserves_raise].
  assert (c <> fx) by congruence.
  eapply preserves_bind; [now apply detached_add|].
  intros _ _. now apply detached_add.
Qed.

Lemma detached_Signal_value (self : ref) :
  self <> fx -> preserves I (fun v => value_avoids fx v = true) (Signal_value self).
Proof.
  intros Hself. unfold Signal_value.
  eapply preserves_bind; [apply preserves_gets with (Q := any); auto|]. intros t _.
  eapply preserves_bind; [apply preserves_gets with (Q := any); auto|]. intros c _.
  eapply preserves_bind; [|intros _ _; now apply detached_get__value].
  apply preserves_if; [now apply detached_tracking | now apply preserves_ret].
Qed.

(** The library, for an evaluator that keeps [fx] detached on every body
    that avoids it. *)

Variable run : prog -> M value.
Hypothesis Hrun : forall p, avoids fx p = true ->
  preserves I (fun v => value_avoids fx v = true) (run p).

Local Abbreviation avoiding := (fun v => value_avoids fx v = true).

Lemma detached_call (v : value) :
  value_avoids fx v = true -> preserves I avoiding (call run v).
Proof.
  intros Hv. destruct v as [|z|a x|a body]; try apply preserves_raise.
  now apply Hrun.
Qed.

Lemma detached_call_if_callable (v : value) :
  value_avoids fx v = true ->
  preserves I any (if callable v then call run v ;; ret tt else ret tt).
Proof.
  intros Hv. apply preserves_if; [|now apply preserves_ret].
  eapply preserves_bind; [now apply detached_call|].
  intros _ _. now apply preserves_ret.
Qed.

Lemma detached_effect_effect (self : ref) (callback : prog) :
  self <> fx -> avoids fx callback = true ->
  preserves I avoiding (effect_effect run self callback).
Proof.
  intros Hself Hcb. unfold effect_effect.
  eapply preserves_bind; [now apply detached_get_effect_value|]. intros v Hv.
  eapply preserves_bind; [now apply detached_call_if_callable|]. intros _ _.
  eapply preserves_bind; [now apply Hrun|]. intros w Hw.
  eapply preserves_bind; [now apply detached_set_effect_value|]. intros _ _.
  now apply preserves_ret.
Qed.

Lemma detached_call__value (self : ref) :
  self <> fx -> preserves I avoiding (call__value run self).
Proof.
  intros Hself. eapply preserves_bind; [now apply detached_load|].
  intros [l v|l [body|v cb] c r s] Ho; [apply preserves_raise| |];
    apply object_avoids_computed in Ho as (_ & Hf & _); cbn in Hf.
  - now apply Hrun.
  - apply andb_true_iff in Hf as [_ Hcb]. now apply detached_effect_effect.
Qed.

Lemma detached_Computed__run (self : ref) :
  self <> fx -> preserves I any (Computed__run run self).
Proof.
  intros Hself. unfold Computed__run.
  eapply preserves_bind; [now apply detached_get__compute|]. intros c _.
  apply preserves_if; [|now apply preserves_ret].
  eapply preserves_bind; [apply detached_gets_computing|]. intros previously Hprev.
  eapply preserves_bind.
  { apply preserves_modify. intros st HI. apply detached_set_computing; [exact HI|congruence]. }
  intros _ _.
  eapply preserves_bind; [now apply detached_set__compute|]. intros _ _.
  eapply preserves_bind; [now apply detached_clear|]. intros _ _.
  apply preserves_try_finally.
  - eapply preserves_bind; [apply detached_emit_ok; congruence|]. intros _ _.
    eapply preserves_bind; [now apply detached_call__value|]. intros r Hr.
    now apply detached_set__computed.
  - intros st HI. now apply detached_set_computing.
Qed.

Lemma detached_Computed__update (self : ref) :
  self <> fx -> preserves I any (Computed__update run self).
Proof.
  intros Hself. unfold Computed__update.
  eapply preserves_bind; [now apply detached_set__compute|]. intros _ _.
  eapply preserves_bind; [apply preserves_gets with (Q := any); auto|]. intros sync _.
  apply preserves_if.
  - eapply preserves_bind; [now apply detached_get__subscribe|]. intros s _.
    apply preserves_if; [now apply preserves_ret | now apply detached_Computed__run].
  - eapply preserves_bind.
    + apply preserves_gets with (Q := fun b => mem fx b = false). intros st HI. apply HI.
    + intros b Hb. apply preserves_modify. intros st HI.
      apply detached_set_batched; [exact HI|]. now apply mem_Set_add.
Qed.

Lemma detached_updates (l : list ref) :
  mem fx l = false -> preserves I any (for_each l (Computed__update run)).
Proof.
  intros Hl. apply preserves_for_each. intros x Hx.
  apply detached_Computed__update. intros ->. now apply mem_false in Hl.
Qed.

Lemma detached_Computed_value (self : ref) :
  self <> fx -> preserves I avoiding (Computed_value run self).
Proof.
  intros Hself. unfold Computed_value.
  eapply preserves_bind; [now apply detached_Computed__run|]. intros _ _.
  eapply preserves_bind; [now apply detached_get__subscribe|]. intros s _.
  eapply preserves_bind; [apply preserves_gets with (Q := any); auto|]. intros t _.
  eapply preserves_bind; [apply preserves_gets with (Q := any); auto|]. intros c _.
  eapply preserves_bind with (Q := any); [|intros _ _; now apply detached_get__computed].
  apply preserves_if; [|now apply preserves_ret].
  eapply preserves_bind; [now apply detached_cleared|]. intros l Hl.
  apply preserves_for_each. intros signal Hsig.
  apply detached_tracking. intros ->. now apply mem_false in Hl.
Qed.

Lemma detached_Computed_peek (self : ref) :
  self <> fx -> preserves I avoiding (Computed_peek run self).
Proof.
  intros Hself. unfold Computed_peek.
  eapply preserves_bind; [now apply detached_Computed__run|]. intros _ _.
  now apply detached_get__computed.
Qed.

Lemma detached_Signal_value_set (self : ref) (v : value) :
  self <> fx -> value_avoids fx v = true ->
  preserves I any (Signal_value_set run self v).
Proof.
  intros Hself Hv. unfold Signal_value_set.
  eapply preserves_bind; [now apply detached_load|].
  intros [l cur|l f c r s] Ho; [|apply preserves_raise].
  apply preserves_if; [now apply preserves_ret|].
  apply object_avoids_signal in Ho as [Hl _].
  eapply preserves_bind.
  { apply detached_store; [exact Hself|]. unfold object_avoids. cbn [items callbacks_avoid].
    now rewrite Hl, Hv. }
  intros _ _.
  eapply preserves_bind; [now apply detached_cleared|]. intros l' Hl'.
  now apply detached_updates.
Qed.

Lemma detached_get_value (n : ref) :
  n <> fx -> preserves I avoiding (get_value run n).
Proof.
  intros Hn. eapply preserves_bind; [now apply detached_load|].
  intros [l v|l f c r s] _; [now apply detached_Signal_value | now apply detached_Computed_value].
Qed.

Lemma detached_peek (n : ref) :
  n <> fx -> preserves I avoiding (peek run n).
Proof.
  intros Hn. eapply preserves_bind; [now apply detached_load|].
  intros [l v|l f c r s] _; [now apply detached_get__value | now apply detached_Computed_peek].
Qed.

(** Disposing of another effect, and disposing of [fx] once more. *)
Lemma detached_cleanup (n : ref) : preserves I any (cleanup run n).
Proof.
  unfold cleanup. destruct (decide (n = fx)) as [->|Hn].
  - destruct (disposed_items _ _ Hofx) as [Hitems Hwith].
    eapply preserves_bind.
    { unfold cleared. eapply preserves_bind; [apply detached_load_self|].
      intros o ->. rewrite Hitems, Hwith.
      eapply preserves_bind with (Q := any).
      - intros st HI. cbn. split; [|exact Logic.I]. now apply detached_set_heap_self.
      - intros _ _. apply preserves_ret with (Q := fun l => l = []). reflexivity. }
    intros l ->. cbn [for_each].
    eapply preserves_bind with (Q := any); [now apply preserves_ret|]. intros _ _.
    eapply preserves_bind.
    { unfold get_effect_value. eapply preserves_bind; [apply detached_load_self|].
      intros o ->. apply disposed_effect_value. exact Hofx. }
    intros w Hw. now apply detached_call_if_callable.
  - eapply preserves_bind; [now apply detached_cleared|]. intros l Hl.
    eapply preserves_bind.
    { apply preserves_for_each. intros signal Hsig. apply detached_discard.
      intros ->. now apply mem_false in Hl. }
    intros _ _.
    eapply preserves_bind; [now apply detached_get_effect_value|]. intros v Hv.
    now apply detached_call_if_callable.
Qed.

Lemma detached_batch (callback : M value) :
  preserves I avoiding callback -> preserves I any (batch run callback).
Proof.
  intros Hcb. unfold batch.
  eapply preserves_bind; [apply preserves_gets with (Q := any); auto|]. intros finalize _.
  eapply preserves_bind.
  { apply preserves_modify. intros st HI. now apply detached_set_synchronous. }
  intros _ _. apply preserves_try_finally.
  - eapply preserves_bind; [exact Hcb|]. intros _ _.
    eapply preserves_bind; [apply preserves_gets with (Q := any); auto|]. intros b _.
    apply preserves_if; [|now apply preserves_ret].
    eapply preserves_bind.
    { apply preserves_modify. intros st HI. now apply detached_set_synchronous. }
    intros _ _.
    eapply preserves_bind; [apply detached_cleared_batched|]. intros l Hl.
    apply preserves_for_each. intros n Hn.
    assert (n <> fx) by (intros ->; now apply mem_false in Hl).
    eapply preserves_bind; [now apply detached_get__compute|]. intros c _.
    apply preserves_if; [now apply detached_Computed__update | now apply preserves_ret].
  - intros st HI. now apply detached_set_synchronous.
Qed.

Lemma detached_untracked {A} (Q : A -> Prop) (callback : M A) :
  preserves I Q callback -> preserves I Q (untracked callback).
Proof.
  intros Hcb. unfold untracked.
  eapply preserves_bind; [apply preserves_gets with (Q := any); auto|]. intros tracking _.
  eapply preserves_bind.
  { apply preserves_modify. intros st HI. now apply detached_set_tracked. }
  intros _ _. apply preserves_try_finally; [exact Hcb|].
  intros st HI. now apply detached_set_tracked.
Qed.

End Detached.

Lemma detached_arith (I : state -> Prop) (fx : ref) (op : Z -> Z -> Z) (a b : value) :
  preserves I (fun v => value_avoids fx v = true) (arith op a b).
Proof.
  destruct a as [|x|? ?|? ?]; try apply preserves_raise.
  destruct b as [|y|? ?|? ?]; try apply preserves_raise.
  now apply preserves_ret.
Qed.

(** Every callback body that avoids [fx], run at any fuel from a state where
    [fx] is detached, leaves [fx] detached with the same number of runs,
    whether it returns or raises. *)
Lemma detached_eval (fx : ref) (ofx : object) (k : nat) (fuel : nat) :
  disposed fx ofx = true ->
  forall p, avoids fx p = true ->
  preserves (Detached fx ofx k) (fun v => value_avoids fx v = true) (eval fuel p).
Proof.
  intros Hofx. induction fuel as [|fuel IH]; intros p Hp.
  - intros st _. exact Logic.I.
  - destruct p as [|z|a x|a body|n|n|n e|a b|a b|c t e|a b|j| |body|body|n];
      cbn [eval avoids] in *.
    + now apply preserves_ret.
    + now apply preserves_ret.
    + now apply preserves_ret.
    + now apply preserves_ret.
    + apply detached_get_value; [exact IH|]. now apply negb_true_iff, Nat.eqb_neq in Hp.
    + apply detached_peek; [exact IH|]. now apply negb_true_iff, Nat.eqb_neq in Hp.
    + apply andb_true_iff in Hp as [Hn He]. apply negb_true_iff, Nat.eqb_neq in Hn.
      eapply preserves_bind; [now apply IH|]. intros v Hv.
      eapply preserves_bind; [now apply detached_Signal_value_set|]. intros _ _.
      now apply preserves_ret.
    + apply andb_true_iff in Hp as [Ha Hb].
      eapply preserves_bind; [now apply IH|]. intros x _.
      eapply preserves_bind; [now apply IH|]. intros y _.
      apply detached_arith.
    + apply andb_true_iff in Hp as [Ha Hb].
      eapply preserves_bind; [now apply IH|]. intros x _.
      eapply preserves_bind; [now apply IH|]. intros y _.
      apply detached_arith.
    + apply andb_true_iff in Hp as [Hp He]. apply andb_true_iff in Hp as [Hc Ht].
      eapply preserves_bind; [now apply IH|]. intros v _.
      apply preserves_if; now apply IH.
    + apply andb_true_iff in Hp as [Ha Hb].
      eapply preserves_bind; [now apply IH|]. intros _ _. now apply IH.
    + eapply preserves_bind; [|intros _ _; now apply preserves_ret].
      apply detached_emit_ok with (e := Printed j). discriminate.
    + apply preserves_raise.
    + eapply preserves_bind; [|intros _ _; now apply preserves_ret].
      apply detached_batch; [exact IH | now apply IH].
    + apply detached_untracked. now apply IH.
    + eapply preserves_bind; [|intros _ _; now apply preserves_ret].
      now apply detached_cleanup.
Qed.

(** ** The check [detached] and the invariant [Detached] *)

Lemma others_avoid_spec (fx : ref) (h : list object) (i : nat) :
  others_avoid fx i h = true <->
  (forall n o, h !! n = Some o -> i + n <> fx -> object_avoids fx o = true).
Proof.
  revert i. induction h as [|o h IH]; intros i; cbn [others_avoid].
  - split; [intros _ n o' H; inversion H | reflexivity].
  - rewrite andb_true_iff, orb_true_iff, Nat.eqb_eq, IH. split.
    + intros [Ho Hh] [|n] o' Hn Hne; cbn in Hn.
      * injection Hn as <-. rewrite Nat.add_0_r in Hne. tauto.
      * apply (Hh n o' Hn). lia.
    + intros H. split.
      * destruct (decide (i = fx)) as [E|E]; [now left|right].
        apply (H 0 o); [reflexivity | lia].
      * intros n o' Hn Hne. apply (H (S n) o' Hn). lia.
Qed.

Lemma is_computing_false (fx : ref) (st : state) :
  is_computing fx st = false <-> computing st <> Some fx.
Proof.
  unfold is_computing. destruct (computing st) as [c|].
  - rewrite Nat.eqb_neq. split; congruence.
  - split; [discriminate | reflexivity].
Qed.

Lemma detached_sound (fx : ref) (st : state) :
  detached fx st = true ->
  exists ofx, disposed fx ofx = true /\ Detached fx ofx (runs_of fx (trace st)) st.
Proof.
  unfold detached. rewrite !andb_true_iff, !negb_true_iff.
  intros [[[Hself Hoth] Hb] Hc].
  destruct (heap st !! fx) as [ofx|] eqn:E; [|discriminate].
  exists ofx. split; [exact Hself|]. split.
  - exact E.
  - intros n o Hn Hne. eapply others_avoid_spec; [exact Hoth|exact Hn|exact Hne].
  - exact Hb.
  - now apply is_computing_false.
  - reflexivity.
Qed.

Lemma detached_complete (fx : ref) (ofx : object) (k : nat) (st : state) :
  disposed fx ofx = true -> Detached fx ofx k st ->
  detached fx st = true /\ runs_of fx (trace st) = k.
Proof.
  intros Hofx [H1 H2 H3 H4 H5]. split; [|exact H5].
  unfold detached. rewrite H1, Hofx, H3. cbn.
  rewrite (proj2 (is_computing_false fx st) H4).
  rewrite (proj2 (others_avoid_spec fx (heap st) 0)); [reflexivity|].
  intros n o Hn Hne. now apply (H2 n o).
Qed.

(** ** The disposer *)

Lemma occurrences_app (x : ref) (l1 l2 : list ref) :
  occurrences x (l1 ++ l2) = occurrences x l1 + occurrences x l2.
Proof. induction l1 as [|y l1 IH]; cbn; [reflexivity | rewrite IH; lia]. Qed.

Lemma occurrences_zero (x : ref) (l : list ref) : occurrences x l = 0 <-> x ∉ l.
Proof.
  induction l as [|y l IH]; cbn.
  - split; [intros _ H; inversion H | reflexivity].
  - rewrite not_elem_of_cons, <- IH. destruct (Nat.eqb_spec x y); intuition lia.
Qed.

(** [discard] leaves no item identical to [x] when [x] occurred at most once,
    whether or not it occurred at all. *)
Lemma Set_discard_once (l : list ref) (x : ref) :
  occurrences x l <= 1 -> mem x (Set_discard l x) = false.
Proof.
  intros Hocc. apply mem_false. destruct (decide (x ∈ l)) as [Hin|Hnin].
  - apply list_elem_of_split_l in Hin as (l1 & l2 & -> & Hl1).
    rewrite Set_discard_present by assumption.
    rewrite occurrences_app in Hocc. cbn in Hocc. rewrite Nat.eqb_refl in Hocc.
    assert (H2 : occurrences x l2 = 0) by lia. apply occurrences_zero in H2.
    rewrite elem_of_app. tauto.
  - intros H. apply Hnin, (Set_discard_sublist _ _ _ H).
Qed.

Lemma set_heap_set_heap (h h' : list object) (st : state) :
  set_heap h (set_heap h' st) = set_heap h st.
Proof. reflexivity. Qed.

Lemma sever_length (fx : ref) (h : list object) (s : ref) :
  length (sever fx h s) = length h.
Proof. unfold sever. destruct (h !! s); [apply length_insert | reflexivity]. Qed.

Lemma sever_lookup_ne (fx : ref) (h : list object) (s n : ref) :
  s <> n -> sever fx h s !! n = h !! n.
Proof.
  intros Hne. unfold sever. destruct (h !! s); [now apply list_lookup_insert_ne | reflexivity].
Qed.

Lemma foldl_sever_lookup (fx : ref) (l : list ref) (h : list object) (n : ref) :
  n ∉ l -> foldl (sever fx) h l !! n = h !! n.
Proof.
  revert h. induction l as [|s l IH]; intros h Hn; [reflexivity|].
  apply not_elem_of_cons in Hn as [Hns Hn]. cbn [foldl].
  rewrite IH by assumption. now apply sever_lookup_ne.
Qed.

Lemma discard_eq (fx s : ref) (o : object) (st : state) :
  heap st !! s = Some o ->
  discard s fx st
  = Ok tt (set_heap (<[s := with_items (Set_discard (items o) fx) o]> (heap st)) st).
Proof. intros Ho. unfold discard, bind. now rewrite (load_eq _ _ _ Ho). Qed.

(** The loop of the disposer over valid references. *)
Lemma for_each_discard (fx : ref) (l : list ref) (h : list object) (st : state) :
  forallb (fun s => Nat.ltb s (length h)) l = true ->
  for_each l (fun signal => discard signal fx) (set_heap h st)
  = Ok tt (set_heap (foldl (sever fx) h l) st).
Proof.
  revert h. induction l as [|s l IH]; intros h Hl; cbn [for_each foldl forallb] in *.
  - reflexivity.
  - apply andb_true_iff in Hl as [Hs Hl]. apply Nat.ltb_lt in Hs.
    destruct (lookup_lt_is_Some_2 h s Hs) as [o Ho].
    unfold bind. rewrite (discard_eq fx s o (set_heap h st) Ho).
    cbn [heap set_heap]. rewrite set_heap_set_heap.
    rewrite (IH (<[s := with_items (Set_discard (items o) fx) o]> h)).
    + unfold sever. now rewrite Ho.
    + now rewrite length_insert.
Qed.

Lemma edges_recorded_spec (fx : ref) (l : list ref) (h : list object) (i : nat) :
  edges_recorded fx l i h = true ->
  forall n o, h !! n = Some o -> i + n <> fx ->
    callbacks_avoid fx o = true /\ occurrences fx (items o) <= 1 /\
    (mem fx (items o) = true -> i + n ∈ l).
Proof.
  revert i. induction h as [|o h IH]; intros i; cbn [edges_recorded].
  - intros _ n o' H. inversion H.
  - rewrite andb_true_iff, orb_true_iff, Nat.eqb_eq. intros [Ho Hh] [|n] o' Hn Hne; cbn in Hn.
    + injection Hn as <-. rewrite Nat.add_0_r in *. destruct Ho as [Ho|Ho]; [contradiction|].
      apply andb_true_iff in Ho as [Ho H3]. apply andb_true_iff in Ho as [H1 H2].
      apply Nat.leb_le in H2. split; [exact H1|]. split; [exact H2|].
      intros Hm. rewrite Hm in H3. cbn in H3. now apply mem_true.
    + replace (i + S n) with (S i + n) in * by lia. now apply (IH (S i) Hh n o').
Qed.

Lemma callbacks_avoid_with_items (fx : ref) (l : list ref) (o : object) :
  callbacks_avoid fx (with_items l o) = callbacks_avoid fx o.
Proof. now destruct o as [l0 v0|l0 f0 c0 r0 s0]. Qed.

Lemma items_with_items (l : list ref) (o : object) : items (with_items l o) = l.
Proof. now destruct o as [l0 v0|l0 f0 c0 r0 s0]. Qed.

Lemma edges_in_insert_self (fx : ref) (rest : list ref) (h : list object) (o : object) :
  edges_in fx rest h -> edges_in fx rest (<[fx := o]> h).
Proof.
  intros H n o' Hn Hne. rewrite list_lookup_insert_ne in Hn by congruence. now apply H.
Qed.

Lemma edges_in_sever (fx : ref) (s : ref) (rest : list ref) (h : list object) :
  edges_in fx (s :: rest) h -> edges_in fx rest (sever fx h s).
Proof.
  intros H n o Hn Hne. destruct (decide (s = n)) as [->|Hsn].
  - unfold sever in Hn. destruct (h !! n) as [o0|] eqn:E.
    + rewrite (lookup_insert_cell _ _ _ _ E) in Hn. injection Hn as <-.
      destruct (H n o0 E Hne) as (H1 & H2 & _).
      rewrite callbacks_avoid_with_items, items_with_items.
      pose proof (Set_discard_once _ _ H2) as Hgone.
      split; [exact H1|]. split.
      * apply mem_false, occurrences_zero in Hgone. lia.
      * congruence.
    + congruence.
  - rewrite sever_lookup_ne in Hn by assumption.
    destruct (H n o Hn Hne) as (H1 & H2 & H3). split; [exact H1|]. split; [exact H2|].
    intros Hm. specialize (H3 Hm). inversion H3; subst; [congruence | assumption].
Qed.

Lemma edges_in_foldl (fx : ref) (l : list ref) (h : list object) :
  edges_in fx l h -> edges_in fx [] (foldl (sever fx) h l).
Proof.
  revert h. induction l as [|s l IH]; intros h H; [exact H|].
  cbn [foldl]. apply IH. now apply edges_in_sever.
Qed.

Lemma edges_in_nil (fx : ref) (h : list object) (n : ref) (o : object) :
  edges_in fx [] h -> h !! n = Some o -> n <> fx -> object_avoids fx o = true.
Proof.
  intros H Hn Hne. destruct (H n o Hn Hne) as (H1 & _ & H3).
  unfold object_avoids. rewrite H1. destruct (mem fx (items o)); [|reflexivity].
  specialize (H3 eq_refl). inversion H3.
Qed.

Lemma subscribed_inv (fx : ref) (st : state) :
  subscribed fx st = true ->
  exists l v cb c r s,
    heap st !! fx = Some (Computed l (EffectFn v cb) c r s) /\
    value_avoids fx v = true /\ (fx ∉ l) /\
    forallb (fun s => Nat.ltb s (length (heap st))) l = true /\
    edges_in fx l (heap st) /\
    mem fx (batched st) = false /\ computing st <> Some fx.
Proof.
  unfold subscribed. rewrite !andb_true_iff, !negb_true_iff. intros [[H Hb] Hc].
  destruct (heap st !! fx) as [[l0 v0|l [b|v cb] c r s]|] eqn:E; try discriminate.
  rewrite !andb_true_iff, negb_true_iff in H. destruct H as [[[Hv Hl] Hvalid] He].
  exists l, v, cb, c, r, s.
  split; [reflexivity|]. split; [exact Hv|]. split; [now apply mem_false|].
  split; [exact Hvalid|]. split; [|split; [exact Hb | now apply is_computing_false]].
  intros n o Hn Hne. apply (edges_recorded_spec _ _ _ _ He n o Hn Hne).
Qed.

(** The disposer first brings the state to [severed fx st], then calls the
    stored cleanup when there is one. *)
Lemma cleanup_severs run (fx : ref) (st : state) :
  subscribed fx st = true ->
  cleanup run fx st
  = (value <- get_effect_value fx ;;
     if callable value then call run value ;; ret tt else ret tt) (severed fx st).
Proof.
  intros Hsub.
  destruct (subscribed_inv _ _ Hsub) as (l & v & cb & c & r & s & Ho & _ & _ & Hvalid & _).
  unfold cleanup, severed. rewrite Ho. cbn [items with_items].
  unfold bind at 1. unfold cleared, bind at 1. rewrite (load_eq _ _ _ Ho).
  cbn [items with_items]. unfold bind at 1. cbn [store modify ret].
  unfold bind at 1.
  rewrite for_each_discard; [reflexivity|]. cbn [heap set_heap]. now rewrite length_insert.
Qed.

Lemma severed_Detached (fx : ref) (st : state) l v cb c r s :
  subscribed fx st = true ->
  heap st !! fx = Some (Computed l (EffectFn v cb) c r s) ->
  Detached fx (Computed [] (EffectFn v cb) c r s) (runs_of fx (trace st)) (severed fx st).
Proof.
  intros Hsub Ho.
  destruct (subscribed_inv _ _ Hsub)
    as (l' & v' & cb' & c' & r' & s' & Ho' & Hv & Hl & Hvalid & He & Hb & Hc).
  rewrite Ho in Ho'. injection Ho' as <- <- <- <- <- <-.
  unfold severed. rewrite Ho. cbn [items with_items]. split; cbn.
  - rewrite foldl_sever_lookup by assumption. apply (lookup_insert_cell _ _ _ _ Ho).
  - intros n o Hn Hne. eapply edges_in_nil; [|exact Hn|exact Hne].
    apply edges_in_foldl, edges_in_insert_self, He.
  - exact Hb.
  - exact Hc.
  - reflexivity.
Qed.


(** ** Disposal of an effect *)



Lemma after_preserves {A} (I : state -> Prop) (Q : A -> Prop) (m : M A) (st : state) :
  preserves I Q m -> I st -> after (m st) I.
Proof.
  intros Hm HI. specialize (Hm st HI). unfold after.
  destruct (m st) as [a st'|e st'| |]; tauto.
Qed.

Lemma after_impl {A} (r : result A) (P P' : state -> Prop) :
  after r P -> (forall st, P st -> P' st) -> after r P'.
Proof. destruct r; cbn; auto. Qed.

(** From a state where [fx] is detached, a callback body that avoids [fx]
    leaves it detached and never runs it. *)
Lemma detached_never_run (fx : ref) (st : state) (fuel : nat) (p : prog) :
  detached fx st = true -> avoids fx p = true ->
  after (eval fuel p st)
    (fun st' => detached fx st' = true /\ runs_of fx (trace st') = runs_of fx (trace st)).
Proof.
  intros Hd Hp. destruct (detached_sound _ _ Hd) as (ofx & Hofx & HD).
  eapply after_impl.
  - eapply after_preserves; [|exact HD]. now apply detached_eval.
  - intros st' HD'. now apply detached_complete with (ofx := ofx).
Qed.

Lemma detached_write_never_runs (fx : ref) (st : state) (fuel : nat) (s : ref) (v : value) :
  detached fx st = true -> s <> fx -> value_avoids fx v = true ->
  after (Signal_value_set (eval fuel) s v st)
    (fun st' => detached fx st' = true /\ runs_of fx (trace st') = runs_of fx (trace st)).
Proof.
  intros Hd Hs Hv. destruct (detached_sound _ _ Hd) as (ofx & Hofx & HD).
  eapply after_impl.
  - eapply after_preserves; [|exact HD].
    apply detached_Signal_value_set; [|exact Hs|exact Hv].
    intros p Hp. now apply detached_eval.
  - intros st' HD'. now apply detached_complete with (ofx := ofx).
Qed.





(** ** With [tracked] off no list grows *)

Section Untracked.

Variable h0 : list object.

Local Abbreviation I := (Tracking_off h0).
Local Abbreviation any := (fun _ => True).
Local Abbreviation within := (fun n (o : object) => forall x, x ∈ items o -> x ∈ items_in h0 n).

Lemma off_load (n : ref) : preserves I (within n) (load n).
Proof.
  intros st HI. unfold load. destruct (heap st !! n) as [o|] eqn:E; [|exact Logic.I].
  split; [exact HI|]. intros x Hx. apply (ut_items _ _ HI).
  unfold items_at, items_in. now rewrite E.
Qed.

Lemma off_store (n : ref) (o : object) :
  within n o -> preserves I any (store n o).
Proof.
  intros Ho st [H1 H2]. cbn. split; [|exact Logic.I]. split; [exact H1|].
  intros m x. unfold items_at, items_in. cbn [heap set_heap].
  destruct (<[n := o]> (heap st) !! m) as [o'|] eqn:E; [|intros Hx; inversion Hx].
  apply list_lookup_insert_Some in E as [(-> & <- & _)|(_ & E)].
  - apply Ho.
  - intros Hx. apply H2. unfold items_at, items_in. now rewrite E.
Qed.

Lemma off_flags (st : state) (f : state -> state) :
  heap (f st) = heap st -> tracked (f st) = tracked st -> I st -> I (f st).
Proof.
  intros Eh Et [H1 H2]. split; [now rewrite Et|].
  intros n x. unfold items_at. rewrite Eh. apply H2.
Qed.

Lemma off_modify (f : state -> state) :
  (forall st, heap (f st) = heap st) -> (forall st, tracked (f st) = tracked st) ->
  preserves I any (modify f).
Proof.
  intros Eh Et. apply preserves_modify. intros st. now apply off_flags.
Qed.

Lemma off_gets_tracked : preserves I (fun t => t = false) (gets tracked).
Proof. apply preserves_gets. intros st HI. apply HI. Qed.

Lemma off_with_items (n : ref) (o : object) (l : list ref) :
  within n o -> (forall x, x ∈ l -> x ∈ items o) -> within n (with_items l o).
Proof. intros Ho Hl x. rewrite items_with_items. auto. Qed.

Lemma off_discard (n x : ref) : preserves I any (discard n x).
Proof.
  eapply preserves_bind; [apply off_load|]. intros o Ho.
  apply off_store, off_with_items; [exact Ho|].
  intros y. apply Set_discard_sublist.
Qed.

Lemma off_clear (n : ref) : preserves I any (clear n).
Proof.
  eapply preserves_bind; [apply off_load|]. intros o Ho.
  apply off_store, off_with_items; [exact Ho|]. intros y Hy. inversion Hy.
Qed.

Lemma off_cleared (n : ref) : preserves I any (cleared n).
Proof.
  eapply preserves_bind; [apply off_load|]. intros o Ho.
  eapply preserves_bind with (Q := any); [|intros _ _; now apply preserves_ret].
  apply off_store, off_with_items; [exact Ho|]. intros y Hy. inversion Hy.
Qed.

Lemma off_getter {A} (n : ref) (f : object -> M A) :
  (forall o, preserves I any (f o)) -> preserves I any (o <- load n ;; f o).
Proof.
  intros Hf. eapply preserves_bind; [apply off_load|]. intros o _. apply Hf.
Qed.

Lemma off_get__value (n : ref) : preserves I any (get__value n).
Proof.
  apply off_getter. intros [l v|l f c r s]; [now apply preserves_ret | apply preserves_raise].
Qed.

Lemma off_get__compute (n : ref) : preserves I any (get__compute n).
Proof.
  apply off_getter. intros [l v|l f c r s]; [apply preserves_raise | now apply preserves_ret].
Qed.

Lemma off_get__computed (n : ref) : preserves I any (get__computed n).
Proof.
  apply off_getter. intros [l v|l f c r s]; [apply preserves_raise | now apply preserves_ret].
Qed.

Lemma off_get__subscribe (n : ref) : preserves I any (get__subscribe n).
Proof.
  apply off_getter. intros [l v|l f c r s]; [apply preserves_raise | now apply preserves_ret].
Qed.

Lemma off_get_effect_value (n : ref) : preserves I any (get_effect_value n).
Proof.
  apply off_getter.
  intros [l v|l [b|v cb] c r s]; try apply preserves_raise. now apply preserves_ret.
Qed.

Lemma off_set__compute (n : ref) (b : bool) : preserves I any (set__compute n b).
Proof.
  eapply preserves_bind; [apply off_load|].
  intros [l v|l f c r s] Ho; [apply preserves_raise|]. now apply off_store.
Qed.

Lemma off_set__computed (n : ref) (v : value) : preserves I any (set__computed n v).
Proof.
  eapply preserves_bind; [apply off_load|].
  intros [l w|l f c r s] Ho; [apply preserves_raise|]. now apply off_store.
Qed.

Lemma off_set_effect_value (n : ref) (v : value) :
  preserves I any (set_effect_value n v).
Proof.
  eapply preserves_bind; [apply off_load|].
  intros [l w|l [b|w cb] c r s] Ho; try apply preserves_raise. now apply off_store.
Qed.

Lemma off_emit (e : event) : preserves I any (emit e).
Proof. now apply off_modify. Qed.

(** The getter of a signal does not reach its two [add]s. *)
Lemma off_Signal_value (self : ref) : preserves I any (Signal_value self).
Proof.
  unfold Signal_value.
  eapply preserves_bind; [apply off_gets_tracked|]. intros t ->.
  eapply preserves_bind; [apply preserves_gets with (Q := any); auto|]. intros c _.
  cbn [andb].
  eapply preserves_bind with (Q := any); [now apply preserves_ret|]. intros _ _.
  apply off_get__value.
Qed.

Variable run : prog -> M value.
Hypothesis Hrun : forall p, preserves I any (run p).

Lemma off_call_if_callable (v : value) :
  preserves I any (if callable v then call run v ;; ret tt else ret tt).
Proof.
  apply preserves_if; [|now apply preserves_ret].
  eapply preserves_bind with (Q := any); [|intros _ _; now apply preserves_ret].
  destruct v as [|z|a x|a body]; try apply preserves_raise. apply Hrun.
Qed.

Lemma off_call__value (self : ref) : preserves I any (call__value run self).
Proof.
  apply off_getter. intros [l v|l [body|v cb] c r s].
  - apply preserves_raise.
  - apply Hrun.
  - unfold effect_effect.
    eapply preserves_bind; [apply off_get_effect_value|]. intros w _.
    eapply preserves_bind; [apply off_call_if_callable|]. intros _ _.
    eapply preserves_bind; [apply Hrun|]. intros w' _.
    eapply preserves_bind; [apply off_set_effect_value|]. intros _ _.
    now apply preserves_ret.
Qed.

Lemma off_Computed__run (self : ref) : preserves I any (Computed__run run self).
Proof.
  unfold Computed__run.
  eapply preserves_bind; [apply off_get__compute|]. intros c _.
  apply preserves_if; [|now apply preserves_ret].
  eapply preserves_bind; [apply preserves_gets with (Q := any); auto|]. intros previously _.
  eapply preserves_bind; [now apply off_modify|]. intros _ _.
  eapply preserves_bind; [apply off_set__compute|]. intros _ _.
  eapply preserves_bind; [apply off_clear|]. intros _ _.
  apply preserves_try_finally.
  - eapply preserves_bind; [apply off_emit|]. intros _ _.
    eapply preserves_bind; [apply off_call__value|]. intros r _.
    apply off_set__computed.
  - intros st. now apply off_flags.
Qed.

Lemma off_Computed__update (self : ref) : preserves I any (Computed__update run self).
Proof.
  unfold Computed__update.
  eapply preserves_bind; [apply off_set__compute|]. intros _ _.
  eapply preserves_bind; [apply preserves_gets with (Q := any); auto|]. intros sync _.
  apply preserves_if.
  - eapply preserves_bind; [apply off_get__subscribe|]. intros s _.
    apply preserves_if; [now apply preserves_ret | apply off_Computed__run].
  - eapply preserves_bind; [apply preserves_gets with (Q := any); auto|]. intros b _.
    now apply off_modify.
Qed.

(** The getter of a computed does not reach its flattening loop. *)
Lemma off_Computed_value (self : ref) : preserves I any (Computed_value run self).
Proof.
  unfold Computed_value.
  eapply preserves_bind; [apply off_Computed__run|]. intros _ _.
  eapply preserves_bind; [apply off_get__subscribe|]. intros s _.
  eapply preserves_bind; [apply off_gets_tracked|]. intros t ->.
  eapply preserves_bind; [apply preserves_gets with (Q := any); auto|]. intros c _.
  rewrite andb_false_r. cbn [andb].
  eapply preserves_bind with (Q := any); [now apply preserves_ret|]. intros _ _.
  apply off_get__computed.
Qed.

Lemma off_Signal_value_set (self : ref) (v : value) :
  preserves I any (Signal_value_set run self v).
Proof.
  unfold Signal_value_set.
  eapply preserves_bind; [apply off_load|].
  intros [l cur|l f c r s] Ho; [|apply preserves_raise].
  apply preserves_if; [now apply preserves_ret|].
  eapply preserves_bind; [now apply off_store|]. intros _ _.
  eapply preserves_bind; [apply off_cleared|]. intros l' _.
  apply preserves_for_each. intros x _. apply off_Computed__update.
Qed.

Lemma off_get_value (n : ref) : preserves I any (get_value run n).
Proof.
  apply off_getter.
  intros [l v|l f c r s]; [apply off_Signal_value | apply off_Computed_value].
Qed.

Lemma off_peek (n : ref) : preserves I any (peek run n).
Proof.
  apply off_getter. intros [l v|l f c r s].
  - apply off_get__value.
  - unfold Computed_peek.
    eapply preserves_bind; [apply off_Computed__run|]. intros _ _.
    apply off_get__computed.
Qed.

Lemma off_cleanup (fx : ref) : preserves I any (cleanup run fx).
Proof.
  unfold cleanup.
  eapply preserves_bind; [apply off_cleared|]. intros l _.
  eapply preserves_bind.
  { apply preserves_for_each. intros signal _. apply off_discard. }
  intros _ _.
  eapply preserves_bind; [apply off_get_effect_value|]. intros v _.
  apply off_call_if_callable.
Qed.

Lemma off_batch (callback : M value) :
  preserves I any callback -> preserves I any (batch run callback).
Proof.
  intros Hcb. unfold batch.
  eapply preserves_bind; [apply preserves_gets with (Q := any); auto|]. intros finalize _.
  eapply preserves_bind; [now apply off_modify|]. intros _ _.
  apply preserves_try_finally.
  - eapply preserves_bind; [exact Hcb|]. intros _ _.
    eapply preserves_bind; [apply preserves_gets with (Q := any); auto|]. intros b _.
    apply preserves_if; [|now apply preserves_ret].
    eapply preserves_bind; [now apply off_modify|]. intros _ _.
    eapply preserves_bind with (Q := any).
    { unfold cleared_batched.
      eapply preserves_bind; [apply preserves_gets with (Q := any); auto|]. intros l _.
      eapply preserves_bind; [now apply off_modify|]. intros _ _.
      now apply preserves_ret. }
    intros l _. apply preserves_for_each. intros n _.
    eapply preserves_bind; [apply off_get__compute|]. intros c _.
    apply preserves_if; [apply off_Computed__update | now apply preserves_ret].
  - intros st. now apply off_flags.
Qed.

(** A nested [untracked] finds [tracked] off and puts it back off. *)
Lemma off_untracked {A} (callback : M A) :
  preserves I any callback -> preserves I any (untracked callback).
Proof.
  intros Hcb. unfold untracked.
  eapply preserves_bind; [apply off_gets_tracked|]. intros tracking ->.
  eapply preserves_bind with (Q := any).
  { apply preserves_modify. intros st [H1 H2]. now split. }
  intros _ _. apply preserves_try_finally; [exact Hcb|].
  intros st [H1 H2]. now split.
Qed.

End Untracked.

Lemma off_eval (h0 : list object) (fuel : nat) (p : prog) :
  preserves (Tracking_off h0) (fun _ => True) (eval fuel p).
Proof.
  revert p. induction fuel as [|fuel IH]; intros p.
  - intros st _. exact Logic.I.
  - destruct p as [|z|a x|a body|n|n|n e|a b|a b|c t e|a b|j| |body|body|n];
      cbn [eval]; try (now apply preserves_ret).
    + now apply off_get_value.
    + now apply off_peek.
    + eapply preserves_bind; [apply IH|]. intros v _.
      eapply preserves_bind; [now apply off_Signal_value_set|]. intros _ _.
      now apply preserves_ret.
    + eapply preserves_bind; [apply IH|]. intros x _.
      eapply preserves_bind; [apply IH|]. intros y _.
      destruct x as [|x|? ?|? ?]; try apply preserves_raise.
      destruct y as [|y|? ?|? ?]; try apply preserves_raise. now apply preserves_ret.
    + eapply preserves_bind; [apply IH|]. intros x _.
      eapply preserves_bind; [apply IH|]. intros y _.
      destruct x as [|x|? ?|? ?]; try apply preserves_raise.
      destruct y as [|y|? ?|? ?]; try apply preserves_raise. now apply preserves_ret.
    + eapply preserves_bind; [apply IH|]. intros v _. apply preserves_if; apply IH.
    + eapply preserves_bind; [apply IH|]. intros _ _. apply IH.
    + eapply preserves_bind; [apply off_emit|]. intros _ _. now apply preserves_ret.
    + apply preserves_raise.
    + eapply preserves_bind; [|intros _ _; now apply preserves_ret].
      apply off_batch; [exact IH | apply IH].
    + apply off_untracked. apply IH.
    + eapply preserves_bind; [|intros _ _; now apply preserves_ret].
      now apply off_cleanup.
Qed.

(** [untracked(lambda: p)], for any body [p] at any fuel and from any state:
    whether it returns or raises, [tracked] is what it was and every list
    holds only what it held before; nothing has been subscribed to
    anything. *)
Lemma untracked_grows_nothing (fuel : nat) (p : prog) (st : state) :
  after (untracked (eval fuel p) st)
    (fun st' => tracked st' = tracked st /\
                forall n x, x ∈ items_at n st' -> x ∈ items_at n st).
Proof.
  assert (H0 : Tracking_off (heap st) (set_tracked false st)) by (split; [reflexivity | auto]).
  pose proof (off_eval (heap st) fuel p _ H0) as H.
  unfold untracked, bind, try_finally, after. cbn [gets modify].
  destruct (eval fuel p (set_tracked false st)) as [v st'|e st'| |]; try exact Logic.I.
  - destruct H as [[_ H] _]. split; [reflexivity | exact H].
  - destruct H as [_ H]. split; [reflexivity | exact H].
Qed.

Lemma effect_untracked_detached (fuel : nat) (s : ref) l v (st : state) :
  heap st !! s = Some (Signal l v) -> fresh st = true ->
  exists st1,
    effect (eval (2 + fuel)) (Untracked (Get s)) st = Ok (length (heap st)) st1 /\
    (forall n, n < length (heap st) -> heap st1 !! n = heap st !! n) /\
    items_at (length (heap st)) st1 = [] /\
    runs_of (length (heap st)) (trace st1) = S (runs_of (length (heap st)) (trace st)) /\
    detached (length (heap st)) st1 = true.
Proof.
  intros Ho Hfresh. eexists. split; [exact (effect_untracked_read fuel s l v st Ho)|].
  set (fx := length (heap st)) in *.
  unfold fresh in Hfresh. fold fx in Hfresh.
  rewrite !andb_true_iff, !negb_true_iff in Hfresh. destruct Hfresh as [[Hoth Hb] Hc].
  pose proof (proj1 (others_avoid_spec fx (heap st) 0) Hoth) as Hall.
  assert (Hsfx : s <> fx) by (apply Nat.lt_neq; eapply lookup_lt_Some, Ho).
  assert (Hv : value_avoids fx v = true).
  { specialize (Hall s _ Ho Hsfx). unfold object_avoids in Hall.
    now apply andb_true_iff in Hall as [_ Hall]. }
  split; [|split; [|split]].
  - intros n Hn. cbn. now rewrite lookup_app_l.
  - unfold items_at, items_in. cbn. unfold fx. now rewrite lookup_alloc.
  - cbn. rewrite runs_of_app. cbn. rewrite Nat.eqb_refl. lia.
  - unfold detached. rewrite !andb_true_iff, !negb_true_iff.
    split; [split; [split|]|].
    + cbn [heap set_trace set_heap]. unfold fx. rewrite lookup_alloc. exact Hv.
    + cbn [heap set_trace set_heap].
      apply others_avoid_spec. intros n o Hn Hne. cbn in Hne.
      destruct (decide (n < length (heap st))) as [Hlt|Hge].
      * rewrite lookup_app_l in Hn by assumption. now apply (Hall n o).
      * apply lookup_lt_Some in Hn as Hlen. rewrite length_app in Hlen. cbn in Hlen.
        unfold fx in Hne. lia.
    + exact Hb.
    + exact Hc.
Qed.

(** C9: [untracked] runs its callback with [tracked] off and puts the former
    value back whether the callback returns or raises.  With [tracked] off a
    read of a signal returns its value and leaves the whole state as it is;
    so does [untracked(lambda: s.value)] from any state, and whatever the
    body of the callback, no list holds after [untracked] anything it did not
    hold before.  An effect that
    reads [s] only so is listed by nothing after its first run, and no later
    write, nor any callback body, runs it again. *)
Theorem untracked_registers_nothing {A} (callback : M A) (s : ref) l v (st : state) :
  heap st !! s = Some (Signal l v) ->
  (forall a st', callback (set_tracked false st) = Ok a st' ->
     untracked callback st = Ok a (set_tracked (tracked st) st')) /\
  (forall e st', callback (set_tracked false st) = Exn e st' ->
     untracked callback st = Exn e (set_tracked (tracked st) st')) /\
  (tracked st = false -> Signal_value s st = Ok v st) /\
  (forall run, untracked (get_value run s) st = Ok v st) /\
  (forall fuel p st0,
     after (untracked (eval fuel p) st0)
       (fun st' => tracked st' = tracked st0 /\
                   forall n x, x ∈ items_at n st' -> x ∈ items_at n st0)) /\
  (fresh st = true -> forall fuel,
     exists st1,
       effect (eval (2 + fuel)) (Untracked (Get s)) st = Ok (length (heap st)) st1 /\
       (forall n, n < length (heap st) -> heap st1 !! n = heap st !! n) /\
       items_at (length (heap st)) st1 = [] /\
       runs_of (length (heap st)) (trace st1) = S (runs_of (length (heap st)) (trace st)) /\
       (forall fuel' w, value_avoids (length (heap st)) w = true ->
          after (Signal_value_set (eval fuel') s w st1)
            (fun st2 => runs_of (length (heap st)) (trace st2)
                        = runs_of (length (heap st)) (trace st1))) /\
       (forall fuel' p, avoids (length (heap st)) p = true ->
          after (eval fuel' p st1)
            (fun st2 => runs_of (length (heap st)) (trace st2)
                        = runs_of (length (heap st)) (trace st1)))).
Proof.
  intros Ho.
  split; [intros a st'; apply untracked_returns|].
  split; [intros e st'; apply untracked_raises|].
  split; [intros Ht; now apply Signal_value_untracked with (l := l)|].
  split; [intros run; now apply untracked_get_value with (l := l)|].
  split; [intros fuel p st0; apply untracked_grows_nothing|].
  intros Hfresh fuel.
  destruct (effect_untracked_detached fuel s l v st Ho Hfresh)
    as (st1 & Heff & Hsame & Hitems & Hruns & Hd).
  exists st1. repeat (split; [assumption|]). split.
  - intros fuel' w Hw. eapply after_impl.
    + apply detached_write_never_runs; [exact Hd| |exact Hw].
      apply Nat.lt_neq. eapply lookup_lt_Some, Ho.
    + now intros st2 [_ H].
  - intros fuel' p Hp. eapply after_impl.
    + apply detached_never_run; [exact Hd|exact Hp].
    + now intros st2 [_ H].
Qed.

(** [s = signal(1); effect(lambda: untracked(lambda: s.value)); s.value = 2]:
    the effect runs once, at its creation. *)
Lemma untracked_registers_nothing_witness :
  let st := state_of (signal (VInt 1) initial) in
  heap st !! 0 = Some (Signal [] (VInt 1)) /\
  untracked (get_value (eval 3) 0) st = Ok (VInt 1) st /\
  fresh st = true /\
  (exists st1 st2 st3,
     script_untracked (eval 4) initial = Ok (st1, st2) st3 /\
     items_at 0 st1 = [] /\ items_at 1 st1 = [] /\
     trace st1 = [Ran 1] /\ trace st2 = [Ran 1]) /\
  exists st1,
    effect (eval 4) (Untracked (Get 0)) st = Ok 1 st1 /\
    after (Signal_value_set (eval 4) 0 (VInt 2) st1)
      (fun st2 => runs_of 1 (trace st2) = runs_of 1 (trace st1)).
Proof.
  intros st.
  assert (Ho : heap st !! 0 = Some (Signal [] (VInt 1))) by reflexivity.
  destruct (untracked_registers_nothing (ret tt) 0 [] (VInt 1) st Ho)
    as (_ & _ & _ & Hread & _ & Heffect).
  destruct (Heffect eq_refl 2) as (st1 & Heff & _ & _ & _ & Hwrite & _).
  split; [exact Ho|].
  split; [exact (Hread (eval 3))|].
  split; [reflexivity|].
  split; [do 3 eexists; split; [vm_compute; reflexivity|]; repeat split|].
  exists st1. split; [exact Heff|]. exact (Hwrite 4 (VInt 2) eq_refl).
Defined.

(** The defect of [Set.discard] reached through the library: a disposer
    called inside a batch, after the signal [0] was written (and so drained)
    and the computed [1] read again, finds [0] listing [1] but not the effect
    [2]; [discard] then pops [1].  The computed has lost its subscription:
    the write [s.value = 3] does not flag it and its next read returns the
    stale 4. *)
Lemma disposer_discards_other_subscriber :
  exists st0 st1 st2 st3,
    script_dispose_drops_other (eval 8) initial = Ok (st0, st1, st2, VInt 4) st3 /\
    items_at 0 st0 = [1; 2] /\
    mem 1 (items_at 0 st1) = false /\
    dirty 1 st2 = false /\
    heap st2 !! 0 = Some (Signal [2] (VInt 3)).
Proof.
  do 4 eexists. split; [vm_compute; reflexivity|]. repeat split.
Qed.

(** ** Invalidation of effects, and [batch] *)

Lemma entering_flag (self : ref) l f c r s (st : state) :
  heap st !! self = Some (Computed l f c r s) ->
  entering self (set_heap (<[self := Computed l f true r s]> (heap st)) st)
  = entering self st.
Proof.
  intros Ho. unfold entering. cbn [heap set_heap].
  rewrite (lookup_insert_cell _ _ _ _ Ho), Ho. cbn.
  now rewrite list_insert_insert_eq.
Qed.

(** Outside a batch, [_update] of an effect calls its producer on the spot. *)
Lemma Computed__update_effect run (self : ref) l f c r (st : state) :
  heap st !! self = Some (Computed l f c r false) -> synchronous st = true ->
  Computed__update run self st
  = try_finally (v <- call__value run self ;; set__computed self v)
      (set_computing (computing st)) (entering self st).
Proof.
  intros Ho Hs. unfold Computed__update, set__compute, bind. rewrite (load_eq _ _ _ Ho).
  cbn. rewrite Hs. unfold get__subscribe, bind, load. cbn.
  rewrite (lookup_insert_cell _ _ _ _ Ho). cbn.
  rewrite (Computed__run_dirty run self l f r false); [| apply (lookup_insert_cell _ _ _ _ Ho)].
  cbn [computing set_heap]. now rewrite (entering_flag _ _ _ _ _ _ _ Ho).
Qed.

(** Visiting a clean node, or a dirty value-exposing computed, changes
    nothing. *)
Lemma visit_clean run (n : ref) l f r s (st : state) :
  heap st !! n = Some (Computed l f false r s) -> visit run n st = Ok tt st.
Proof. intros Ho. unfold visit, get__compute, bind. now rewrite (load_eq _ _ _ Ho). Qed.

Lemma visit_lazy run (n : ref) l f r (st : state) :
  heap st !! n = Some (Computed l f true r true) -> synchronous st = true ->
  visit run n st = Ok tt st.
Proof.
  intros Ho Hs. unfold visit, get__compute, bind. rewrite (load_eq _ _ _ Ho). cbn.
  rewrite Computed__update_lazy; [| exact Hs | unfold exposing; now rewrite Ho].
  unfold invalidate. rewrite Ho. cbn. now rewrite (set_heap_id _ _ _ Ho).
Qed.

Lemma visit_effect run (n : ref) l f r (st : state) :
  heap st !! n = Some (Computed l f true r false) -> synchronous st = true ->
  visit run n st
  = try_finally (v <- call__value run n ;; set__computed n v)
      (set_computing (computing st)) (entering n st).
Proof.
  intros Ho Hs. unfold visit, get__compute, bind. rewrite (load_eq _ _ _ Ho). cbn [ret].
  now apply Computed__update_effect with (l := l) (f := f) (c := true) (r := r).
Qed.

(** The outermost [batch] whose callback returns: the mode is set back, the
    queue is drained and its nodes are visited in the order they were added. *)
Lemma batch_outermost run (callback : M value) (v : value) (st st1 : state) :
  synchronous st = true ->
  callback (set_synchronous false st) = Ok v st1 ->
  batched st1 <> [] ->
  batch run callback st
  = try_finally (for_each (batched st1) (visit run)) (set_synchronous true)
      (set_batched [] (set_synchronous true st1)).
Proof.
  intros Hs Hcb Hq. unfold batch, try_finally, bind. cbn. rewrite Hs, Hcb.
  destruct (batched st1) as [|n q] eqn:E; [congruence|]. cbn.
  unfold cleared_batched, bind. cbn. now rewrite E.
Qed.

(** A [batch] called inside a batch, or one whose callback left nothing
    pending, only runs its callback and puts the mode back. *)
Lemma batch_no_flush run (callback : M value) (v : value) (st st1 : state) :
  callback (set_synchronous false st) = Ok v st1 ->
  synchronous st = false \/ batched st1 = [] ->
  batch run callback st = Ok tt (set_synchronous (synchronous st) st1).
Proof.
  intros Hcb Hno. unfold batch, try_finally, bind. cbn. rewrite Hcb.
  destruct Hno as [-> | ->]; [reflexivity|].
  cbn. now rewrite andb_false_r.
Qed.

Lemma batch_raises run (callback : M value) (e : exn) (st st1 : state) :
  callback (set_synchronous false st) = Exn e st1 ->
  batch run callback st = Exn e (set_synchronous (synchronous st) st1).
Proof.
  intros Hcb. unfold batch, try_finally, bind. cbn. now rewrite Hcb.
Qed.

(** ** Writes that reach an effect *)

Lemma for_each_app {A} (l1 l2 : list A) (body : A -> M unit) (st : state) :
  for_each (l1 ++ l2) body st = (for_each l1 body ;; for_each l2 body) st.
Proof.
  revert st. induction l1 as [|x l1 IH]; intros st; [reflexivity|].
  cbn [app for_each]. unfold bind. destruct (body x st); try reflexivity.
  rewrite IH. reflexivity.
Qed.


(** A changing write outside a batch to a signal whose dependents before the
    effect [fx] are value-exposing computeds: those are flagged, and then the
    producer of [fx] is called, inside the write; the dependents after [fx]
    follow. *)
Lemma Signal_value_set_effect run (s fx : ref) (pre post : list ref) (cur v : value)
    lf f c r (st : state) :
  heap st !! s = Some (Signal (pre ++ fx :: post) cur) ->
  heap st !! fx = Some (Computed lf f c r false) ->
  is_ cur v = false -> synchronous st = true ->
  forallb (exposing (heap st)) pre = true ->
  let st1 := set_heap (foldl invalidate (<[s := Signal [] v]> (heap st)) pre) st in
  Signal_value_set run s v st
  = (try_finally (w <- call__value run fx ;; set__computed fx w)
       (set_computing (computing st)) ;;
     for_each post (Computed__update run)) (entering fx st1) /\
  trace (entering fx st1) = trace st ++ [Ran fx].
Proof.
  intros Hs Hfx Hne Hsync Hpre st1.
  assert (Hsfx : s <> fx) by (intros ->; congruence).
  assert (Hfx1 : exists c', heap st1 !! fx = Some (Computed lf f c' r false)).
  { unfold st1. cbn [heap set_heap].
    rewrite foldl_invalidate_lookup, list_lookup_insert_ne, Hfx by assumption.
    destruct (mem fx pre); eexists; reflexivity. }
  destruct Hfx1 as [c' Hfx1]. split.
  - rewrite (Signal_value_set_changed _ _ _ _ _ _ Hs Hne), for_each_app.
    unfold bind at 1. rewrite for_each_update_lazy; cbn [heap synchronous set_heap].
    + change (set_heap _ (set_heap _ st)) with st1. cbn [for_each]. unfold bind at 1.
      rewrite (Computed__update_effect run fx lf f c' r st1 Hfx1 Hsync). reflexivity.
    + exact Hsync.
    + etransitivity; [|exact Hpre]. apply forallb_pointwise. intros m.
      eapply exposing_insert_signal, Hs.
  - unfold entering. now rewrite Hfx1.
Qed.



(** C3, as the code has it.  When the callback of the outermost [batch]
    returns with nodes pending, the mode is set back to synchronous, the
    queue is drained and its nodes are visited in the order they were added.
    A node that is clean when visited is skipped; a dirty effect is run on
    the spot; a dirty value-exposing computed is left exactly as it is, still
    dirty, and is not run. *)
Theorem batch_flush run (callback : M value) (v : value) (st st1 : state) :
  synchronous st = true ->
  callback (set_synchronous false st) = Ok v st1 ->
  batched st1 <> [] ->
  batch run callback st
  = try_finally (for_each (batched st1) (visit run)) (set_synchronous true)
      (set_batched [] (set_synchronous true st1)) /\
  (forall n l f r s st',
     heap st' !! n = Some (Computed l f false r s) -> visit run n st' = Ok tt st') /\
  (forall n l f r st',
     heap st' !! n = Some (Computed l f true r true) -> synchronous st' = true ->
     visit run n st' = Ok tt st') /\
  (forall n l f r st',
     heap st' !! n = Some (Computed l f true r false) -> synchronous st' = true ->
     visit run n st'
     = try_finally (w <- call__value run n ;; set__computed n w)
         (set_computing (computing st')) (entering n st') /\
     trace (entering n st') = trace st' ++ [Ran n]).
Proof.
  intros Hs Hcb Hq.
  split; [now apply batch_outermost with (v := v)|].
  split; [intros n l f r s st' Ho; now apply visit_clean with (l := l) (f := f) (r := r) (s := s)|].
  split; [intros n l f r st' Ho Hs'; now apply visit_lazy with (l := l) (f := f) (r := r)|].
  intros n l f r st' Ho Hs'.
  split; [now apply visit_effect with (l := l) (f := f) (r := r)|].
  unfold entering. now rewrite Ho.
Qed.

(** Two effects made pending in the order [3], [2] are run by the flush in
    that order, once each. *)
Lemma batch_flush_witness :
  let st0 := state_of (script_two_effects (eval 6) initial) in
  let stq := state_of (eval 6 flush_order_body (set_synchronous false st0)) in
  let st1 := state_of (batch (eval 6) (eval 6 flush_order_body) st0) in
  synchronous st0 = true /\
  eval 6 flush_order_body (set_synchronous false st0) = Ok VNone stq /\
  batched stq = [3; 2] /\
  trace stq = trace st0 /\
  batch (eval 6) (eval 6 flush_order_body) st0
  = try_finally (for_each (batched stq) (visit (eval 6))) (set_synchronous true)
      (set_batched [] (set_synchronous true stq)) /\
  batch (eval 6) (eval 6 flush_order_body) st0 = Ok tt st1 /\
  trace st1 = trace st0 ++ [Ran 3; Printed 2; Ran 2; Printed 1] /\
  batched st1 = [] /\ synchronous st1 = true.
Proof.
  intros st0 stq st1.
  assert (Hs : synchronous st0 = true) by (vm_compute; reflexivity).
  assert (Hcb : eval 6 flush_order_body (set_synchronous false st0) = Ok VNone stq)
    by (vm_compute; reflexivity).
  assert (Hq : batched stq <> []) by (vm_compute; discriminate).
  split; [exact Hs|]. split; [exact Hcb|].
  split; [vm_compute; reflexivity|]. split; [vm_compute; reflexivity|].
  split; [exact (proj1 (batch_flush (eval 6) (eval 6 flush_order_body) VNone st0 stq Hs Hcb Hq))|].
  split; [vm_compute; reflexivity|]. split; [vm_compute; reflexivity|].
  split; vm_compute; reflexivity.
Defined.

(** C3 as stated fails on a value-exposing computed: [1], subscribed to the
    signal [0], is pending and dirty when the callback of the batch returns,
    and after the flush it is still dirty and has not been run again; it runs
    at the next read. *)
Lemma batch_flush_counterexample :
  (forall fuel, 6 <= fuel ->
     script_flush_lazy (eval fuel) initial = script_flush_lazy (eval 6) initial) /\
  exists st0 st1 st2 st3 stq,
    script_flush_lazy (eval 6) initial = Ok (st0, st1, st2) st3 /\
    eval 6 (Put 0 (Int 2)) (set_synchronous false st0) = Ok VNone stq /\
    batched stq = [1] /\ dirty 1 stq = true /\ exposing (heap stq) 1 = true /\
    batch (eval 6) (eval 6 (Put 0 (Int 2))) st0 = Ok tt st1 /\
    runs_of 1 (trace st0) = 1 /\
    runs_of 1 (trace st1) = 1 /\
    dirty 1 st1 = true /\
    batched st1 = [] /\
    runs_of 1 (trace st2) = 2.
Proof.
  split; [intros fuel Hfuel; eapply script_enough_fuel;
    [apply refines_script_flush_lazy | reflexivity | vm_compute; discriminate | exact Hfuel]|].
  do 5 eexists. split; [vm_compute; reflexivity|].
  split; [vm_compute; reflexivity|]. repeat split.
Qed.

(** ** A branch that is no longer read *)





(** ** Flattening of the dependencies of a computed *)

Lemma bump_length (h : list object) (n x : ref) : length (bump h n x) = length h.
Proof. unfold bump. destruct (h !! n); [apply length_insert | reflexivity]. Qed.

Lemma link_length (c : ref) (h : list object) (s : ref) : length (link c h s) = length h.
Proof. unfold link. now rewrite !bump_length. Qed.

Lemma foldl_link_length (c : ref) (l : list ref) (h : list object) :
  length (foldl (link c) h l) = length h.
Proof.
  revert h. induction l as [|s l IH]; intros h; [reflexivity|].
  cbn [foldl]. now rewrite IH, link_length.
Qed.

Lemma bump_lookup_ne (h : list object) (n x m : ref) :
  n <> m -> bump h n x !! m = h !! m.
Proof.
  intros Hne. unfold bump. destruct (h !! n); [now apply list_lookup_insert_ne | reflexivity].
Qed.

(** A list only grows under [bump]. *)
Lemma bump_items_mono (h : list object) (n x m y : ref) :
  y ∈ items_in h m -> y ∈ items_in (bump h n x) m.
Proof.
  unfold items_in. destruct (decide (n = m)) as [->|Hne].
  - unfold bump. destruct (h !! m) as [o|] eqn:E; [|now rewrite E].
    rewrite (lookup_insert_cell _ _ _ _ E), items_with_items. apply Set_add_mono.
  - now rewrite bump_lookup_ne.
Qed.

Lemma bump_items_here (h : list object) (n x : ref) :
  n < length h -> x ∈ items_in (bump h n x) n.
Proof.
  intros Hn. destruct (lookup_lt_is_Some_2 h n Hn) as [o Ho].
  unfold items_in, bump. rewrite Ho, (lookup_insert_cell _ _ _ _ Ho), items_with_items.
  apply Set_add_elem.
Qed.

Lemma bump_items_inv (h : list object) (n x m y : ref) :
  y ∈ items_in (bump h n x) m -> y ∈ items_in h m \/ (m = n /\ y = x).
Proof.
  unfold items_in. destruct (decide (n = m)) as [->|Hne].
  - unfold bump. destruct (h !! m) as [o|] eqn:E; [|rewrite E; now left].
    rewrite (lookup_insert_cell _ _ _ _ E), items_with_items. intros Hy.
    apply Set_add_elem_inv in Hy as [->|Hy]; auto.
  - rewrite bump_lookup_ne by assumption. now left.
Qed.

Lemma link_items_mono (c : ref) (h : list object) (s m y : ref) :
  y ∈ items_in h m -> y ∈ items_in (link c h s) m.
Proof. intros H. unfold link. now do 2 apply bump_items_mono. Qed.

Lemma link_items_inv (c : ref) (h : list object) (s m y : ref) :
  y ∈ items_in (link c h s) m ->
  y ∈ items_in h m \/ (m = c /\ y = s) \/ (m = s /\ y = c).
Proof.
  unfold link. intros H.
  apply bump_items_inv in H as [H|H]; [|tauto].
  apply bump_items_inv in H as [H|H]; tauto.
Qed.

Lemma link_items_edge (c : ref) (h : list object) (s : ref) :
  c < length h -> s < length h ->
  c ∈ items_in (link c h s) s /\ s ∈ items_in (link c h s) c.
Proof.
  intros Hc Hs. unfold link. split.
  - apply bump_items_here. now rewrite bump_length.
  - apply bump_items_mono. now apply bump_items_here.
Qed.

Lemma foldl_link_items_mono (c : ref) (l : list ref) (h : list object) (m y : ref) :
  y ∈ items_in h m -> y ∈ items_in (foldl (link c) h l) m.
Proof.
  revert h. induction l as [|s l IH]; intros h H; [exact H|].
  cbn [foldl]. now apply IH, link_items_mono.
Qed.

Lemma foldl_link_items_inv (c : ref) (l : list ref) (h : list object) (m y : ref) :
  y ∈ items_in (foldl (link c) h l) m ->
  y ∈ items_in h m \/ (m = c /\ y ∈ l) \/ (m ∈ l /\ y = c).
Proof.
  revert h. induction l as [|s l IH]; intros h H; [now left|].
  cbn [foldl] in H. apply IH in H as [H|[[-> H]|[H ->]]].
  - apply link_items_inv in H as [H|[[-> ->]|[-> ->]]].
    + now left.
    + right; left. split; [reflexivity | apply list_elem_of_here].
    + right; right. split; [apply list_elem_of_here | reflexivity].
  - right; left. split; [reflexivity | now apply list_elem_of_further].
  - right; right. split; [now apply list_elem_of_further | reflexivity].
Qed.

Lemma foldl_link_items_edge (c : ref) (l : list ref) (h : list object) (s : ref) :
  c < length h -> forallb (fun s => Nat.ltb s (length h)) l = true -> s ∈ l ->
  c ∈ items_in (foldl (link c) h l) s /\ s ∈ items_in (foldl (link c) h l) c.
Proof.
  revert h. induction l as [|x l IH]; intros h Hc Hl Hs; [inversion Hs|].
  cbn [foldl forallb] in *. apply andb_true_iff in Hl as [Hx Hl]. apply Nat.ltb_lt in Hx.
  apply elem_of_cons in Hs as [->|Hs].
  - destruct (link_items_edge c h x Hc Hx) as [H1 H2].
    split; now apply foldl_link_items_mono.
  - apply IH; [now rewrite link_length | now rewrite link_length | exact Hs].
Qed.

Lemma foldl_link_lookup (c : ref) (l : list ref) (h : list object) (n : ref) :
  n <> c -> n ∉ l -> foldl (link c) h l !! n = h !! n.
Proof.
  revert h. induction l as [|s l IH]; intros h Hc Hl; [reflexivity|].
  apply not_elem_of_cons in Hl as [Hns Hl]. cbn [foldl].
  rewrite IH by assumption. unfold link.
  rewrite bump_lookup_ne by congruence. now rewrite bump_lookup_ne by congruence.
Qed.

Lemma add_eq (n x : ref) (st : state) :
  n < length (heap st) -> add n x st = Ok tt (set_heap (bump (heap st) n x) st).
Proof.
  intros Hn. destruct (lookup_lt_is_Some_2 _ n Hn) as [o Ho].
  unfold add, bind, bump. now rewrite (load_eq _ _ _ Ho), Ho.
Qed.

(** The loop of [Computed.value] that hands the signals of the computed just
    read over to the computed being evaluated. *)
Lemma for_each_link (c : ref) (l : list ref) (h : list object) (st : state) :
  computing st = Some c -> c < length h ->
  forallb (fun s => Nat.ltb s (length h)) l = true ->
  for_each l (fun signal =>
      c <- gets computing ;;
      match c with
      | Some computing => add computing signal ;; add signal computing
      | None => raise AttributeError
      end) (set_heap h st)
  = Ok tt (set_heap (foldl (link c) h l) st).
Proof.
  intros Hcomp. revert h. induction l as [|s l IH]; intros h Hc Hl;
    cbn [for_each foldl forallb] in *; [reflexivity|].
  apply andb_true_iff in Hl as [Hs Hl]. apply Nat.ltb_lt in Hs.
  unfold bind at 1. unfold bind at 1. cbn [gets computing set_heap]. rewrite Hcomp.
  unfold bind at 1. rewrite add_eq by exact Hc. cbn [heap set_heap].
  rewrite set_heap_set_heap, add_eq by (cbn [heap set_heap]; now rewrite bump_length).
  cbn [heap set_heap]. rewrite set_heap_set_heap.
  fold (link c h s). apply IH; now rewrite link_length.
Qed.


(** ** The subscription graph is bipartite *)

Lemma is_comp_with_items (l : list ref) (o : object) : is_comp (with_items l o) = is_comp o.
Proof. now destruct o as [l0 v0|l0 f0 c0 r0 s0]. Qed.

Lemma classes_lookup (h : list object) (n : ref) (o : object) :
  h !! n = Some o -> classes h !! n = Some (is_comp o).
Proof. intros H. unfold classes. now rewrite list_lookup_fmap, H. Qed.

Lemma classes_insert (h : list object) (n : ref) (o o' : object) :
  h !! n = Some o -> is_comp o' = is_comp o ->
  classes (<[n := o']> h) = classes h.
Proof.
  intros H E. unfold classes. rewrite list_fmap_insert, E.
  apply list_insert_id. now rewrite list_lookup_fmap, H.
Qed.

Section Bipartite.

Variable K : list bool.

Local Abbreviation I := (Bipartite K).
Local Abbreviation any := (fun _ => True).

Local Abbreviation listed_ok := (listed_ok K).

Lemma bipartite_load (n : ref) : preserves I (listed_ok n) (load n).
Proof.
  intros st HI. unfold load. destruct (heap st !! n) as [o|] eqn:E; [|exact Logic.I].
  split; [exact HI|]. split.
  - rewrite <- (bp_classes _ _ HI). now apply classes_lookup.
  - intros x Hx. eapply (bp_items _ _ HI); eassumption.
Qed.

Lemma bipartite_store (n : ref) (o : object) :
  listed_ok n o -> preserves I any (store n o).
Proof.
  intros [Hn Hl] st HI. cbn. split; [|exact Logic.I].
  destruct HI as [H1 H2 H3 H4].
  assert (Hcls : classes (<[n := o]> (heap st)) = K).
  { destruct (heap st !! n) as [o0|] eqn:E.
    - rewrite (classes_insert _ _ o0); [exact H1|exact E|].
      pose proof (classes_lookup _ _ _ E) as Hc. rewrite H1, Hn in Hc. congruence.
    - rewrite list_insert_ge; [exact H1|]. now apply lookup_ge_None. }
  split; cbn; try assumption.
  intros m o' x Hm Hx. apply list_lookup_insert_Some in Hm as [(-> & <- & _)|(_ & Hm)].
  - now apply Hl.
  - eapply H2; eassumption.
Qed.

Lemma listed_ok_with_items (n : ref) (o : object) (l : list ref) :
  listed_ok n o -> (forall x, x ∈ l -> K !! x = Some (negb (is_comp o))) ->
  listed_ok n (with_items l o).
Proof.
  intros [Hn _] Hl. split; rewrite is_comp_with_items; [exact Hn|].
  now rewrite items_with_items.
Qed.

Lemma bipartite_add (n x : ref) :
  (forall b, K !! n = Some b -> K !! x = Some (negb b)) -> preserves I any (add n x).
Proof.
  intros Hx. eapply preserves_bind; [apply bipartite_load|].
  intros o Ho. apply bipartite_store, listed_ok_with_items; [exact Ho|].
  intros y Hy. apply Set_add_elem_inv in Hy as [->|Hy].
  - apply Hx, Ho.
  - now apply Ho.
Qed.

Lemma bipartite_discard (n x : ref) : preserves I any (discard n x).
Proof.
  eapply preserves_bind; [apply bipartite_load|].
  intros o Ho. apply bipartite_store, listed_ok_with_items; [exact Ho|].
  intros y Hy. apply Ho. eapply Set_discard_sublist, Hy.
Qed.

Lemma bipartite_clear (n : ref) : preserves I any (clear n).
Proof.
  eapply preserves_bind; [apply bipartite_load|].
  intros o Ho. apply bipartite_store, listed_ok_with_items; [exact Ho|].
  intros y Hy. inversion Hy.
Qed.

Lemma bipartite_cleared (n : ref) :
  preserves I
    (fun l => forall b, K !! n = Some b -> forall x, x ∈ l -> K !! x = Some (negb b))
    (cleared n).
Proof.
  eapply preserves_bind; [apply bipartite_load|].
  intros o Ho. eapply preserves_bind.
  - apply bipartite_store, listed_ok_with_items; [exact Ho|]. intros y Hy. inversion Hy.
  - intros _ _. apply preserves_ret. intros b Hb x Hx.
    destruct Ho as [Hn Hl]. rewrite Hn in Hb. injection Hb as <-. now apply Hl.
Qed.

Lemma bipartite_cleared_batched :
  preserves I (fun l => forall x, x ∈ l -> K !! x = Some true) cleared_batched.
Proof.
  eapply preserves_bind.
  - apply preserves_gets with (Q := fun l => forall x, x ∈ l -> K !! x = Some true).
    intros st HI. apply HI.
  - intros l Hl. eapply preserves_bind.
    + apply preserves_modify. intros st [H1 H2 H3 H4]. split; cbn; try assumption.
      intros x Hx. inversion Hx.
    + intros _ _. now apply preserves_ret.
Qed.

Lemma bipartite_set_computing (st : state) (c : option ref) :
  I st -> (forall x, c = Some x -> K !! x = Some true) -> I (set_computing c st).
Proof. intros [H1 H2 H3 H4] Hc. now split. Qed.

Lemma bipartite_set_flags (st : state) (f : state -> state) :
  heap (f st) = heap st -> batched (f st) = batched st -> computing (f st) = computing st ->
  I st -> I (f st).
Proof.
  intros Eh Eb Ec [H1 H2 H3 H4]. split; rewrite ?Eh, ?Eb, ?Ec; assumption.
Qed.

Lemma bipartite_emit (e : event) : preserves I any (emit e).
Proof.
  intros st HI. cbn. split; [|exact Logic.I]. now apply bipartite_set_flags.
Qed.

(** Attributes: every setter writes an object of the same class with the same
    list. *)

Lemma bipartite_getter {A} (n : ref) (f : object -> M A) :
  (forall o, preserves I any (f o)) -> preserves I any (o <- load n ;; f o).
Proof.
  intros Hf. eapply preserves_bind; [apply bipartite_load|]. intros o _. apply Hf.
Qed.

Lemma bipartite_get__value (n : ref) : preserves I any (get__value n).
Proof.
  apply bipartite_getter. intros [l v|l f c r s]; [now apply preserves_ret | apply preserves_raise].
Qed.

Lemma bipartite_get__compute (n : ref) :
  preserves I (fun _ => K !! n = Some true) (get__compute n).
Proof.
  eapply preserves_bind; [apply bipartite_load|].
  intros [l v|l f c r s] [Hn _]; [apply preserves_raise | now apply preserves_ret].
Qed.

Lemma bipartite_get__computed (n : ref) : preserves I any (get__computed n).
Proof.
  apply bipartite_getter. intros [l v|l f c r s]; [apply preserves_raise | now apply preserves_ret].
Qed.

Lemma bipartite_get__subscribe (n : ref) : preserves I any (get__subscribe n).
Proof.
  apply bipartite_getter. intros [l v|l f c r s]; [apply preserves_raise | now apply preserves_ret].
Qed.

Lemma bipartite_set__compute (n : ref) (b : bool) : preserves I any (set__compute n b).
Proof.
  eapply preserves_bind; [apply bipartite_load|].
  intros [l v|l f c r s] Ho; [apply preserves_raise|]. now apply bipartite_store.
Qed.

Lemma bipartite_set__computed (n : ref) (v : value) : preserves I any (set__computed n v).
Proof.
  eapply preserves_bind; [apply bipartite_load|].
  intros [l w|l f c r s] Ho; [apply preserves_raise|]. now apply bipartite_store.
Qed.

Lemma bipartite_get_effect_value (n : ref) : preserves I any (get_effect_value n).
Proof.
  apply bipartite_getter.
  intros [l v|l [b|v cb] c r s]; try apply preserves_raise. now apply preserves_ret.
Qed.

Lemma bipartite_set_effect_value (n : ref) (v : value) :
  preserves I any (set_effect_value n v).
Proof.
  eapply preserves_bind; [apply bipartite_load|].
  intros [l w|l [b|w cb] c r s] Ho; try apply preserves_raise. now apply bipartite_store.
Qed.

Lemma bipartite_gets_computing :
  preserves I (fun c => forall x, c = Some x -> K !! x = Some true) (gets computing).
Proof. apply preserves_gets. intros st HI. apply HI. Qed.

(** Registering the edge between the node being computed and a plain
    signal. *)
Lemma bipartite_tracking (signal : ref) :
  K !! signal = Some false ->
  preserves I any
    (c <- gets computing ;;
     match c with
     | Some computing => add computing signal ;; add signal computing
     | None => raise AttributeError
     end).
Proof.
  intros Hsig. eapply preserves_bind; [apply bipartite_gets_computing|].
  intros [c|] Hc; [|apply preserves_raise]. specialize (Hc c eq_refl).
  eapply preserves_bind.
  - apply bipartite_add. intros b Hb. rewrite Hc in Hb. injection Hb as <-. exact Hsig.
  - intros _ _. apply bipartite_add. intros b Hb. rewrite Hsig in Hb. injection Hb as <-.
    exact Hc.
Qed.

Lemma bipartite_Signal_value (self : ref) :
  K !! self = Some false -> preserves I any (Signal_value self).
Proof.
  intros Hself. unfold Signal_value.
  eapply preserves_bind; [apply preserves_gets with (Q := any); auto|]. intros t _.
  eapply preserves_bind; [apply preserves_gets with (Q := any); auto|]. intros c _.
  eapply preserves_bind with (Q := any); [|intros _ _; apply bipartite_get__value].
  apply preserves_if; [now apply bipartite_tracking | now apply preserves_ret].
Qed.

Variable run : prog -> M value.
Hypothesis Hrun : forall p, preserves I any (run p).

Lemma bipartite_call (v : value) : preserves I any (call run v).
Proof. destruct v as [|z|a x|a body]; try apply preserves_raise. apply Hrun. Qed.

Lemma bipartite_call_if_callable (v : value) :
  preserves I any (if callable v then call run v ;; ret tt else ret tt).
Proof.
  apply preserves_if; [|now apply preserves_ret].
  eapply preserves_bind; [apply bipartite_call|]. intros _ _. now apply preserves_ret.
Qed.

Lemma bipartite_effect_effect (self : ref) (callback : prog) :
  preserves I any (effect_effect run self callback).
Proof.
  unfold effect_effect.
  eapply preserves_bind; [apply bipartite_get_effect_value|]. intros v _.
  eapply preserves_bind; [apply bipartite_call_if_callable|]. intros _ _.
  eapply preserves_bind; [apply Hrun|]. intros w _.
  eapply preserves_bind; [apply bipartite_set_effect_value|]. intros _ _.
  now apply preserves_ret.
Qed.

Lemma bipartite_call__value (self : ref) : preserves I any (call__value run self).
Proof.
  apply bipartite_getter. intros [l v|l [body|v cb] c r s].
  - apply preserves_raise.
  - apply Hrun.
  - apply bipartite_effect_effect.
Qed.

Lemma bipartite_Computed__run (self : ref) : preserves I any (Computed__run run self).
Proof.
  unfold Computed__run.
  eapply preserves_bind; [apply bipartite_get__compute|]. intros c Hself.
  apply preserves_if; [|now apply preserves_ret].
  eapply preserves_bind; [apply bipartite_gets_computing|]. intros previously Hprev.
  eapply preserves_bind.
  { apply preserves_modify. intros st HI. apply bipartite_set_computing; [exact HI|].
    intros x Hx. injection Hx as <-. exact Hself. }
  intros _ _.
  eapply preserves_bind; [apply bipartite_set__compute|]. intros _ _.
  eapply preserves_bind; [apply bipartite_clear|]. intros _ _.
  apply preserves_try_finally.
  - eapply preserves_bind; [apply bipartite_emit|]. intros _ _.
    eapply preserves_bind; [apply bipartite_call__value|]. intros r _.
    apply bipartite_set__computed.
  - intros st HI. now apply bipartite_set_computing.
Qed.

Lemma bipartite_Computed__update (self : ref) :
  K !! self = Some true -> preserves I any (Computed__update run self).
Proof.
  intros Hself. unfold Computed__update.
  eapply preserves_bind; [apply bipartite_set__compute|]. intros _ _.
  eapply preserves_bind; [apply preserves_gets with (Q := any); auto|]. intros sync _.
  apply preserves_if.
  - eapply preserves_bind; [apply bipartite_get__subscribe|]. intros s _.
    apply preserves_if; [now apply preserves_ret | apply bipartite_Computed__run].
  - eapply preserves_bind.
    + apply preserves_gets with (Q := fun b => forall x, x ∈ b -> K !! x = Some true).
      intros st HI. apply HI.
    + intros b Hb. apply preserves_modify. intros st [H1 H2 H3 H4].
      split; cbn; try assumption.
      intros x Hx. apply Set_add_elem_inv in Hx as [->|Hx]; auto.
Qed.

Lemma bipartite_Computed_value (self : ref) : preserves I any (Computed_value run self).
Proof.
  unfold Computed_value.
  eapply preserves_bind; [apply bipartite_Computed__run|]. intros _ _.
  eapply preserves_bind.
  { unfold get__subscribe. eapply preserves_bind; [apply bipartite_load|].
    intros [l v|l f c r s] [Hn _]; [apply preserves_raise|].
    apply preserves_ret with (Q := fun _ => K !! self = Some true). exact Hn. }
  intros s Hself.
  eapply preserves_bind; [apply preserves_gets with (Q := any); auto|]. intros t _.
  eapply preserves_bind; [apply preserves_gets with (Q := any); auto|]. intros c _.
  eapply preserves_bind with (Q := any); [|intros _ _; apply bipartite_get__computed].
  apply preserves_if; [|now apply preserves_ret].
  eapply preserves_bind; [apply bipartite_cleared|]. intros l Hl.
  apply preserves_for_each. intros signal Hsig.
  apply bipartite_tracking. exact (Hl true Hself signal Hsig).
Qed.

Lemma bipartite_Computed_peek (self : ref) : preserves I any (Computed_peek run self).
Proof.
  unfold Computed_peek.
  eapply preserves_bind; [apply bipartite_Computed__run|]. intros _ _.
  apply bipartite_get__computed.
Qed.

Lemma bipartite_Signal_value_set (self : ref) (v : value) :
  preserves I any (Signal_value_set run self v).
Proof.
  unfold Signal_value_set.
  eapply preserves_bind; [apply bipartite_load|].
  intros [l cur|l f c r s] Ho; [|apply preserves_raise].
  apply preserves_if; [now apply preserves_ret|].
  eapply preserves_bind; [now apply bipartite_store|]. intros _ _.
  eapply preserves_bind; [apply bipartite_cleared|]. intros l' Hl'.
  apply preserves_for_each. intros x Hx. apply bipartite_Computed__update.
  destruct Ho as [Hn _]. exact (Hl' false Hn x Hx).
Qed.

Lemma bipartite_get_value (n : ref) : preserves I any (get_value run n).
Proof.
  eapply preserves_bind; [apply bipartite_load|].
  intros [l v|l f c r s] [Hn _]; [now apply bipartite_Signal_value | apply bipartite_Computed_value].
Qed.

Lemma bipartite_peek (n : ref) : preserves I any (peek run n).
Proof.
  apply bipartite_getter.
  intros [l v|l f c r s]; [apply bipartite_get__value | apply bipartite_Computed_peek].
Qed.

Lemma bipartite_cleanup (fx : ref) : preserves I any (cleanup run fx).
Proof.
  unfold cleanup.
  eapply preserves_bind; [apply bipartite_cleared|]. intros l _.
  eapply preserves_bind.
  { apply preserves_for_each. intros signal _. apply bipartite_discard. }
  intros _ _.
  eapply preserves_bind; [apply bipartite_get_effect_value|]. intros v _.
  apply bipartite_call_if_callable.
Qed.

Lemma bipartite_batch (callback : M value) :
  preserves I any callback -> preserves I any (batch run callback).
Proof.
  intros Hcb. unfold batch.
  eapply preserves_bind; [apply preserves_gets with (Q := any); auto|]. intros finalize _.
  eapply preserves_bind.
  { apply preserves_modify. intros st HI. now apply bipartite_set_flags. }
  intros _ _. apply preserves_try_finally.
  - eapply preserves_bind; [exact Hcb|]. intros _ _.
    eapply preserves_bind; [apply preserves_gets with (Q := any); auto|]. intros b _.
    apply preserves_if; [|now apply preserves_ret].
    eapply preserves_bind.
    { apply preserves_modify. intros st HI. now apply bipartite_set_flags. }
    intros _ _.
    eapply preserves_bind; [apply bipartite_cleared_batched|]. intros l Hl.
    apply preserves_for_each. intros n Hn.
    eapply preserves_bind; [apply bipartite_get__compute|]. intros c Hc.
    apply preserves_if; [now apply bipartite_Computed__update | now apply preserves_ret].
  - intros st HI. now apply bipartite_set_flags.
Qed.

Lemma bipartite_untracked {A} (callback : M A) :
  preserves I any callback -> preserves I any (untracked callback).
Proof.
  intros Hcb. unfold untracked.
  eapply preserves_bind; [apply preserves_gets with (Q := any); auto|]. intros tracking _.
  eapply preserves_bind.
  { apply preserves_modify. intros st HI. now apply bipartite_set_flags. }
  intros _ _. apply preserves_try_finally; [exact Hcb|].
  intros st HI. now apply bipartite_set_flags.
Qed.

End Bipartite.

Lemma bipartite_arith (I : state -> Prop) (op : Z -> Z -> Z) (a b : value) :
  preserves I (fun _ => True) (arith op a b).
Proof.
  destruct a as [|x|? ?|? ?]; try apply preserves_raise.
  destruct b as [|y|? ?|? ?]; try apply preserves_raise.
  now apply preserves_ret.
Qed.

(** Every callback body, at any fuel, keeps the graph bipartite. *)
Lemma bipartite_eval (K : list bool) (fuel : nat) (p : prog) :
  preserves (Bipartite K) (fun _ => True) (eval fuel p).
Proof.
  revert p. induction fuel as [|fuel IH]; intros p.
  - intros st _. exact Logic.I.
  - destruct p as [|z|a x|a body|n|n|n e|a b|a b|c t e|a b|j| |body|body|n];
      cbn [eval].
    + now apply preserves_ret.
    + now apply preserves_ret.
    + now apply preserves_ret.
    + now apply preserves_ret.
    + now apply bipartite_get_value.
    + now apply bipartite_peek.
    + eapply preserves_bind; [apply IH|]. intros v _.
      eapply preserves_bind; [now apply bipartite_Signal_value_set|]. intros _ _.
      now apply preserves_ret.
    + eapply preserves_bind; [apply IH|]. intros x _.
      eapply preserves_bind; [apply IH|]. intros y _. apply bipartite_arith.
    + eapply preserves_bind; [apply IH|]. intros x _.
      eapply preserves_bind; [apply IH|]. intros y _. apply bipartite_arith.
    + eapply preserves_bind; [apply IH|]. intros v _. apply preserves_if; apply IH.
    + eapply preserves_bind; [apply IH|]. intros _ _. apply IH.
    + eapply preserves_bind; [apply bipartite_emit|]. intros _ _. now apply preserves_ret.
    + apply preserves_raise.
    + eapply preserves_bind; [|intros _ _; now apply preserves_ret].
      apply bipartite_batch; [exact IH | apply IH].
    + apply bipartite_untracked. apply IH.
    + eapply preserves_bind; [|intros _ _; now apply preserves_ret].
      now apply bipartite_cleanup.
Qed.

(** The check and the invariant. *)

Lemma forallb_elem {A} (f : A -> bool) (l : list A) :
  forallb f l = true <-> forall x, x ∈ l -> f x = true.
Proof.
  induction l as [|y l IH]; cbn.
  - split; [intros _ x Hx; inversion Hx | reflexivity].
  - rewrite andb_true_iff, IH. split.
    + intros [Hy Hl] x Hx. apply elem_of_cons in Hx as [->|Hx]; auto.
    + intros H. split; [apply H, list_elem_of_here|].
      intros x Hx. apply H, list_elem_of_further, Hx.
Qed.

Lemma class_decide (K : list bool) (x : ref) (b : bool) :
  bool_decide (K !! x = Some b) = true <-> K !! x = Some b.
Proof. apply bool_decide_eq_true. Qed.

Lemma bipartite_sound (st : state) :
  bipartite st = true -> Bipartite (classes (heap st)) st.
Proof.
  unfold bipartite. rewrite !andb_true_iff. intros [[Hh Hb] Hc].
  split.
  - reflexivity.
  - intros n o x Hn Hx. rewrite forallb_elem in Hh.
    specialize (Hh o (list_elem_of_lookup_2 _ _ _ Hn)). rewrite forallb_elem in Hh.
    apply class_decide, Hh, Hx.
  - intros x Hx. rewrite forallb_elem in Hb. apply class_decide, Hb, Hx.
  - intros c Ec. rewrite Ec in Hc. now apply class_decide.
Qed.

Lemma bipartite_complete (K : list bool) (st : state) :
  Bipartite K st -> bipartite st = true.
Proof.
  intros [H1 H2 H3 H4]. unfold bipartite. rewrite H1, !andb_true_iff. split; [split|].
  - apply forallb_elem. intros o Ho. apply list_elem_of_lookup_1 in Ho as [n Hn].
    apply forallb_elem. intros x Hx. apply class_decide. eapply H2; eassumption.
  - apply forallb_elem. intros x Hx. apply class_decide. now apply H3.
  - destruct (computing st) as [c|]; [|reflexivity]. apply class_decide. now apply H4.
Qed.

Lemma after_bipartite {A} (K : list bool) (m : M A) (st : state) :
  preserves (Bipartite K) (fun _ => True) m -> Bipartite K st ->
  after (m st) (fun st' => bipartite st' = true).
Proof.
  intros Hm HI. eapply after_impl; [eapply after_preserves; eassumption|].
  intros st'. apply bipartite_complete.
Qed.

(** What the invariant means for the lists. *)
Lemma bipartite_computed_lists_signals (st : state) (n : ref) l f c r s (x : ref) :
  bipartite st = true -> heap st !! n = Some (Computed l f c r s) -> x ∈ l ->
  exists l' v, heap st !! x = Some (Signal l' v).
Proof.
  intros Hb Hn Hx. apply bipartite_sound in Hb.
  pose proof (bp_items _ _ Hb n _ x Hn Hx) as Hk. cbn in Hk.
  unfold classes in Hk. rewrite list_lookup_fmap in Hk.
  destruct (heap st !! x) as [[l' v|? ? ? ? ?]|]; try discriminate. now exists l', v.
Qed.

Lemma bipartite_signal_lists_computeds (st : state) (n : ref) l v (x : ref) :
  bipartite st = true -> heap st !! n = Some (Signal l v) -> x ∈ l ->
  exists l' f c r s, heap st !! x = Some (Computed l' f c r s).
Proof.
  intros Hb Hn Hx. apply bipartite_sound in Hb.
  pose proof (bp_items _ _ Hb n _ x Hn Hx) as Hk. cbn in Hk.
  unfold classes in Hk. rewrite list_lookup_fmap in Hk.
  destruct (heap st !! x) as [[? ?|l' f c r s]|]; try discriminate. now exists l', f, c, r, s.
Qed.

(** Allocation of an object that lists nothing. *)
Lemma Bipartite_alloc (K : list bool) (st : state) (o : object) :
  Bipartite K st -> items o = [] ->
  Bipartite (K ++ [is_comp o]) (set_heap (heap st ++ [o]) st).
Proof.
  intros [H1 H2 H3 H4] Ho. split; cbn.
  - unfold classes in *. now rewrite map_app, H1.
  - intros n o' x Hn Hx. apply lookup_app_Some in Hn as [Hn|[_ Hn]].
    + apply lookup_app_l_Some. eapply H2; eassumption.
    + apply list_lookup_singleton_Some in Hn as [_ <-]. rewrite Ho in Hx. inversion Hx.
  - intros x Hx. apply lookup_app_l_Some. now apply H3.
  - intros c Hc. apply lookup_app_l_Some. now apply H4.
Qed.

Lemma bipartite_signal (v : value) (st : state) :
  bipartite st = true -> after (signal v st) (fun st' => bipartite st' = true).
Proof.
  intros Hb. apply bipartite_sound in Hb. cbn.
  eapply bipartite_complete. now apply (Bipartite_alloc (classes (heap st)) st (Signal [] v)).
Qed.

Lemma bipartite_computed (body : prog) (st : state) :
  bipartite st = true -> after (computed body st) (fun st' => bipartite st' = true).
Proof.
  intros Hb. apply bipartite_sound in Hb. cbn.
  eapply bipartite_complete.
  now apply (Bipartite_alloc (classes (heap st)) st (Computed [] (Lambda body) true VNone true)).
Qed.

Lemma bipartite_effect (fuel : nat) (callback : prog) (st : state) :
  bipartite st = true ->
  after (effect (eval fuel) callback st) (fun st' => bipartite st' = true).
Proof.
  intros Hb. apply bipartite_sound in Hb.
  unfold effect. unfold bind at 1. cbn [alloc].
  eapply after_bipartite.
  - eapply preserves_bind.
    + apply bipartite_Computed_value. intros p. apply bipartite_eval.
    + intros _ _. now apply preserves_ret.
  - now apply (Bipartite_alloc (classes (heap st)) st
                 (Computed [] (EffectFn VNone callback) true VNone false)).
Qed.

Lemma bipartite_after_eval (fuel : nat) (p : prog) (st : state) :
  bipartite st = true -> after (eval fuel p st) (fun st' => bipartite st' = true).
Proof.
  intros Hb. eapply after_bipartite; [apply bipartite_eval | now apply bipartite_sound].
Qed.

(** A read of the value-exposing computed [A] while the computed [B] is
    being evaluated.  Once [A] has run and holds the list [lA] of the signals
    it read, the getter drains that list and registers every signal of it
    with [B], both ways: [B] is listed by each of those signals and lists
    them, the list of [A] is left empty, the list of [B] gains nothing but
    signals of [lA], and every other list gains nothing but [B]; no list
    gains [A]. *)
Lemma Computed_value_flattens run (A B : ref) lA f r (st st1 : state) :
  Computed__run run A st = Ok tt st1 ->
  heap st1 !! A = Some (Computed lA f false r true) ->
  tracked st1 = true ->
  computing st1 = Some B ->
  A <> B ->
  mem A lA = false ->
  Nat.ltb B (length (heap st1)) = true ->
  forallb (fun s => Nat.ltb s (length (heap st1))) lA = true ->
  exists st2,
    Computed_value run A st = Ok r st2 /\
    trace st2 = trace st1 /\
    items_at A st2 = [] /\
    (forall s, s ∈ lA -> B ∈ items_at s st2 /\ s ∈ items_at B st2) /\
    (forall y, y ∈ items_at B st2 -> y ∈ items_at B st1 \/ y ∈ lA) /\
    (forall m y, y ∈ items_at m st2 -> m <> B ->
       y ∈ items_at m st1 \/ (m ∈ lA /\ y = B)).
Proof.
  intros Hrun Ho Ht Hc HAB HA HB Hl.
  apply mem_false in HA. apply Nat.ltb_lt in HB.
  set (h0 := <[A := Computed [] f false r true]> (heap st1)).
  assert (Hlen : length h0 = length (heap st1)) by apply length_insert.
  assert (Hh0 : forall m, m <> A -> items_in h0 m = items_in (heap st1) m).
  { intros m Hm. unfold items_in, h0. now rewrite list_lookup_insert_ne by congruence. }
  assert (HA0 : h0 !! A = Some (Computed [] f false r true))
    by apply (lookup_insert_cell _ _ _ _ Ho).
  exists (set_heap (foldl (link B) h0 lA) st1).
  split.
  - unfold Computed_value, bind. rewrite Hrun.
    unfold get__subscribe, bind. rewrite (load_eq _ _ _ Ho). cbn [ret gets].
    rewrite Ht, Hc. cbn [andb]. rewrite bool_decide_true by discriminate.
    unfold cleared, bind. rewrite (load_eq _ _ _ Ho). cbn [store modify ret items with_items].
    fold h0. rewrite (for_each_link B); [| exact Hc | now rewrite Hlen | now rewrite Hlen].
    unfold get__computed, bind, load. cbn [heap set_heap].
    now rewrite foldl_link_lookup, HA0 by assumption.
  - split; [reflexivity|]. unfold items_at. cbn [heap set_heap]. split; [|split; [|split]].
    + unfold items_in. now rewrite foldl_link_lookup, HA0 by assumption.
    + intros s Hs. apply foldl_link_items_edge; [now rewrite Hlen | now rewrite Hlen | exact Hs].
    + intros y Hy. apply foldl_link_items_inv in Hy as [Hy|[[_ Hy]|[Hy ->]]].
      * left. now rewrite <- Hh0 by congruence.
      * now right.
      * now right.
    + intros m y Hy Hm. apply foldl_link_items_inv in Hy as [Hy|[[-> _]|[Hy ->]]].
      * left. destruct (decide (m = A)) as [->|HmA].
        -- unfold items_in in Hy. rewrite HA0 in Hy. inversion Hy.
        -- now rewrite <- Hh0.
      * congruence.
      * now right.
Qed.

(** X13: what flattening does.  A read of the value-exposing computed [A] while
    the computed [B] is being evaluated registers the signals that the list
    of [A] holds at that moment with [B] itself, both ways, leaves the list
    of [A] empty and adds [A] to no list.  Throughout, in every state
    reached from the initial one by creating objects and running callback
    bodies, a computed lists plain signals only and a plain signal lists
    computeds only: no computed is ever subscribed to. *)
Theorem dependency_flattening run (A B : ref) lA f r (st st1 : state) :
  Computed__run run A st = Ok tt st1 ->
  heap st1 !! A = Some (Computed lA f false r true) ->
  tracked st1 = true ->
  computing st1 = Some B ->
  A <> B ->
  mem A lA = false ->
  Nat.ltb B (length (heap st1)) = true ->
  forallb (fun s => Nat.ltb s (length (heap st1))) lA = true ->
  (exists st2,
     Computed_value run A st = Ok r st2 /\
     trace st2 = trace st1 /\
     items_at A st2 = [] /\
     (forall s, s ∈ lA -> B ∈ items_at s st2 /\ s ∈ items_at B st2) /\
     (forall y, y ∈ items_at B st2 -> y ∈ items_at B st1 \/ y ∈ lA) /\
     (forall m y, y ∈ items_at m st2 -> m <> B ->
        y ∈ items_at m st1 \/ (m ∈ lA /\ y = B))) /\
  bipartite initial = true /\
  (forall st' v, bipartite st' = true ->
     after (signal v st') (fun st'' => bipartite st'' = true)) /\
  (forall st' body, bipartite st' = true ->
     after (computed body st') (fun st'' => bipartite st'' = true)) /\
  (forall st' fuel callback, bipartite st' = true ->
     after (effect (eval fuel) callback st') (fun st'' => bipartite st'' = true)) /\
  (forall st' fuel p, bipartite st' = true ->
     after (eval fuel p st') (fun st'' => bipartite st'' = true)) /\
  (forall st' n l f' c r' s x,
     bipartite st' = true -> heap st' !! n = Some (Computed l f' c r' s) -> x ∈ l ->
     exists l' v, heap st' !! x = Some (Signal l' v)) /\
  (forall st' n l v x,
     bipartite st' = true -> heap st' !! n = Some (Signal l v) -> x ∈ l ->
     exists l' f' c r' s, heap st' !! x = Some (Computed l' f' c r' s)).
Proof.
  intros Hrun Ho Ht Hc HAB HA HB Hl.
  split; [now apply Computed_value_flattens with (lA := lA) (f := f) (st1 := st1)|].
  split; [reflexivity|].
  split; [intros st' v; apply bipartite_signal|].
  split; [intros st' body; apply bipartite_computed|].
  split; [intros st' fuel callback; apply bipartite_effect|].
  split; [intros st' fuel p; apply bipartite_after_eval|].
  split.
  - intros st' n l f' c r' s x. apply bipartite_computed_lists_signals.
  - intros st' n l v x. apply bipartite_signal_lists_computeds.
Qed.

(** [S = signal(1); A = computed(lambda: S.value); B = computed(lambda: A.value + 1)]
    (objects 0, 1, 2), with [B] the first reader of [A].  While [B] is being
    computed, the read of [A] leaves [S] listing [A] and [B], [B] listing
    [S], and [A] listing nothing; after [S] changes, the next read of [B]
    recomputes it. *)
Lemma dependency_flattening_witness :
  let st0 := state_of (script_chain initial) in
  let st := entering 2 st0 in
  let st1 := state_of (Computed__run (eval 6) 1 st) in
  let st3 := state_of (get_value (eval 6) 2 st0) in
  let st4 := state_of (Signal_value_set (eval 6) 0 (VInt 5) st3) in
  let st5 := state_of (get_value (eval 6) 2 st4) in
  Computed__run (eval 6) 1 st = Ok tt st1 /\
  heap st1 !! 1 = Some (Computed [0] (Lambda (Get 0)) false (VInt 1) true) /\
  (exists st2,
     Computed_value (eval 6) 1 st = Ok (VInt 1) st2 /\
     trace st2 = trace st1 /\
     items_at 1 st2 = [] /\
     (forall s, s ∈ [0] -> 2 ∈ items_at s st2 /\ s ∈ items_at 2 st2) /\
     (forall y, y ∈ items_at 2 st2 -> y ∈ items_at 2 st1 \/ y ∈ [0]) /\
     (forall m y, y ∈ items_at m st2 -> m <> 2 ->
        y ∈ items_at m st1 \/ (m ∈ [0] /\ y = 2))) /\
  bipartite st3 = true /\
  get_value (eval 6) 2 st0 = Ok (VInt 2) st3 /\
  items_at 0 st3 = [1; 2] /\ items_at 1 st3 = [] /\ items_at 2 st3 = [0] /\
  Signal_value_set (eval 6) 0 (VInt 5) st3 = Ok tt st4 /\
  dirty 2 st4 = true /\ trace st4 = trace st3 /\
  get_value (eval 6) 2 st4 = Ok (VInt 6) st5 /\
  runs_of 2 (trace st3) = 1 /\ runs_of 2 (trace st5) = 2.
Proof.
  intros st0 st st1 st3 st4 st5.
  assert (Hrun : Computed__run (eval 6) 1 st = Ok tt st1) by (vm_compute; reflexivity).
  assert (Ho : heap st1 !! 1 = Some (Computed [0] (Lambda (Get 0)) false (VInt 1) true))
    by (vm_compute; reflexivity).
  split; [exact Hrun|]. split; [exact Ho|].
  split.
  { apply (dependency_flattening (eval 6) 1 2 [0] (Lambda (Get 0)) (VInt 1) st st1 Hrun Ho);
      try (vm_compute; reflexivity). discriminate. }
  split; [vm_compute; reflexivity|].
  repeat (split; [vm_compute; reflexivity|]). vm_compute; reflexivity.
Defined.

(** C7: the list of [A] is drained by its first reader, so a second reader
    of the still clean [A] is registered with nothing.  In
    [S = signal(1); A = computed(lambda: S.value);
     B = computed(lambda: A.value + 1); C = computed(lambda: A.value + 2)]
    (objects 0 to 3) the reads [B.value], [C.value] return 2 and 3 and leave
    [S] listing [A] and [B] only and [C] listing nothing; [S.value = 5] flags
    [B] but not [C]; then [B.value] recomputes to 6 while [C.value] returns
    the stale 3 without running the producer of [C].  In the same way, of two
    effects reading [A], only the first is run again by a write to [S].
    More fuel changes neither run. *)
Theorem second_reader_not_subscribed :
  (exists st1 st2 st3,
     script_second_reader (eval 6) initial
     = Ok (VInt 2, VInt 3, st1, st2, VInt 6, VInt 3) st3 /\
     items_at 0 st1 = [1; 2] /\ items_at 1 st1 = [] /\
     items_at 2 st1 = [0] /\ items_at 3 st1 = [] /\
     dirty 2 st2 = true /\ dirty 3 st2 = false /\
     runs_of 1 (trace st3) = 2 /\ runs_of 2 (trace st3) = 2 /\
     runs_of 3 (trace st3) = 1 /\ dirty 3 st3 = false /\ bipartite st3 = true) /\
  (forall fuel, 6 <= fuel ->
     script_second_reader (eval fuel) initial = script_second_reader (eval 6) initial) /\
  (exists st1 st2,
     script_second_effect (eval 6) initial = Ok (st1, 2, 3) st2 /\
     items_at 0 st1 = [1; 2] /\ items_at 3 st1 = [] /\
     trace st1 = [Ran 2; Ran 1; Printed 1; Ran 3; Printed 2] /\
     trace st2 = trace st1 ++ [Ran 2; Ran 1; Printed 1] /\
     runs_of 3 (trace st2) = 1) /\
  (forall fuel, 6 <= fuel ->
     script_second_effect (eval fuel) initial = script_second_effect (eval 6) initial).
Proof.
  split; [|split; [|split]].
  - do 3 eexists. split; [vm_compute; reflexivity|].
    repeat (split; [vm_compute; reflexivity|]). vm_compute; reflexivity.
  - intros fuel Hfuel. eapply script_enough_fuel;
      [apply refines_script_second_reader | reflexivity | vm_compute; discriminate | exact Hfuel].
  - do 2 eexists. split; [vm_compute; reflexivity|].
    repeat (split; [vm_compute; reflexivity|]). vm_compute; reflexivity.
  - intros fuel Hfuel. eapply script_enough_fuel;
      [apply refines_script_second_effect | reflexivity | vm_compute; discriminate | exact Hfuel].
Qed.

(** * Further properties of the code *)

(** ** [Set.add] and [Set.discard] as an ordered set *)

Lemma pop_NoDup (l : list ref) (i : nat) : NoDup l -> NoDup (pop l i).
Proof.
  revert i. induction l as [|y l IH]; intros i Hl; [exact Hl|].
  apply NoDup_cons in Hl as [Hy Hl]. destruct i as [|i]; cbn [pop]; [exact Hl|].
  apply NoDup_cons. split; [|now apply IH].
  intros H. apply Hy, (pop_sublist _ _ _ H).
Qed.

Lemma Set_discard_NoDup (l : list ref) (x : ref) : NoDup l -> NoDup (Set_discard l x).
Proof.
  intros Hl. unfold Set_discard.
  destruct (Z.eqb (discard_loop l x (-1)) (-1)); [exact Hl | now apply pop_NoDup].
Qed.

Lemma pop_length (l : list ref) (i : nat) : i < length l -> length (pop l i) = length l - 1.
Proof.
  revert i. induction l as [|y l IH]; intros i Hi; [cbn in Hi; lia|].
  destruct i as [|i]; cbn [pop length] in *; [lia|].
  rewrite IH by lia. lia.
Qed.

Lemma discard_loop_range (l : list ref) (x : ref) (i : Z) :
  l <> [] -> (i < discard_loop l x i <= i + Z.of_nat (length l))%Z.
Proof.
  revert i. induction l as [|y l IH]; intros i Hl; [congruence|].
  cbn [discard_loop length]. destruct (Nat.eqb y x); [lia|].
  destruct l as [|z l]; [cbn [discard_loop length]; lia|].
  specialize (IH (i + 1)%Z ltac:(discriminate)). cbn [length] in *. lia.
Qed.

(** X1: [Set.add] leaves the list as it is when it holds the value and
    appends the value at the end when it does not; so the items are those of
    the list plus the value, a list without duplicates stays so, the order
    of insertion is kept, and adding twice is adding once. *)
Theorem Set_add_ordered_set (l : list ref) (x : ref) :
  (x ∈ l -> Set_add l x = l) /\
  ((x ∉ l) -> Set_add l x = l ++ [x]) /\
  (forall y, y ∈ Set_add l x <-> y ∈ l \/ y = x) /\
  (NoDup l -> NoDup (Set_add l x)) /\
  Set_add (Set_add l x) x = Set_add l x.
Proof.
  split; [apply Set_add_present|]. split; [apply Set_add_absent|].
  split; [|split; [apply Set_add_NoDup | apply Set_add_idem]].
  intros y. split.
  - intros H. apply Set_add_elem_inv in H as [->|H]; auto.
  - intros [H| ->]; [now apply Set_add_mono | apply Set_add_elem].
Qed.

(** X2: [Set.discard] of a value the list holds removes its first occurrence
    and keeps the rest in order; it undoes the [add] of a value that was not
    there; from a list without duplicates the value is gone afterwards and
    no duplicate appears; it never adds an item, does nothing to the empty
    list, and whenever the list is not empty it removes exactly one item. *)
Theorem Set_discard_first_occurrence (l : list ref) (x : ref) :
  (forall l1 l2, l = l1 ++ x :: l2 -> (x ∉ l1) -> Set_discard l x = l1 ++ l2) /\
  ((x ∉ l) -> Set_discard (Set_add l x) x = l) /\
  (NoDup l -> (x ∉ Set_discard l x) /\ NoDup (Set_discard l x)) /\
  (forall y, y ∈ Set_discard l x -> y ∈ l) /\
  (l = [] -> Set_discard l x = []) /\
  (l <> [] -> length (Set_discard l x) = length l - 1).
Proof.
  split; [intros l1 l2 -> H; now apply Set_discard_present|].
  split.
  { intros H. rewrite (Set_add_absent _ _ H).
    rewrite (Set_discard_present l [] x H). apply app_nil_r. }
  split; [intros H; split; [now apply Set_discard_gone | now apply Set_discard_NoDup]|].
  split; [intros y; apply Set_discard_sublist|].
  split; [now intros ->|].
  intros Hl. unfold Set_discard.
  pose proof (discard_loop_range l x (-1) Hl) as Hr.
  destruct (Z.eqb_spec (discard_loop l x (-1)) (-1)) as [E|_]; [lia|].
  apply pop_length. lia.
Qed.

(** ** A tracked read of a signal *)

Lemma bump_kind (h : list object) (n x m : ref) :
  with_items [] <$> bump h n x !! m = with_items [] <$> h !! m.
Proof.
  destruct (decide (n = m)) as [->|Hne]; [|now rewrite bump_lookup_ne].
  unfold bump. destruct (h !! m) as [o|] eqn:E; [|now rewrite E].
  rewrite (lookup_insert_cell _ _ _ _ E). cbn.
  now destruct o as [l0 v0|l0 f0 c0 r0 s0].
Qed.

Lemma link_kind (c : ref) (h : list object) (s m : ref) :
  with_items [] <$> link c h s !! m = with_items [] <$> h !! m.
Proof. unfold link. now rewrite !bump_kind. Qed.

Lemma bump_present (h : list object) (n x : ref) :
  x ∈ items_in h n -> bump h n x = h.
Proof.
  unfold items_in, bump. destruct (h !! n) as [o|] eqn:E; [|reflexivity].
  intros Hx. rewrite (Set_add_present _ _ Hx).
  apply list_insert_id. rewrite E. now destruct o as [l0 v0|l0 f0 c0 r0 s0].
Qed.

Lemma Signal_value_tracked (s c : ref) l v (st : state) :
  heap st !! s = Some (Signal l v) ->
  tracked st = true -> computing st = Some c -> c < length (heap st) ->
  Signal_value s st = Ok v (set_heap (link c (heap st) s) st).
Proof.
  intros Ho Ht Hc Hlt.
  assert (Hs : s < length (heap st)) by (eapply lookup_lt_Some, Ho).
  unfold Signal_value, bind. cbn [gets]. rewrite Ht, Hc. cbn [andb].
  rewrite bool_decide_true by discriminate. rewrite Hc.
  rewrite add_eq by assumption.
  rewrite add_eq by (cbn [heap set_heap]; now rewrite bump_length).
  cbn [heap set_heap]. fold (link c (heap st) s).
  pose proof (link_kind c (heap st) s s) as Hk. rewrite Ho in Hk. cbn in Hk.
  unfold get__value, bind, load. cbn [heap set_heap].
  destruct (link c (heap st) s !! s) as [[l' v'|l' f' c' r' s']|]; try discriminate.
  cbn in Hk. now inversion Hk.
Qed.

(** X3: a read of the signal [s] while the node [c] is being computed and
    tracking is on returns the value of [s] and records the edge both ways:
    [s] lists [c] and [c] lists [s].  No other item enters any list, nothing
    but the two lists changes, and a second read changes nothing at all. *)
Theorem Signal_value_subscribes (s c : ref) l v (st : state) :
  heap st !! s = Some (Signal l v) ->
  tracked st = true -> computing st = Some c -> c < length (heap st) ->
  exists h1,
    Signal_value s st = Ok v (set_heap h1 st) /\
    c ∈ items_in h1 s /\ s ∈ items_in h1 c /\
    (forall m y, y ∈ items_in h1 m <->
                 y ∈ items_at m st \/ (m = c /\ y = s) \/ (m = s /\ y = c)) /\
    (forall m, with_items [] <$> h1 !! m = with_items [] <$> heap st !! m) /\
    Signal_value s (set_heap h1 st) = Ok v (set_heap h1 st).
Proof.
  intros Ho Ht Hc Hlt.
  assert (Hs : s < length (heap st)) by (eapply lookup_lt_Some, Ho).
  destruct (link_items_edge c (heap st) s Hlt Hs) as [Hcs Hsc].
  exists (link c (heap st) s).
  split; [now apply Signal_value_tracked with (l := l)|].
  split; [exact Hcs|]. split; [exact Hsc|]. split; [|split].
  - intros m y. split; [apply link_items_inv|].
    intros [H|[[-> ->]|[-> ->]]]; [now apply link_items_mono | exact Hsc | exact Hcs].
  - intros m. apply link_kind.
  - pose proof (link_kind c (heap st) s s) as Hk. rewrite Ho in Hk.
    destruct (link c (heap st) s !! s) as [[l' v'|l' f' c' r' s']|] eqn:E;
      cbn in Hk; try discriminate. inversion Hk; subst v'.
    rewrite (Signal_value_tracked s c l' v (set_heap (link c (heap st) s) st));
      cbn [heap set_heap tracked computing]; try assumption.
    + f_equal. unfold link at 1.
      rewrite (bump_present _ c s) by exact Hsc.
      rewrite (bump_present _ s c) by exact Hcs. now destruct st.
    + now rewrite link_length.
Qed.

(** [s = signal(1)] and a computed [c] (objects 0 and 1), in the state in
    which the producer of [c] is called: the read registers [c] with [s] and
    [s] with [c]. *)
Lemma Signal_value_subscribes_witness :
  let st := entering 1 (state_of (script_raising initial)) in
  exists h1,
    Signal_value 0 st = Ok (VInt 1) (set_heap h1 st) /\
    1 ∈ items_in h1 0 /\ 0 ∈ items_in h1 1 /\
    (forall m y, y ∈ items_in h1 m <->
                 y ∈ items_at m st \/ (m = 1 /\ y = 0) \/ (m = 0 /\ y = 1)) /\
    (forall m, with_items [] <$> h1 !! m = with_items [] <$> heap st !! m) /\
    Signal_value 0 (set_heap h1 st) = Ok (VInt 1) (set_heap h1 st).
Proof.
  intros st.
  apply (Signal_value_subscribes 0 1 [] (VInt 1) st); try reflexivity.
  vm_compute. lia.
Defined.

(** ** A producer that reads its own computed *)




(** ** Runs of an effect *)

(** The state in which [effect(callback)] calls [callback] for the first
    time: the new object is in the heap, clean, and is the node being
    computed. *)
Lemma entering_alloc (o : object) l f c r s (st : state) :
  o = Computed l f c r s ->
  entering (length (heap st)) (set_heap (heap st ++ [o]) st)
  = set_trace (trace st ++ [Ran (length (heap st))])
      (set_heap (heap st ++ [Computed [] f false r s])
         (set_computing (Some (length (heap st))) st)).
Proof.
  intros ->. unfold entering. cbn [heap set_heap]. rewrite lookup_alloc.
  cbn. now rewrite insert_alloc.
Qed.

(** The inner function [effect]: the stored cleanup, when there is one, then
    the callback, whose result is stored. *)
Lemma call__value_effect run (fx : ref) l v cb c r s (st : state) :
  heap st !! fx = Some (Computed l (EffectFn v cb) c r s) ->
  call__value run fx st
  = ((if callable v then call run v ;; ret tt else ret tt) ;;
     w <- run cb ;; set_effect_value fx w ;; ret VNone) st.
Proof.
  intros Ho. unfold call__value, bind. rewrite (load_eq _ _ _ Ho).
  unfold effect_effect, get_effect_value, bind. now rewrite (load_eq _ _ _ Ho).
Qed.

Lemma set_effect_value_eq (fx : ref) l v cb c r s (w : value) (st : state) :
  heap st !! fx = Some (Computed l (EffectFn v cb) c r s) ->
  set_effect_value fx w st
  = Ok tt (set_heap (<[fx := Computed l (EffectFn w cb) c r s]> (heap st)) st).
Proof. intros Ho. unfold set_effect_value, bind. now rewrite (load_eq _ _ _ Ho). Qed.

Lemma effect_returns run (cb : prog) (st st2 : state) (w : value) l2 v2 cb2 c2 r2 :
  run cb (born cb st) = Ok w st2 ->
  heap st2 !! length (heap st) = Some (Computed l2 (EffectFn v2 cb2) c2 r2 false) ->
  effect run cb st
  = Ok (length (heap st))
      (set_computing (computing st)
         (set_heap (<[length (heap st) := Computed l2 (EffectFn w cb2) c2 VNone false]>
                      (heap st2)) st2)).
Proof.
  intros Hrun Ho2. set (fx := length (heap st)) in *.
  set (o := Computed [] (EffectFn VNone cb) true VNone false).
  set (st0 := set_heap (heap st ++ [o]) st).
  assert (Hfx : heap st0 !! fx = Some o) by apply lookup_alloc.
  assert (Hen : entering fx st0 = born cb st)
    by (now apply entering_alloc with (l := []) (c := true)).
  assert (Hb : heap (born cb st) !! fx
               = Some (Computed [] (EffectFn VNone cb) false VNone false))
    by apply lookup_alloc.
  set (st2' := set_heap (<[fx := Computed l2 (EffectFn w cb2) c2 r2 false]> (heap st2)) st2).
  assert (Hcall : call__value run fx (entering fx st0) = Ok VNone st2').
  { rewrite Hen, (call__value_effect _ _ _ _ _ _ _ _ _ Hb). unfold bind. cbn [callable ret].
    rewrite Hrun. now rewrite (set_effect_value_eq _ _ _ _ _ _ _ _ _ Ho2). }
  assert (Ho2' : heap st2' !! fx = Some (Computed l2 (EffectFn w cb2) c2 r2 false))
    by apply (lookup_insert_cell _ _ _ _ Ho2).
  unfold effect, bind, alloc. fold fx o st0.
  rewrite (Computed_value_dirty run fx _ _ _ _ st0 st2' VNone _ _ _ _ Hfx Hcall Ho2' eq_refl).
  unfold st2'. cbn [heap set_heap computing ret]. now rewrite list_insert_insert_eq.
Qed.




(** X6: a run of an effect (here by its invalidation outside a batch) first
    calls the cleanup its previous run returned, when that is callable, then
    the callback, in the state the cleanup left, and stores what the
    callback returns as the next cleanup.  When the stored cleanup raises the
    callback is not called; in every case the effect is left clean (its flag
    was cleared before the call) and [computing] is put back. *)
Theorem effect_rerun run (fx : ref) l v cb c r (st : state) :
  heap st !! fx = Some (Computed l (EffectFn v cb) c r false) ->
  synchronous st = true ->
  (forall a body e st1,
     v = VFun a body -> run body (entering fx st) = Exn e st1 ->
     Computed__update run fx st = Exn e (set_computing (computing st) st1)) /\
  (forall st1,
     (callable v = false /\ st1 = entering fx st) \/
     (exists a body u, v = VFun a body /\ run body (entering fx st) = Ok u st1) ->
     (forall w st2 l2 v2 cb2 c2 r2 s2,
        run cb st1 = Ok w st2 ->
        heap st2 !! fx = Some (Computed l2 (EffectFn v2 cb2) c2 r2 s2) ->
        Computed__update run fx st
        = Ok tt (set_computing (computing st)
                   (set_heap (<[fx := Computed l2 (EffectFn w cb2) c2 VNone s2]> (heap st2))
                      st2))) /\
     (forall e st2,
        run cb st1 = Exn e st2 ->
        Computed__update run fx st = Exn e (set_computing (computing st) st2))) /\
  dirty fx (entering fx st) = false.
Proof.
  intros Ho Hs.
  pose proof (entering_lookup _ _ _ _ _ _ _ Ho) as He.
  rewrite (Computed__update_effect run fx l _ c r st Ho Hs).
  pose proof (call__value_effect run _ _ _ _ _ _ _ _ He) as Hcall.
  split; [|split].
  - intros a body e st1 -> Hrun.
    unfold try_finally, bind at 1. rewrite Hcall. unfold bind. cbn [callable call].
    now rewrite Hrun.
  - intros st1 Hclean.
    assert (Hpre : (if callable v then call run v ;; ret tt else ret tt) (entering fx st)
                   = Ok tt st1).
    { destruct Hclean as [[Hv ->]|(a & body & u & -> & Hrun)].
      - now rewrite Hv.
      - cbn [callable call]. unfold bind. now rewrite Hrun. }
    split.
    + intros w st2 l2 v2 cb2 c2 r2 s2 Hrun Ho2.
      unfold try_finally, bind at 1. rewrite Hcall. unfold bind at 1. rewrite Hpre.
      unfold bind at 1. rewrite Hrun.
      unfold bind at 1. rewrite (set_effect_value_eq _ _ _ _ _ _ _ _ _ Ho2). cbn [ret].
      unfold set__computed, bind, load. cbn [heap set_heap].
      rewrite (lookup_insert_cell _ _ _ _ Ho2). cbn [store modify heap set_heap].
      now rewrite list_insert_insert_eq.
    + intros e st2 Hrun.
      unfold try_finally, bind at 1. rewrite Hcall. unfold bind at 1. rewrite Hpre.
      unfold bind at 1. now rewrite Hrun.
  - unfold dirty. now rewrite He.
Qed.

(** [s = signal(1); effect(lambda: (s.value, print(7), lambda: print(9)))]
    (objects 0 and 1): the invalidation of the effect prints 9, by the stored
    cleanup, then 7, by the callback. *)
Lemma effect_rerun_witness :
  let cb := Seq (Get 0) (Seq (Print 7) (Fun 0 (Print 9))) in
  let st := state_of (script_effect_with_cleanup (eval 6) initial) in
  let st1 := state_of (eval 6 (Print 9) (entering 1 st)) in
  let st2 := state_of (eval 6 cb st1) in
  heap st !! 1 = Some (Computed [0] (EffectFn (VFun 0 (Print 9)) cb) false VNone false) /\
  eval 6 (Print 9) (entering 1 st) = Ok VNone st1 /\
  eval 6 cb st1 = Ok (VFun 0 (Print 9)) st2 /\
  Computed__update (eval 6) 1 st
  = Ok tt (set_computing (computing st)
             (set_heap (<[1 := Computed [0] (EffectFn (VFun 0 (Print 9)) cb) false VNone false]>
                          (heap st2)) st2)) /\
  trace st = [Ran 1; Printed 7] /\
  trace st2 = [Ran 1; Printed 7; Ran 1; Printed 9; Printed 7].
Proof.
  intros cb st st1 st2.
  assert (Ho : heap st !! 1
               = Some (Computed [0] (EffectFn (VFun 0 (Print 9)) cb) false VNone false))
    by (vm_compute; reflexivity).
  assert (H1 : eval 6 (Print 9) (entering 1 st) = Ok VNone st1) by (vm_compute; reflexivity).
  assert (H2 : eval 6 cb st1 = Ok (VFun 0 (Print 9)) st2) by (vm_compute; reflexivity).
  assert (Ho2 : heap st2 !! 1
                = Some (Computed [0] (EffectFn (VFun 0 (Print 9)) cb) false VNone false))
    by (vm_compute; reflexivity).
  destruct (effect_rerun (eval 6) 1 _ _ _ _ _ st Ho eq_refl) as (_ & H & _).
  split; [exact Ho|]. split; [exact H1|]. split; [exact H2|].
  split; [|split; vm_compute; reflexivity].
  apply (proj1 (H st1 (or_intror (ex_intro _ 0 (ex_intro _ (Print 9) (ex_intro _ VNone
                   (conj eq_refl H1)))))) _ _ _ _ _ _ _ _ H2 Ho2).
Defined.

(** ** Calling the disposer again *)

Lemma cleanup_drained run (fx : ref) v cb c r s (st : state) :
  heap st !! fx = Some (Computed [] (EffectFn v cb) c r s) ->
  cleanup run fx st = (if callable v then call run v ;; ret tt else ret tt) st.
Proof.
  intros Ho. unfold cleanup, cleared, bind at 1 2 3. rewrite (load_eq _ _ _ Ho).
  cbn [items with_items store modify ret for_each]. rewrite (set_heap_id _ _ _ Ho).
  unfold bind at 1. cbn [ret]. unfold get_effect_value, bind at 1 2.
  now rewrite (load_eq _ _ _ Ho).
Qed.

(** X7: the disposer drains the list of the effect, so a second call of it
    finds nothing to discard and touches no list; what it does is call the
    stored cleanup once more.  With no callable cleanup stored the second
    call changes nothing at all. *)
Theorem disposer_twice run (fx : ref) l v cb c r s (st : state) :
  subscribed fx st = true ->
  heap st !! fx = Some (Computed l (EffectFn v cb) c r s) ->
  heap (severed fx st) !! fx = Some (Computed [] (EffectFn v cb) c r s) /\
  (callable v = false ->
     cleanup run fx st = Ok tt (severed fx st) /\
     cleanup run fx (severed fx st) = Ok tt (severed fx st)) /\
  (forall a body u st1,
     v = VFun a body -> run body (severed fx st) = Ok u st1 ->
     heap st1 !! fx = Some (Computed [] (EffectFn v cb) c r s) ->
     cleanup run fx st = Ok tt st1 /\
     cleanup run fx st1 = (run body ;; ret tt) st1).
Proof.
  intros Hsub Ho.
  pose proof (det_self _ _ _ _ (severed_Detached _ _ _ _ _ _ _ _ Hsub Ho)) as Hs.
  pose proof (cleanup_severs run _ _ Hsub) as H1.
  unfold get_effect_value, bind at 1 2 in H1. rewrite (load_eq _ _ _ Hs) in H1. cbn [ret] in H1.
  split; [exact Hs|]. split.
  - intros Hv. rewrite Hv in H1. split; [exact H1|].
    rewrite (cleanup_drained run _ _ _ _ _ _ _ Hs). now rewrite Hv.
  - intros a body u st1 -> Hrun Ho1. cbn [callable call] in H1. split.
    + rewrite H1. unfold bind. now rewrite Hrun.
    + now rewrite (cleanup_drained run _ _ _ _ _ _ _ Ho1).
Qed.

(** The effect of [script_effect_with_cleanup] (object 1, subscribed to the
    signal 0, its stored cleanup printing 9): each of two calls of the
    disposer prints 9; the second leaves every list as the first left it. *)
Lemma disposer_twice_witness :
  let cb := Seq (Get 0) (Seq (Print 7) (Fun 0 (Print 9))) in
  let st := state_of (script_effect_with_cleanup (eval 6) initial) in
  let st1 := state_of (cleanup (eval 6) 1 st) in
  let st2 := state_of (cleanup (eval 6) 1 st1) in
  subscribed 1 st = true /\
  cleanup (eval 6) 1 st = Ok tt st1 /\
  cleanup (eval 6) 1 st1 = (eval 6 (Print 9) ;; ret tt) st1 /\
  cleanup (eval 6) 1 st1 = Ok tt st2 /\
  heap st2 = heap st1 /\
  trace st = [Ran 1; Printed 7] /\
  trace st1 = [Ran 1; Printed 7; Printed 9] /\
  trace st2 = [Ran 1; Printed 7; Printed 9; Printed 9].
Proof.
  intros cb st st1 st2.
  assert (Hsub : subscribed 1 st = true) by (vm_compute; reflexivity).
  assert (Ho : heap st !! 1
               = Some (Computed [0] (EffectFn (VFun 0 (Print 9)) cb) false VNone false))
    by (vm_compute; reflexivity).
  destruct (disposer_twice (eval 6) 1 _ _ _ _ _ _ st Hsub Ho) as (_ & _ & H).
  destruct (H 0 (Print 9) VNone st1 eq_refl) as [H1 H2];
    [vm_compute; reflexivity | vm_compute; reflexivity |].
  split; [exact Hsub|]. split; [exact H1|]. split; [exact H2|].
  repeat (split; [vm_compute; reflexivity|]). vm_compute; reflexivity.
Defined.

(** ** A dependent that raises during a write *)

(** X8: the setter stores the new value and drains the list of the signal
    before it notifies anyone.  When the run of an effect it notifies raises,
    the exception leaves the assignment at once with [computing] put back:
    the value stays stored, the list of the signal is not restored, and the
    dependents listed after that effect are neither flagged nor run, nor
    listed any more: later writes do not reach them. *)
Theorem Signal_value_set_dependent_raises run (s fx : ref) (pre post : list ref)
    (cur v : value) lf f c r (st st' : state) (e : exn) :
  heap st !! s = Some (Signal (pre ++ fx :: post) cur) ->
  heap st !! fx = Some (Computed lf f c r false) ->
  is_ cur v = false -> synchronous st = true ->
  forallb (exposing (heap st)) pre = true ->
  let st1 := set_heap (foldl invalidate (<[s := Signal [] v]> (heap st)) pre) st in
  call__value run fx (entering fx st1) = Exn e st' ->
  Signal_value_set run s v st = Exn e (set_computing (computing st) st') /\
  heap (entering fx st1) !! s = Some (Signal [] v) /\
  (forall n, (n ∉ pre) -> n <> fx -> n <> s ->
     heap (entering fx st1) !! n = heap st !! n).
Proof.
  intros Hs Hfx Hne Hsync Hpre st1 Hcall.
  assert (Hsfx : s <> fx) by (intros ->; congruence).
  destruct (Signal_value_set_effect run s fx pre post cur v lf f c r st Hs Hfx Hne Hsync Hpre)
    as [Hw _]. fold st1 in Hw.
  assert (Hfx1 : exists c', heap st1 !! fx = Some (Computed lf f c' r false)).
  { unfold st1. cbn [heap set_heap].
    rewrite foldl_invalidate_lookup, list_lookup_insert_ne, Hfx by assumption.
    destruct (mem fx pre); eexists; reflexivity. }
  destruct Hfx1 as [c' Hfx1].
  assert (Hen : forall n, n <> fx -> heap (entering fx st1) !! n = heap st1 !! n).
  { intros n Hn. unfold entering. rewrite Hfx1. cbn [heap set_heap set_trace].
    now rewrite list_lookup_insert_ne by congruence. }
  split; [|split].
  - rewrite Hw. unfold bind, try_finally. now rewrite Hcall.
  - rewrite Hen by assumption. unfold st1. cbn [heap set_heap].
    rewrite foldl_invalidate_lookup, (lookup_insert_cell _ _ _ _ Hs).
    now destruct (mem s pre).
  - intros n Hpre' Hnfx Hns. rewrite Hen by assumption. unfold st1. cbn [heap set_heap].
    apply mem_false in Hpre'.
    now rewrite foldl_invalidate_lookup, Hpre', list_lookup_insert_ne by congruence.
Qed.

(** In [script_raising_dependent] (signal 0, effects 1 and 2) the write
    [s.value = 1] raises out of the first effect; the second effect is not
    run and is listed no more, so that after [s.value = 0], which returns,
    it has still run only once. *)
Lemma Signal_value_set_dependent_raises_witness :
  let st := state_of (script_raising_dependent (eval 5) initial) in
  let st1 := set_heap (<[0 := Signal [] (VInt 1)]> (heap st)) st in
  let sta := state_of (Signal_value_set (eval 5) 0 (VInt 1) st) in
  let stb := state_of (Signal_value_set (eval 5) 0 (VInt 0) sta) in
  exists st',
    items_at 0 st = [1; 2] /\
    call__value (eval 5) 1 (entering 1 st1) = Exn Exception st' /\
    Signal_value_set (eval 5) 0 (VInt 1) st = Exn Exception (set_computing (computing st) st') /\
    heap (entering 1 st1) !! 0 = Some (Signal [] (VInt 1)) /\
    heap (entering 1 st1) !! 2 = heap st !! 2 /\
    items_at 0 sta = [1] /\ dirty 2 sta = false /\
    Signal_value_set (eval 5) 0 (VInt 0) sta = Ok tt stb /\
    runs_of 1 (trace stb) = 3 /\ runs_of 2 (trace stb) = 1.
Proof.
  intros st st1 sta stb. eexists.
  split; [vm_compute; reflexivity|].
  assert (Hcall : call__value (eval 5) 1 (entering 1 st1)
                  = Exn Exception (state_of (call__value (eval 5) 1 (entering 1 st1))))
    by (vm_compute; reflexivity).
  split; [exact Hcall|].
  destruct (Signal_value_set_dependent_raises (eval 5) 0 1 [] [2] (VInt 0) (VInt 1)
              [0] (EffectFn VNone (Cond (Get 0) Raise None_)) false VNone st _ Exception
              eq_refl eq_refl eq_refl eq_refl eq_refl Hcall) as (Hw & Hs & Hn).
  split; [exact Hw|]. split; [exact Hs|].
  split; [apply Hn; [intros H; inversion H | discriminate | discriminate]|].
  repeat (split; [vm_compute; reflexivity|]). vm_compute; reflexivity.
Defined.

(** ** [batch]: nesting and failure *)

(** X9: [batch] flushes only when it is the outermost one, its callback has
    returned and something is pending.  When the callback raises, the
    exception goes through with the mode put back and nothing flushed: what
    the callback enqueued stays in [batched].  A [batch] called inside a
    batch leaves the mode off and the queue to the outer one; an outermost
    [batch] with nothing pending only puts the mode back. *)
Theorem batch_nested_or_failing run (callback : M value) (st : state) :
  (forall e st1,
     callback (set_synchronous false st) = Exn e st1 ->
     batch run callback st = Exn e (set_synchronous (synchronous st) st1)) /\
  (forall v st1,
     callback (set_synchronous false st) = Ok v st1 -> synchronous st = false ->
     batch run callback st = Ok tt (set_synchronous false st1)) /\
  (forall v st1,
     callback (set_synchronous false st) = Ok v st1 -> batched st1 = [] ->
     batch run callback st = Ok tt (set_synchronous (synchronous st) st1)).
Proof.
  split; [|split].
  - intros e st1. apply batch_raises.
  - intros v st1 Hcb Hs. rewrite (batch_no_flush run callback v st st1 Hcb (or_introl Hs)).
    now rewrite Hs.
  - intros v st1 Hcb Hq. apply (batch_no_flush run callback v st st1 Hcb (or_intror Hq)).
Qed.

(** [s = signal(o); effect(lambda: s.value)] (objects 0 and 1), then
    [batch(lambda: (s.value = 2, raise))]: the batch raises, the effect is
    left pending, dirty and listed by nothing, and has not run again; the
    write [s.value = 3] does not reach it; the next batch, of an empty
    callback, flushes it. *)
Lemma batch_nested_or_failing_witness :
  let st := state_of (script_effect_on_object (eval 4) initial) in
  let st1 := state_of (eval 6 (Seq (Put 0 (Int 2)) Raise) (set_synchronous false st)) in
  let st2 := state_of (Signal_value_set (eval 6) 0 (VInt 3) (set_synchronous true st1)) in
  let st3 := state_of (batch (eval 6) (eval 6 None_) st2) in
  eval 6 (Seq (Put 0 (Int 2)) Raise) (set_synchronous false st) = Exn Exception st1 /\
  batch (eval 6) (eval 6 (Seq (Put 0 (Int 2)) Raise)) st
  = Exn Exception (set_synchronous (synchronous st) st1) /\
  synchronous st = true /\
  batched st1 = [1] /\ dirty 1 st1 = true /\ items_at 0 st1 = [] /\
  runs_of 1 (trace st) = 1 /\ runs_of 1 (trace st1) = 1 /\
  Signal_value_set (eval 6) 0 (VInt 3) (set_synchronous true st1) = Ok tt st2 /\
  runs_of 1 (trace st2) = 1 /\
  batch (eval 6) (eval 6 None_) st2 = Ok tt st3 /\
  runs_of 1 (trace st3) = 2 /\ batched st3 = [] /\ items_at 0 st3 = [1].
Proof.
  intros st st1 st2 st3.
  assert (Hcb : eval 6 (Seq (Put 0 (Int 2)) Raise) (set_synchronous false st)
                = Exn Exception st1) by (vm_compute; reflexivity).
  split; [exact Hcb|].
  split; [exact (proj1 (batch_nested_or_failing (eval 6) _ st) _ _ Hcb)|].
  repeat (split; [vm_compute; reflexivity|]). vm_compute; reflexivity.
Defined.

(** ** [peek] subscribes nobody *)

(** A new effect that ends its first run with an empty list, in a state
    whose other objects are as before, is detached. *)
Lemma born_detached (st : state) (v : value) (cb : prog) :
  fresh st = true -> value_avoids (length (heap st)) v = true ->
  detached (length (heap st))
    (set_trace (trace st ++ [Ran (length (heap st))])
       (set_heap (heap st ++ [Computed [] (EffectFn v cb) false VNone false]) st)) = true.
Proof.
  intros Hfresh Hv. set (fx := length (heap st)) in *.
  unfold fresh in Hfresh. fold fx in Hfresh.
  rewrite !andb_true_iff, !negb_true_iff in Hfresh. destruct Hfresh as [[Hoth Hb] Hc].
  pose proof (proj1 (others_avoid_spec fx (heap st) 0) Hoth) as Hall.
  unfold detached. rewrite !andb_true_iff, !negb_true_iff.
  split; [split; [split|]|].
  - cbn [heap set_trace set_heap]. unfold fx. rewrite lookup_alloc. exact Hv.
  - cbn [heap set_trace set_heap].
    apply others_avoid_spec. intros n o Hn Hne. cbn in Hne.
    destruct (decide (n < length (heap st))) as [Hlt|Hge].
    + rewrite lookup_app_l in Hn by assumption. now apply (Hall n o).
    + apply lookup_lt_Some in Hn as Hlen. rewrite length_app in Hlen. cbn in Hlen.
      unfold fx in Hne. lia.
  - exact Hb.
  - exact Hc.
Qed.

Lemma effect_peek_read (fuel : nat) (s : ref) l v (st : state) :
  heap st !! s = Some (Signal l v) ->
  effect (eval (1 + fuel)) (Peek s) st
  = Ok (length (heap st))
      (set_trace (trace st ++ [Ran (length (heap st))])
         (set_heap (heap st ++ [Computed [] (EffectFn v (Peek s)) false VNone false]) st)).
Proof.
  intros Ho.
  assert (Hs : heap (born (Peek s) st) !! s = Some (Signal l v)).
  { cbn. rewrite lookup_app_l by (eapply lookup_lt_Some, Ho). exact Ho. }
  assert (Hrun : eval (1 + fuel) (Peek s) (born (Peek s) st) = Ok v (born (Peek s) st)).
  { cbn [eval Nat.add]. unfold peek, bind. rewrite (load_eq _ _ _ Hs).
    unfold Signal_peek, get__value, bind. now rewrite (load_eq _ _ _ Hs). }
  rewrite (effect_returns _ _ _ _ _ _ _ _ _ _ Hrun (lookup_alloc _ _)).
  unfold born. cbn [heap set_heap set_trace]. rewrite insert_alloc. now destruct st.
Qed.

(** X10: [peek] of a signal returns its value and leaves the state as it
    is, whatever [tracked] and [computing] are: it registers nothing.  An
    effect that reads a signal only through [peek] is therefore listed by
    nothing after its first run, and no later write, nor any callback body
    that does not name it, runs it again. *)
Theorem peek_registers_nothing (s : ref) l v (st : state) :
  heap st !! s = Some (Signal l v) ->
  (forall run, peek run s st = Ok v st) /\
  (fresh st = true -> forall fuel,
     exists st1,
       effect (eval (1 + fuel)) (Peek s) st = Ok (length (heap st)) st1 /\
       (forall n, n < length (heap st) -> heap st1 !! n = heap st !! n) /\
       items_at (length (heap st)) st1 = [] /\
       runs_of (length (heap st)) (trace st1) = S (runs_of (length (heap st)) (trace st)) /\
       (forall fuel' w, value_avoids (length (heap st)) w = true ->
          after (Signal_value_set (eval fuel') s w st1)
            (fun st2 => runs_of (length (heap st)) (trace st2)
                        = runs_of (length (heap st)) (trace st1))) /\
       (forall fuel' p, avoids (length (heap st)) p = true ->
          after (eval fuel' p st1)
            (fun st2 => runs_of (length (heap st)) (trace st2)
                        = runs_of (length (heap st)) (trace st1)))).
Proof.
  intros Ho. split.
  - intros run. unfold peek, bind. rewrite (load_eq _ _ _ Ho).
    unfold Signal_peek, get__value, bind. now rewrite (load_eq _ _ _ Ho).
  - intros Hfresh fuel. set (fx := length (heap st)).
    assert (Hsfx : s <> fx) by (apply Nat.lt_neq; eapply lookup_lt_Some, Ho).
    assert (Hv : value_avoids fx v = true).
    { unfold fresh in Hfresh. fold fx in Hfresh.
      rewrite !andb_true_iff in Hfresh. destruct Hfresh as [[Hoth _] _].
      pose proof (proj1 (others_avoid_spec fx (heap st) 0) Hoth s _ Ho Hsfx) as Hall.
      unfold object_avoids in Hall. now apply andb_true_iff in Hall as [_ Hall]. }
    pose proof (born_detached st v (Peek s) Hfresh Hv) as Hd. fold fx in Hd.
    eexists. split; [exact (effect_peek_read fuel s l v st Ho)|].
    split; [|split; [|split; [|split]]].
    + intros n Hn. cbn. now rewrite lookup_app_l.
    + unfold items_at, items_in. cbn. unfold fx. now rewrite lookup_alloc.
    + cbn. rewrite runs_of_app. cbn. fold fx. rewrite Nat.eqb_refl. lia.
    + intros fuel' w Hw. eapply after_impl.
      * apply detached_write_never_runs; [exact Hd | exact Hsfx | exact Hw].
      * now intros st2 [_ H].
    + intros fuel' p Hp. eapply after_impl.
      * apply detached_never_run; [exact Hd | exact Hp].
      * now intros st2 [_ H].
Qed.

(** [s = signal(1); effect(lambda: s.peek()); s.value = 2]: the effect
    (object 1) runs once, at its creation. *)
Lemma peek_registers_nothing_witness :
  let st := state_of (signal (VInt 1) initial) in
  heap st !! 0 = Some (Signal [] (VInt 1)) /\
  fresh st = true /\
  peek (eval 0) 0 st = Ok (VInt 1) st /\
  exists st1,
    effect (eval 1) (Peek 0) st = Ok 1 st1 /\
    items_at 0 st1 = [] /\ items_at 1 st1 = [] /\
    after (Signal_value_set (eval 4) 0 (VInt 2) st1)
      (fun st2 => runs_of 1 (trace st2) = runs_of 1 (trace st1)) /\
    runs_of 1 (trace (state_of (Signal_value_set (eval 4) 0 (VInt 2) st1))) = 1.
Proof.
  intros st.
  assert (Ho : heap st !! 0 = Some (Signal [] (VInt 1))) by reflexivity.
  destruct (peek_registers_nothing 0 [] (VInt 1) st Ho) as (Hpeek & Heffect).
  destruct (Heffect eq_refl 0) as (st1 & Heff & Hsame & Hitems & _ & Hwrite & _).
  split; [exact Ho|]. split; [reflexivity|]. split; [exact (Hpeek (eval 0))|].
  exists st1. split; [exact Heff|].
  split; [unfold items_at, items_in; now rewrite (Hsame 0 (Nat.lt_0_1))|].
  split; [exact Hitems|]. split; [exact (Hwrite 4 (VInt 2) eq_refl)|].
  assert (E : Ok 1 st1 = effect (eval 1) (Peek 0) st) by (symmetry; exact Heff).
  vm_compute in E. injection E as ->. vm_compute. reflexivity.
Defined.

(** ** The mode globals are always put back *)

Lemma restores_ret {A} (a : A) : restores (ret a).
Proof. intros st. reflexivity. Qed.

Lemma restores_raise {A} (e : exn) : restores (@raise A e).
Proof. intros st. reflexivity. Qed.

Lemma restores_gets {A} (f : state -> A) : restores (gets f).
Proof. intros st. reflexivity. Qed.

Lemma restores_modify (f : state -> state) :
  (forall st, modes (f st) = modes st) -> restores (modify f).
Proof. intros Hf st. apply Hf. Qed.

Lemma restores_load (n : ref) : restores (load n).
Proof. intros st. unfold load. now destruct (heap st !! n). Qed.

Lemma restores_alloc (o : object) : restores (alloc o).
Proof. intros st. reflexivity. Qed.

Lemma restores_bind {A B} (m : M A) (k : A -> M B) :
  restores m -> (forall a, restores (k a)) -> restores (x <- m ;; k x).
Proof.
  intros Hm Hk st. unfold bind. specialize (Hm st).
  destruct (m st) as [a st1|e st1| |]; cbn [after] in *; try assumption.
  specialize (Hk a st1). destruct (k a st1) as [b st2|e st2| |]; cbn [after] in *;
    try exact Logic.I; congruence.
Qed.

Lemma restores_for_each {A} (l : list A) (body : A -> M unit) :
  (forall x, restores (body x)) -> restores (for_each l body).
Proof.
  intros Hb. induction l as [|x l IH]; cbn [for_each]; [apply restores_ret|].
  apply restores_bind; [apply Hb | intros _; exact IH].
Qed.

Ltac restores_step :=
  first
    [ assumption
    | solve [auto]
    | apply restores_ret
    | apply restores_raise
    | apply restores_gets
    | apply restores_load
    | apply restores_alloc
    | apply restores_modify; intros ?; reflexivity
    | apply restores_bind; [|intros ?]
    | apply restores_for_each; intros ?
    | match goal with
      | |- restores (match ?x with _ => _ end) => destruct x
      end ].

Lemma restores_store (n : ref) (o : object) : restores (store n o).
Proof. unfold store. repeat restores_step. Qed.

Lemma restores_add (n x : ref) : restores (add n x).
Proof. unfold add. pose proof restores_store. repeat restores_step. Qed.

Lemma restores_discard (n x : ref) : restores (discard n x).
Proof. unfold discard. pose proof restores_store. repeat restores_step. Qed.

Lemma restores_clear (n : ref) : restores (clear n).
Proof. unfold clear. pose proof restores_store. repeat restores_step. Qed.

Lemma restores_cleared (n : ref) : restores (cleared n).
Proof. unfold cleared. pose proof restores_store. cbv zeta. repeat restores_step. Qed.

Lemma restores_cleared_batched : restores cleared_batched.
Proof. unfold cleared_batched. repeat restores_step. Qed.

Lemma restores_get__value (n : ref) : restores (get__value n).
Proof. unfold get__value. repeat restores_step. Qed.

Lemma restores_get__compute (n : ref) : restores (get__compute n).
Proof. unfold get__compute. repeat restores_step. Qed.

Lemma restores_get__computed (n : ref) : restores (get__computed n).
Proof. unfold get__computed. repeat restores_step. Qed.

Lemma restores_get__subscribe (n : ref) : restores (get__subscribe n).
Proof. unfold get__subscribe. repeat restores_step. Qed.

Lemma restores_set__compute (n : ref) (b : bool) : restores (set__compute n b).
Proof. unfold set__compute. pose proof restores_store. repeat restores_step. Qed.

Lemma restores_set__computed (n : ref) (v : value) : restores (set__computed n v).
Proof. unfold set__computed. pose proof restores_store. repeat restores_step. Qed.

Lemma restores_get_effect_value (n : ref) : restores (get_effect_value n).
Proof. unfold get_effect_value. repeat restores_step. Qed.

Lemma restores_set_effect_value (n : ref) (v : value) : restores (set_effect_value n v).
Proof. unfold set_effect_value. pose proof restores_store. repeat restores_step. Qed.

Lemma restores_emit (e : event) : restores (emit e).
Proof. unfold emit. repeat restores_step. Qed.

Lemma restores_Signal_value (self : ref) : restores (Signal_value self).
Proof.
  unfold Signal_value. pose proof restores_add. pose proof restores_get__value.
  repeat restores_step.
Qed.

Lemma restores_arith (op : Z -> Z -> Z) (a b : value) : restores (arith op a b).
Proof. unfold arith. repeat restores_step. Qed.

Section Restores.

Variable run : prog -> M value.
Hypothesis Hrun : forall p, restores (run p).

Lemma restores_call (v : value) : restores (call run v).
Proof. unfold call. repeat restores_step. Qed.

Lemma restores_call__value (self : ref) : restores (call__value run self).
Proof.
  unfold call__value, effect_effect.
  pose proof restores_call. pose proof restores_get_effect_value.
  pose proof restores_set_effect_value. repeat restores_step.
Qed.

(** [_run] sets [computing] and its [finally] puts the former value back. *)
Lemma restores_Computed__run (self : ref) : restores (Computed__run run self).
Proof.
  intros st. destruct (heap st !! self) as [[l v|l f [|] r s]|] eqn:Ho.
  - unfold Computed__run, get__compute, bind. now rewrite (load_eq _ _ _ Ho).
  - rewrite (Computed__run_dirty _ _ _ _ _ _ _ Ho). unfold try_finally.
    assert (Hbody : restores (v <- call__value run self ;; set__computed self v)).
    { pose proof restores_call__value. pose proof restores_set__computed.
      repeat restores_step. }
    specialize (Hbody (entering self st)).
    assert (He : modes (entering self st) = (synchronous st, tracked st, Some self))
      by (unfold entering; now rewrite Ho).
    destruct ((v <- call__value run self ;; set__computed self v) (entering self st))
      as [a st'|e st'| |]; cbn [after] in *; try exact Logic.I;
      rewrite He in Hbody; unfold modes in *; cbn; congruence.
  - now rewrite (Computed__run_clean _ _ _ _ _ _ _ Ho).
  - unfold Computed__run, get__compute, bind, load. now rewrite Ho.
Qed.

Lemma restores_Computed__update (self : ref) : restores (Computed__update run self).
Proof.
  unfold Computed__update. pose proof restores_Computed__run.
  pose proof restores_set__compute. pose proof restores_get__subscribe.
  repeat restores_step.
Qed.

Lemma restores_Computed_value (self : ref) : restores (Computed_value run self).
Proof.
  unfold Computed_value. pose proof restores_Computed__run.
  pose proof restores_get__subscribe. pose proof restores_get__computed.
  pose proof restores_cleared. pose proof restores_add. repeat restores_step.
Qed.

Lemma restores_Computed_peek (self : ref) : restores (Computed_peek run self).
Proof.
  unfold Computed_peek. pose proof restores_Computed__run.
  pose proof restores_get__computed. repeat restores_step.
Qed.

Lemma restores_Signal_value_set (self : ref) (v : value) :
  restores (Signal_value_set run self v).
Proof.
  unfold Signal_value_set. pose proof restores_Computed__update.
  pose proof restores_store. pose proof restores_cleared. repeat restores_step.
Qed.

Lemma restores_get_value (n : ref) : restores (get_value run n).
Proof.
  unfold get_value. pose proof restores_Computed_value. pose proof restores_Signal_value.
  repeat restores_step.
Qed.

Lemma restores_peek (n : ref) : restores (peek run n).
Proof.
  unfold peek, Signal_peek. pose proof restores_Computed_peek.
  pose proof restores_get__value. repeat restores_step.
Qed.

Lemma restores_cleanup (fx : ref) : restores (cleanup run fx).
Proof.
  unfold cleanup. pose proof restores_call. pose proof restores_cleared.
  pose proof restores_discard. pose proof restores_get_effect_value.
  repeat restores_step.
Qed.

Lemma restores_effect (cb : prog) : restores (effect run cb).
Proof. unfold effect. pose proof restores_Computed_value. repeat restores_step. Qed.

(** [batch] turns [synchronous] off, may turn it on again for the flush, and
    its [finally] puts the former value back. *)
Lemma restores_batch (callback : M value) : restores callback -> restores (batch run callback).
Proof.
  intros Hcb st. unfold batch. unfold bind at 1. cbn [gets]. unfold bind at 1. cbn [modify].
  unfold try_finally. unfold bind at 1.
  specialize (Hcb (set_synchronous false st)).
  destruct (callback (set_synchronous false st)) as [v st1|e st1| |]; cbn [after] in *;
    try exact Logic.I; [|unfold modes in *; cbn in *; congruence].
  unfold bind at 1. cbn [gets].
  destruct (synchronous st && negb (Nat.eqb (length (batched st1)) 0));
    [|cbn; unfold modes in *; cbn in *; congruence].
  unfold bind at 1. cbn [modify]. unfold bind at 1, cleared_batched, bind at 1 2.
  cbn [gets modify ret batched set_synchronous].
  assert (Hflush : restores (for_each (batched st1) (fun batch =>
            c <- get__compute batch ;; if c then Computed__update run batch else ret tt))).
  { pose proof restores_get__compute. pose proof restores_Computed__update.
    repeat restores_step. }
  specialize (Hflush (set_batched [] (set_synchronous (synchronous st) st1))).
  match goal with
  | |- after (match ?m with _ => _ end) _ => destruct m as [u st2|e st2| |]
  end; cbn [after] in *; try exact Logic.I; unfold modes in *; cbn in *; congruence.
Qed.

End Restores.

(** [untracked] turns [tracked] off and its [finally] puts the former value
    back. *)
Lemma restores_untracked {A} (callback : M A) : restores callback -> restores (untracked callback).
Proof.
  intros Hcb st. unfold untracked, bind, try_finally. cbn [gets modify].
  specialize (Hcb (set_tracked false st)).
  destruct (callback (set_tracked false st)) as [v st1|e st1| |]; cbn [after] in *;
    try exact Logic.I; unfold modes in *; cbn in *; congruence.
Qed.

Lemma restores_eval (fuel : nat) : forall p, restores (eval fuel p).
Proof.
  induction fuel as [|fuel IH]; intros p.
  - intros st. exact Logic.I.
  - pose proof (restores_get_value _ IH). pose proof (restores_peek _ IH).
    pose proof (restores_Signal_value_set _ IH). pose proof (restores_cleanup _ IH).
    pose proof (restores_batch (eval fuel) IH). pose proof (@restores_untracked value).
    pose proof restores_arith. pose proof restores_emit.
    destruct p; cbn [eval]; repeat restores_step; auto.
Qed.

(** X11: whether it returns or raises, every operation of the library
    leaves the globals [synchronous], [tracked] and [computing] as it found
    them: a read, a [peek], a write, the creation of an effect, a call of a
    disposer, a [batch], an [untracked], and so every callback body.  An
    exception never leaves the library in batch mode, with tracking off, or
    with a node marked as being computed. *)
Theorem modes_restored (fuel : nat) (st : state) :
  (forall p, after (eval fuel p st)
     (fun st' => synchronous st' = synchronous st /\ tracked st' = tracked st /\
                 computing st' = computing st)) /\
  (forall n, after (get_value (eval fuel) n st) (fun st' => modes st' = modes st)) /\
  (forall n, after (peek (eval fuel) n st) (fun st' => modes st' = modes st)) /\
  (forall n v, after (Signal_value_set (eval fuel) n v st) (fun st' => modes st' = modes st)) /\
  (forall cb, after (effect (eval fuel) cb st) (fun st' => modes st' = modes st)) /\
  (forall fx, after (cleanup (eval fuel) fx st) (fun st' => modes st' = modes st)) /\
  (forall p, after (batch (eval fuel) (eval fuel p) st) (fun st' => modes st' = modes st)) /\
  (forall p, after (untracked (eval fuel p) st) (fun st' => modes st' = modes st)).
Proof.
  pose proof (restores_eval fuel) as IH.
  split.
  { intros p. specialize (IH p st). unfold after, modes in *.
    destruct (eval fuel p st); try exact Logic.I; now inversion IH. }
  split; [intros n; now apply restores_get_value|].
  split; [intros n; now apply restores_peek|].
  split; [intros n v; now apply restores_Signal_value_set|].
  split; [intros cb; now apply restores_effect|].
  split; [intros fx; now apply restores_cleanup|].
  split; [intros p; apply restores_batch; [exact IH | apply IH]|].
  intros p. apply restores_untracked, IH.
Qed.

(** ** No list ever holds an item twice *)

Section NoRepeats.

Local Abbreviation I := No_repeats.
Local Abbreviation any := (fun _ => True).
Local Abbreviation set_like := (fun o : object => NoDup (items o)).

Lemma nr_load (n : ref) : preserves I set_like (load n).
Proof.
  intros st HI. unfold load. destruct (heap st !! n) as [o|] eqn:E; [|exact Logic.I].
  split; [exact HI|]. pose proof (nr_items _ HI n) as H.
  unfold items_at, items_in in H. now rewrite E in H.
Qed.

Lemma nr_store (n : ref) (o : object) : NoDup (items o) -> preserves I any (store n o).
Proof.
  intros Ho st [H1 H2]. cbn. split; [|exact Logic.I]. split; [|exact H2].
  intros m. unfold items_at, items_in. cbn [heap set_heap].
  destruct (<[n := o]> (heap st) !! m) as [o'|] eqn:E; [|constructor].
  apply list_lookup_insert_Some in E as [(-> & <- & _)|(_ & E)]; [exact Ho|].
  specialize (H1 m). unfold items_at, items_in in H1. now rewrite E in H1.
Qed.

Lemma nr_flags (st : state) (f : state -> state) :
  heap (f st) = heap st -> batched (f st) = batched st -> I st -> I (f st).
Proof.
  intros Eh Eb [H1 H2]. split; [|now rewrite Eb].
  intros n. unfold items_at. rewrite Eh. apply H1.
Qed.

Lemma nr_modify (f : state -> state) :
  (forall st, heap (f st) = heap st) -> (forall st, batched (f st) = batched st) ->
  preserves I any (modify f).
Proof. intros Eh Eb. apply preserves_modify. intros st. now apply nr_flags. Qed.

Lemma nr_alloc (o : object) : NoDup (items o) -> preserves I (fun _ => True) (alloc o).
Proof.
  intros Ho st [H1 H2]. cbn. split; [|exact Logic.I]. split; [|exact H2].
  intros m. unfold items_at, items_in. cbn [heap set_heap].
  destruct ((heap st ++ [o]) !! m) as [o'|] eqn:E; [|constructor].
  apply lookup_app_Some in E as [E|[_ E]].
  - specialize (H1 m). unfold items_at, items_in in H1. now rewrite E in H1.
  - apply list_lookup_singleton_Some in E as [_ <-]. exact Ho.
Qed.

Lemma nr_with_items (l : list ref) (o : object) : NoDup l -> NoDup (items (with_items l o)).
Proof. now rewrite items_with_items. Qed.

Lemma nr_add (n x : ref) : preserves I any (add n x).
Proof.
  eapply preserves_bind; [apply nr_load|]. intros o Ho.
  now apply nr_store, nr_with_items, Set_add_NoDup.
Qed.

Lemma nr_discard (n x : ref) : preserves I any (discard n x).
Proof.
  eapply preserves_bind; [apply nr_load|]. intros o Ho.
  now apply nr_store, nr_with_items, Set_discard_NoDup.
Qed.

Lemma nr_clear (n : ref) : preserves I any (clear n).
Proof.
  eapply preserves_bind; [apply nr_load|]. intros o Ho.
  apply nr_store, nr_with_items. constructor.
Qed.

Lemma nr_cleared (n : ref) : preserves I any (cleared n).
Proof.
  eapply preserves_bind; [apply nr_load|]. intros o Ho.
  eapply preserves_bind with (Q := any); [|intros _ _; now apply preserves_ret].
  apply nr_store, nr_with_items. constructor.
Qed.

Lemma nr_cleared_batched : preserves I any cleared_batched.
Proof.
  unfold cleared_batched.
  eapply preserves_bind; [apply preserves_gets with (Q := any); auto|]. intros l _.
  eapply preserves_bind with (Q := any); [|intros _ _; now apply preserves_ret].
  apply preserves_modify. intros st [H1 H2]. split; [exact H1 | constructor].
Qed.

Lemma nr_getter {A} (n : ref) (f : object -> M A) :
  (forall o, preserves I any (f o)) -> preserves I any (o <- load n ;; f o).
Proof.
  intros Hf. eapply preserves_bind; [apply nr_load|]. intros o _. apply Hf.
Qed.

Lemma nr_get__value (n : ref) : preserves I any (get__value n).
Proof.
  apply nr_getter. intros [l v|l f c r s]; [now apply preserves_ret | apply preserves_raise].
Qed.

Lemma nr_get__compute (n : ref) : preserves I any (get__compute n).
Proof.
  apply nr_getter. intros [l v|l f c r s]; [apply preserves_raise | now apply preserves_ret].
Qed.

Lemma nr_get__computed (n : ref) : preserves I any (get__computed n).
Proof.
  apply nr_getter. intros [l v|l f c r s]; [apply preserves_raise | now apply preserves_ret].
Qed.

Lemma nr_get__subscribe (n : ref) : preserves I any (get__subscribe n).
Proof.
  apply nr_getter. intros [l v|l f c r s]; [apply preserves_raise | now apply preserves_ret].
Qed.

Lemma nr_get_effect_value (n : ref) : preserves I any (get_effect_value n).
Proof.
  apply nr_getter.
  intros [l v|l [b|v cb] c r s]; try apply preserves_raise. now apply preserves_ret.
Qed.

Lemma nr_set__compute (n : ref) (b : bool) : preserves I any (set__compute n b).
Proof.
  eapply preserves_bind; [apply nr_load|].
  intros [l v|l f c r s] Ho; [apply preserves_raise|]. now apply nr_store.
Qed.

Lemma nr_set__computed (n : ref) (v : value) : preserves I any (set__computed n v).
Proof.
  eapply preserves_bind; [apply nr_load|].
  intros [l w|l f c r s] Ho; [apply preserves_raise|]. now apply nr_store.
Qed.

Lemma nr_set_effect_value (n : ref) (v : value) : preserves I any (set_effect_value n v).
Proof.
  eapply preserves_bind; [apply nr_load|].
  intros [l w|l [b|w cb] c r s] Ho; try apply preserves_raise. now apply nr_store.
Qed.

Lemma nr_emit (e : event) : preserves I any (emit e).
Proof. now apply nr_modify. Qed.

(** The two [add]s of a registration. *)
Lemma nr_register (signal : ref) :
  preserves I any
    (c <- gets computing ;;
     match c with
     | Some computing => add computing signal ;; add signal computing
     | None => raise AttributeError
     end).
Proof.
  eapply preserves_bind; [apply preserves_gets with (Q := any); auto|].
  intros [c|] _; [|apply preserves_raise].
  eapply preserves_bind; [apply nr_add|]. intros _ _. apply nr_add.
Qed.

Lemma nr_Signal_value (self : ref) : preserves I any (Signal_value self).
Proof.
  unfold Signal_value.
  eapply preserves_bind; [apply preserves_gets with (Q := any); auto|]. intros t _.
  eapply preserves_bind; [apply preserves_gets with (Q := any); auto|]. intros c _.
  eapply preserves_bind with (Q := any); [|intros _ _; apply nr_get__value].
  apply preserves_if; [apply nr_register | now apply preserves_ret].
Qed.

Variable run : prog -> M value.
Hypothesis Hrun : forall p, preserves I any (run p).

Lemma nr_call_if_callable (v : value) :
  preserves I any (if callable v then call run v ;; ret tt else ret tt).
Proof.
  apply preserves_if; [|now apply preserves_ret].
  eapply preserves_bind with (Q := any); [|intros _ _; now apply preserves_ret].
  destruct v as [|z|a x|a body]; try apply preserves_raise. apply Hrun.
Qed.

Lemma nr_call__value (self : ref) : preserves I any (call__value run self).
Proof.
  apply nr_getter. intros [l v|l [body|v cb] c r s].
  - apply preserves_raise.
  - apply Hrun.
  - unfold effect_effect.
    eapply preserves_bind; [apply nr_get_effect_value|]. intros w _.
    eapply preserves_bind; [apply nr_call_if_callable|]. intros _ _.
    eapply preserves_bind; [apply Hrun|]. intros w' _.
    eapply preserves_bind; [apply nr_set_effect_value|]. intros _ _.
    now apply preserves_ret.
Qed.

Lemma nr_Computed__run (self : ref) : preserves I any (Computed__run run self).
Proof.
  unfold Computed__run.
  eapply preserves_bind; [apply nr_get__compute|]. intros c _.
  apply preserves_if; [|now apply preserves_ret].
  eapply preserves_bind; [apply preserves_gets with (Q := any); auto|]. intros previously _.
  eapply preserves_bind; [now apply nr_modify|]. intros _ _.
  eapply preserves_bind; [apply nr_set__compute|]. intros _ _.
  eapply preserves_bind; [apply nr_clear|]. intros _ _.
  apply preserves_try_finally.
  - eapply preserves_bind; [apply nr_emit|]. intros _ _.
    eapply preserves_bind; [apply nr_call__value|]. intros r _.
    apply nr_set__computed.
  - intros st. now apply nr_flags.
Qed.

(** [batched.add(self)] keeps [batched] a set. *)
Lemma nr_Computed__update (self : ref) : preserves I any (Computed__update run self).
Proof.
  unfold Computed__update.
  eapply preserves_bind; [apply nr_set__compute|]. intros _ _.
  eapply preserves_bind; [apply preserves_gets with (Q := any); auto|]. intros sync _.
  apply preserves_if.
  - eapply preserves_bind; [apply nr_get__subscribe|]. intros s _.
    apply preserves_if; [now apply preserves_ret | apply nr_Computed__run].
  - eapply preserves_bind with (Q := fun b => NoDup b).
    + apply preserves_gets. intros st HI. apply (nr_batched _ HI).
    + intros b Hb. apply preserves_modify. intros st [H1 _].
      split; [exact H1 | now apply Set_add_NoDup].
Qed.

Lemma nr_Computed_value (self : ref) : preserves I any (Computed_value run self).
Proof.
  unfold Computed_value.
  eapply preserves_bind; [apply nr_Computed__run|]. intros _ _.
  eapply preserves_bind; [apply nr_get__subscribe|]. intros s _.
  eapply preserves_bind; [apply preserves_gets with (Q := any); auto|]. intros t _.
  eapply preserves_bind; [apply preserves_gets with (Q := any); auto|]. intros c _.
  eapply preserves_bind with (Q := any); [|intros _ _; apply nr_get__computed].
  apply preserves_if; [|now apply preserves_ret].
  eapply preserves_bind; [apply nr_cleared|]. intros l _.
  apply preserves_for_each. intros signal _. apply nr_register.
Qed.

Lemma nr_Computed_peek (self : ref) : preserves I any (Computed_peek run self).
Proof.
  unfold Computed_peek.
  eapply preserves_bind; [apply nr_Computed__run|]. intros _ _. apply nr_get__computed.
Qed.

Lemma nr_Signal_value_set (self : ref) (v : value) :
  preserves I any (Signal_value_set run self v).
Proof.
  unfold Signal_value_set.
  eapply preserves_bind; [apply nr_load|].
  intros [l cur|l f c r s] Ho; [|apply preserves_raise].
  apply preserves_if; [now apply preserves_ret|].
  eapply preserves_bind; [now apply nr_store|]. intros _ _.
  eapply preserves_bind; [apply nr_cleared|]. intros l' _.
  apply preserves_for_each. intros x _. apply nr_Computed__update.
Qed.

Lemma nr_get_value (n : ref) : preserves I any (get_value run n).
Proof.
  apply nr_getter.
  intros [l v|l f c r s]; [apply nr_Signal_value | apply nr_Computed_value].
Qed.

Lemma nr_peek (n : ref) : preserves I any (peek run n).
Proof.
  apply nr_getter. intros [l v|l f c r s]; [apply nr_get__value | apply nr_Computed_peek].
Qed.

Lemma nr_cleanup (fx : ref) : preserves I any (cleanup run fx).
Proof.
  unfold cleanup.
  eapply preserves_bind; [apply nr_cleared|]. intros l _.
  eapply preserves_bind.
  { apply preserves_for_each. intros signal _. apply nr_discard. }
  intros _ _.
  eapply preserves_bind; [apply nr_get_effect_value|]. intros v _.
  apply nr_call_if_callable.
Qed.

Lemma nr_effect (cb : prog) : preserves I any (effect run cb).
Proof.
  unfold effect.
  eapply preserves_bind; [apply nr_alloc; constructor|]. intros fx _.
  eapply preserves_bind; [apply nr_Computed_value|]. intros _ _.
  now apply preserves_ret.
Qed.

Lemma nr_batch (callback : M value) :
  preserves I any callback -> preserves I any (batch run callback).
Proof.
  intros Hcb. unfold batch.
  eapply preserves_bind; [apply preserves_gets with (Q := any); auto|]. intros finalize _.
  eapply preserves_bind; [now apply nr_modify|]. intros _ _.
  apply preserves_try_finally.
  - eapply preserves_bind; [exact Hcb|]. intros _ _.
    eapply preserves_bind; [apply preserves_gets with (Q := any); auto|]. intros b _.
    apply preserves_if; [|now apply preserves_ret].
    eapply preserves_bind; [now apply nr_modify|]. intros _ _.
    eapply preserves_bind; [apply nr_cleared_batched|].
    intros l _. apply preserves_for_each. intros n _.
    eapply preserves_bind; [apply nr_get__compute|]. intros c _.
    apply preserves_if; [apply nr_Computed__update | now apply preserves_ret].
  - intros st. now apply nr_flags.
Qed.

End NoRepeats.

Lemma nr_untracked {A} (callback : M A) :
  preserves No_repeats (fun _ => True) callback ->
  preserves No_repeats (fun _ => True) (untracked callback).
Proof.
  intros Hcb. unfold untracked.
  eapply preserves_bind; [apply preserves_gets with (Q := fun _ => True); auto|].
  intros tracking _.
  eapply preserves_bind; [now apply nr_modify|]. intros _ _.
  apply preserves_try_finally; [exact Hcb|]. intros st. now apply nr_flags.
Qed.

Lemma nr_eval (fuel : nat) (p : prog) :
  preserves No_repeats (fun _ => True) (eval fuel p).
Proof.
  revert p. induction fuel as [|fuel IH]; intros p.
  - intros st _. exact Logic.I.
  - destruct p as [|z|a x|a body|n|n|n e|a b|a b|c t e|a b|j| |body|body|n];
      cbn [eval]; try (now apply preserves_ret).
    + now apply nr_get_value.
    + now apply nr_peek.
    + eapply preserves_bind; [apply IH|]. intros v _.
      eapply preserves_bind; [now apply nr_Signal_value_set|]. intros _ _.
      now apply preserves_ret.
    + eapply preserves_bind; [apply IH|]. intros x _.
      eapply preserves_bind; [apply IH|]. intros y _.
      destruct x as [|x|? ?|? ?]; try apply preserves_raise.
      destruct y as [|y|? ?|? ?]; try apply preserves_raise. now apply preserves_ret.
    + eapply preserves_bind; [apply IH|]. intros x _.
      eapply preserves_bind; [apply IH|]. intros y _.
      destruct x as [|x|? ?|? ?]; try apply preserves_raise.
      destruct y as [|y|? ?|? ?]; try apply preserves_raise. now apply preserves_ret.
    + eapply preserves_bind; [apply IH|]. intros v _. apply preserves_if; apply IH.
    + eapply preserves_bind; [apply IH|]. intros _ _. apply IH.
    + eapply preserves_bind; [apply nr_emit|]. intros _ _. now apply preserves_ret.
    + apply preserves_raise.
    + eapply preserves_bind; [|intros _ _; now apply preserves_ret].
      apply nr_batch; [exact IH | apply IH].
    + apply nr_untracked. apply IH.
    + eapply preserves_bind; [|intros _ _; now apply preserves_ret].
      now apply nr_cleanup.
Qed.

(** X12: the lists are sets.  In the initial state no list holds an item
    twice, and no operation of the library, returning or raising, ever
    makes one do so: not the creation of a signal, a computed or an effect,
    nor a read, a write, a disposal, a batch, or any callback body.  So a
    write notifies each dependent once and a flush visits each pending node
    once. *)
Theorem lists_stay_sets :
  No_repeats initial /\
  (forall st v, No_repeats st -> after (signal v st) No_repeats) /\
  (forall st body, No_repeats st -> after (computed body st) No_repeats) /\
  (forall st fuel cb, No_repeats st -> after (effect (eval fuel) cb st) No_repeats) /\
  (forall st fuel n, No_repeats st -> after (get_value (eval fuel) n st) No_repeats) /\
  (forall st fuel n v, No_repeats st ->
     after (Signal_value_set (eval fuel) n v st) No_repeats) /\
  (forall st fuel fx, No_repeats st -> after (cleanup (eval fuel) fx st) No_repeats) /\
  (forall st fuel p, No_repeats st -> after (eval fuel p st) No_repeats) /\
  (forall st s l v, No_repeats st -> heap st !! s = Some (Signal l v) -> NoDup l).
Proof.
  assert (Hafter : forall A (m : M A) st,
            preserves No_repeats (fun _ => True) m -> No_repeats st -> after (m st) No_repeats).
  { intros A m st Hm HI. specialize (Hm st HI). unfold after.
    destruct (m st); try exact Logic.I; [apply Hm | exact Hm]. }
  split.
  { split; [|constructor]. intros n. unfold items_at, items_in. cbn.
    rewrite lookup_nil. constructor. }
  split; [intros st v; apply Hafter, nr_alloc; constructor|].
  split; [intros st body; apply Hafter, nr_alloc; constructor|].
  split; [intros st fuel cb; apply Hafter, nr_effect, nr_eval|].
  split; [intros st fuel n; apply Hafter, nr_get_value, nr_eval|].
  split; [intros st fuel n v; apply Hafter, nr_Signal_value_set, nr_eval|].
  split; [intros st fuel fx; apply Hafter, nr_cleanup, nr_eval|].
  split; [intros st fuel p; apply Hafter, nr_eval|].
  intros st s l v HI Ho. pose proof (nr_items _ HI s) as H.
  unfold items_at, items_in in H. now rewrite Ho in H.
Qed.

(** ** Creation is lazy, reads are cached *)

(** X14: [computed(producer)] calls nothing: the new node is dirty with an
    empty cache.  Its first read (here outside any computation) calls the
    producer once and caches what it returns; as long as the node is not
    flagged again, every later [value] and [peek] returns the cache and
    calls no producer, whatever the producer would do now. *)
Theorem computed_memoised run (body : prog) (st st2 : state) (w : value) l2 f2 r2 :
  computing st = None ->
  let c := length (heap st) in
  let st0 := set_heap (heap st ++ [Computed [] (Lambda body) true VNone true]) st in
  let st3 := set_computing None
               (set_heap (<[c := Computed l2 f2 false w true]> (heap st2)) st2) in
  run body (entering c st0) = Ok w st2 ->
  heap st2 !! c = Some (Computed l2 f2 false r2 true) ->
  computed body st = Ok c st0 /\
  trace st0 = trace st /\ dirty c st0 = true /\
  Computed_value run c st0 = Ok w st3 /\
  trace (entering c st0) = trace st ++ [Ran c] /\
  (forall run', Computed_value run' c st3 = Ok w st3 /\
                Computed_peek run' c st3 = Ok w st3).
Proof.
  intros Hc c st0 st3 Hrun Ho2.
  assert (Ho : heap st0 !! c = Some (Computed [] (Lambda body) true VNone true))
    by apply lookup_alloc.
  assert (Ho3 : heap st3 !! c = Some (Computed l2 f2 false w true))
    by apply (lookup_insert_cell _ _ _ _ Ho2).
  split; [reflexivity|]. split; [reflexivity|].
  split; [unfold dirty; now rewrite Ho|].
  split; [|split].
  - erewrite Computed_value_dirty; [| exact Ho | | exact Ho2 |].
    + unfold st3, st0. cbn [computing set_heap]. now rewrite Hc.
    + erewrite call__value_lambda; [exact Hrun|]. eapply entering_lookup, Ho.
    + unfold st0. cbn [computing set_heap]. rewrite Hc. rewrite bool_decide_false by auto.
      apply andb_false_r.
  - unfold entering. now rewrite Ho.
  - intros run'. split.
    + eapply Computed_value_clean; [exact Ho3|].
      unfold st3. cbn [computing set_computing]. rewrite bool_decide_false by auto.
      apply andb_false_r.
    + eapply Computed_peek_clean; exact Ho3.
Qed.

(** [s = signal(1); c = computed(lambda: s.value * 2); c.value; c.value]:
    the producer of [c] (object 1) is called once. *)
Lemma computed_memoised_witness :
  let st := state_of (signal (VInt 1) initial) in
  let st0 := state_of (computed (Mul (Get 0) (Int 2)) st) in
  let st3 := state_of (Computed_value (eval 3) 1 st0) in
  computed (Mul (Get 0) (Int 2)) st = Ok 1 st0 /\
  trace st0 = [] /\
  Computed_value (eval 3) 1 st0 = Ok (VInt 2) st3 /\
  Computed_value (eval 0) 1 st3 = Ok (VInt 2) st3 /\
  Computed_peek (eval 0) 1 st3 = Ok (VInt 2) st3 /\
  trace st3 = [Ran 1].
Proof.
  intros st st0 st3.
  pose proof (computed_memoised (eval 3) (Mul (Get 0) (Int 2)) st
                (state_of (eval 3 (Mul (Get 0) (Int 2)) (entering 1 st0)))
                (VInt 2) [0] (Lambda (Mul (Get 0) (Int 2))) VNone eq_refl) as H.
  cbv zeta in H.
  destruct H as (H1 & H2 & _ & H3 & _ & H4);
    [vm_compute; reflexivity | vm_compute; reflexivity |].
  split; [exact H1|]. split; [reflexivity|].
  assert (E : st3 = set_computing None
            (set_heap (<[1 := Computed [0] (Lambda (Mul (Get 0) (Int 2))) false (VInt 2) true]>
               (heap (state_of (eval 3 (Mul (Get 0) (Int 2)) (entering 1 st0)))))
               (state_of (eval 3 (Mul (Get 0) (Int 2)) (entering 1 st0)))))
    by (vm_compute; reflexivity).
  rewrite E. split; [exact H3|].
  split; [exact (proj1 (H4 (eval 0)))|]. split; [exact (proj2 (H4 (eval 0)))|].
  vm_compute. reflexivity.
Defined.

(** ** Nested [untracked] and nested [batch] *)

(** [batch], case by case. *)
Lemma batch_cases run (callback : M value) (st : state) :
  batch run callback st
  = match callback (set_synchronous false st) with
    | Ok _ st1 =>
        if synchronous st && negb (Nat.eqb (length (batched st1)) 0) then
          try_finally (for_each (batched st1) (visit run)) (set_synchronous (synchronous st))
            (set_batched [] (set_synchronous (synchronous st) st1))
        else Ok tt (set_synchronous (synchronous st) st1)
    | Exn e st1 => Exn e (set_synchronous (synchronous st) st1)
    | Dangling => Dangling
    | OutOfFuel => OutOfFuel
    end.
Proof.
  unfold batch, try_finally, bind. cbn [gets modify].
  destruct (callback (set_synchronous false st)) as [v st1|e st1| |]; try reflexivity.
  destruct (synchronous st && negb (Nat.eqb (length (batched st1)) 0)); reflexivity.
Qed.

(** X15: nesting either wrapper in itself changes nothing.  An [untracked]
    inside an [untracked] finds tracking off and puts it back off, so the two
    behave as one; a [batch] inside a [batch] neither flushes nor turns the
    mode on, so the two behave as the outer one alone: same result, same
    final state, for every callback and every state, whether the callback
    returns or raises. *)
Theorem nesting_collapses run (st : state) :
  (forall A (callback : M A), untracked (untracked callback) st = untracked callback st) /\
  (forall callback : M value,
     batch run (batch run callback ;; ret VNone) st = batch run callback st).
Proof.
  split.
  - intros A callback. unfold untracked, bind, try_finally. cbn [gets modify].
    change (set_tracked false (set_tracked false st)) with (set_tracked false st).
    now destruct (callback (set_tracked false st)).
  - intros callback. rewrite !batch_cases. unfold bind at 1. rewrite batch_cases.
    change (set_synchronous false (set_synchronous false st)) with (set_synchronous false st).
    cbn [synchronous set_synchronous andb].
    destruct (callback (set_synchronous false st)) as [v st1|e st1| |]; reflexivity.
Qed.
